(** * BinToCSV: the binary log decoder and the CSV serializer of [parsebin.cpp]

    A shallow embedding of [parseBinFile] and [writeCsv] together with the
    helpers they call ([swapBigEndianToHost], [parseHexAsFloatLittleEndian],
    [parseDateTimeFromTwoHex]), and of [MainWindow::onParse] of
    [mainwindow.cpp], which calls them.

    Conventions of the embedding:
    - [uint32_t] is a [Z] kept in [0, 2^32) with the wrap-around of every
      shift written out;
    - [char] and [std::string] are [ascii] and [string];
    - a [throw std::runtime_error(...)] is the [Throw] outcome of [result],
      with one constructor of [exn] for every throw site;
    - [float] and [double] are [spec_float] values (IEEE-754 binary32 and
      binary64 without NaN payloads) computed with the operations of
      [SpecFloat] at precision 24 and 53;
    - a [FILE*] is the file's bytes together with the position indicator. *)

From Equations Require Import Equations.
From Stdlib Require Import ZArith List String Ascii Bool Lia ZifyBool.
From Stdlib Require Import Permutation Sorted.
From Stdlib Require Import Floats.SpecFloat.
From Stdlib Require Import Arith Strings.Byte.
From Stdlib Require Import DecimalString.
Import ListNotations.

Local Open Scope string_scope.
Local Open Scope list_scope.
Local Open Scope Z_scope.

(** ** Exceptions *)

(** One constructor per [throw] in [parsebin.cpp]. *)
Inductive exn : Type :=
| HexTooShort        (* parseHexAsFloatLittleEndian: size < 8 *)
| HexBadChar         (* parseHexAsFloatLittleEndian: not a hex digit *)
| TimeFieldTooShort  (* parseDateTimeFromTwoHex: size < 8 *)
| NotDecimalDigit    (* decToInt *)
| YearOutOfRange
| MonthInvalid
| DayInvalid
| HourInvalid
| MinuteInvalid
| SecondInvalid
| CannotOpen         (* parseBinFile: fopen returned NULL *)
| SeekFailed         (* parseBinFile: fseek returned non-zero *)
| CannotCreate.      (* writeCsv: fopen returned NULL *)

Inductive result (A : Type) : Type :=
| Ok (a : A)
| Throw (e : exn).
Arguments Ok {A} a.
Arguments Throw {A} e.

Definition bind {A B} (r : result A) (k : A -> result B) : result B :=
  match r with
  | Ok a => k a
  | Throw e => Throw e
  end.

Notation "x <- r ;; k" := (bind r (fun x => k))
  (at level 61, r at next level, right associativity).

(** The errors the specification files under [IoError]: the file cannot be
    opened, sought or created. *)
Definition isIoError (e : exn) : bool :=
  match e with
  | CannotOpen | SeekFailed | CannotCreate => true
  | _ => false
  end.

(** The errors raised by the timestamp decoder. *)
Definition isTimestampError (e : exn) : bool :=
  match e with
  | TimeFieldTooShort | NotDecimalDigit | YearOutOfRange | MonthInvalid
  | DayInvalid | HourInvalid | MinuteInvalid | SecondInvalid => true
  | _ => false
  end.

(** The errors raised by the float decoder. *)
Definition isFloatError (e : exn) : bool :=
  match e with
  | HexTooShort | HexBadChar => true
  | _ => false
  end.

(** ** 32-bit words and characters *)

Definition wrap32 (v : Z) : Z := v mod 2 ^ 32.

Definition code (c : ascii) : Z := Z.of_N (N_of_ascii c).

Definition charOf (n : Z) : ascii := ascii_of_N (Z.to_N n).

Definition inRange (lo hi c : ascii) : bool :=
  (code lo <=? code c) && (code c <=? code hi).

(** [swapBigEndianToHost]: the portable branch, which is what
    [_byteswap_ulong] and [__builtin_bswap32] compute as well. *)
Definition swapBigEndianToHost (v : Z) : Z :=
  Z.lor (Z.lor (Z.lor
    (Z.shiftr (Z.land v 0xFF000000) 24)
    (Z.shiftr (Z.land v 0x00FF0000) 8))
    (wrap32 (Z.shiftl (Z.land v 0x0000FF00) 8)))
    (wrap32 (Z.shiftl (Z.land v 0x000000FF) 24)).

(** The value a character contributes in the loop of
    [parseHexAsFloatLittleEndian]; [None] is the final [else throw]. *)
Definition hexDigitValue (c : ascii) : option Z :=
  if inRange "0"%char "9"%char c then Some (code c - code "0"%char)
  else if inRange "A"%char "F"%char c then Some (code c - code "A"%char + 10)
  else if inRange "a"%char "f"%char c then Some (code c - code "a"%char + 10)
  else None.

(** [val <<= 4; val |= d;] on a [uint32_t]. *)
Definition hexAcc (val d : Z) : Z := Z.lor (wrap32 (Z.shiftl val 4)) d.

(** [for (char c : hex8) { val <<= 4; val |= digit(c); }] *)
Fixpoint hexLoop (s : string) (val : Z) : result Z :=
  match s with
  | EmptyString => Ok val
  | String c rest =>
      match hexDigitValue c with
      | Some d => hexLoop rest (hexAcc val d)
      | None => Throw HexBadChar
      end
  end.

(** The first half of [parseHexAsFloatLittleEndian]: the 32-bit word read
    from the text, before the byte swap. *)
Definition parseHexWord (hex8 : string) : result Z :=
  if (Z.of_nat (String.length hex8) <? 8) then Throw HexTooShort
  else hexLoop hex8 0.

(** [snprintf(buf, sizeof buf, "%08X", v)] for a [uint32_t] [v]. *)
Definition hexChar (d : Z) : ascii :=
  if d <? 10 then charOf (code "0"%char + d) else charOf (code "A"%char + (d - 10)).

Definition nibble (v : Z) (i : Z) : Z := Z.land (Z.shiftr v (4 * i)) 0xF.

Definition hex8 (v : Z) : string :=
  string_of_list_ascii (map (fun i => hexChar (nibble v i)) [7; 6; 5; 4; 3; 2; 1; 0]).

(** ** IEEE-754 values *)

Module F32.
Definition prec : Z := 24.
Definition emax : Z := 128.
End F32.

Module F64.
Definition prec : Z := 53.
Definition emax : Z := 1024.
End F64.

(** [std::memcpy(&f, &val, sizeof(float))]: the binary32 value whose bit
    pattern is the word [w] (sign bit 31, biased exponent bits 30..23,
    fraction bits 22..0). *)
Definition float_of_bits (w : Z) : spec_float :=
  let s := Z.testbit w 31 in
  let e := Z.land (Z.shiftr w 23) 0xFF in
  let m := Z.land w 0x7FFFFF in
  if e =? 0 then
    match m with
    | Zpos p => S754_finite s p (-149)
    | _ => S754_zero s
    end
  else if e =? 255 then
    if m =? 0 then S754_infinity s else S754_nan
  else
    match m + 2 ^ 23 with
    | Zpos p => S754_finite s p (e - 150)
    | _ => S754_nan
    end.

(** The usual arithmetic conversion [float -> double] (exact) and the
    conversion [static_cast<float>(double)] (round to nearest even). *)
Definition to_double (x : spec_float) : spec_float :=
  match x with
  | S754_finite s m e => binary_round F64.prec F64.emax s m e
  | _ => x
  end.

Definition to_float (x : spec_float) : spec_float :=
  match x with
  | S754_finite s m e => binary_round F32.prec F32.emax s m e
  | _ => x
  end.

(** The [double] literal [100.0]. *)
Definition d100 : spec_float := binary_normalize F64.prec F64.emax 100 0 false.

(** The integer part and the doubled remainder test of [std::round]:
    the integer nearest to [m * 2^e], halfway cases away from zero. *)
Definition roundAwayZ (m : positive) (e : Z) : Z :=
  if 0 <=? e then Zpos m * 2 ^ e
  else
    let q := Zpos m / 2 ^ (- e) in
    let r := Zpos m mod 2 ^ (- e) in
    if 2 ^ (- e) <=? 2 * r then q + 1 else q.

(** [std::round] on a [double]: infinities, NaN and zeros are returned as
    they are, a value without fractional bits too; the sign is kept when
    the magnitude rounds to zero. *)
Definition SFround (x : spec_float) : spec_float :=
  match x with
  | S754_finite s m e =>
      if 0 <=? e then x
      else binary_normalize F64.prec F64.emax (cond_Zopp s (roundAwayZ m e)) 0 s
  | _ => x
  end.

(** [double temp = std::round(f * 100.0) / 100.0; return static_cast<float>(temp);] *)
Definition round2 (f : spec_float) : spec_float :=
  let prod := SFmul F64.prec F64.emax (to_double f) d100 in
  let temp := SFdiv F64.prec F64.emax (SFround prod) d100 in
  to_float temp.

(** The mantissa of [100.0]: [100 * 2 ^ 46]. *)
Definition M100 : positive := 7036874417766400.

(** The state of a right shift: [Loc A B mrs] says that the record holds
    the quotient of [A] by [B] and where the remainder lies with respect
    to the half of [B] (round bit and sticky bit). *)
Definition Loc (A B : Z) (mrs : shr_record) : Prop :=
  shr_m mrs = A / B
  /\ shr_r mrs = (B <=? 2 * (A mod B))
  /\ shr_s mrs = negb (A mod B =? 0) && negb (2 * (A mod B) =? B).

(** [parseHexAsFloatLittleEndian] *)
Definition parseHexAsFloatLittleEndian (hex8 : string) : result spec_float :=
  val <- parseHexWord hex8 ;;
  let val := swapBigEndianToHost val in
  let f := float_of_bits val in
  Ok (round2 f).

(** ** Records and the timestamp decoder *)

(** [struct Record] of [parsebin.h]. *)
Record Rec : Type := mkRec {
  year : Z;
  month : Z;
  day : Z;
  hour : Z;
  minute : Z;
  second : Z;
  dateStr : string;
  timeStr : string;
  floatValues : list spec_float
}.

(** [oss << n] for an [int]: the decimal digits, with a leading minus sign
    for a negative value. *)
Definition showInt (n : Z) : string := NilZero.string_of_int (Z.to_int n).

Fixpoint replicate (n : nat) (c : ascii) : string :=
  match n with
  | O => EmptyString
  | S n' => String c (replicate n' c)
  end.

(** [oss << std::setw(w) << std::setfill(fill) << n]: the text of [n],
    filled on the left up to the width [w]. *)
Definition showIntW (w : nat) (fill : ascii) (n : Z) : string :=
  let s := showInt n in
  (replicate (w - String.length s) fill ++ s)%string.

(** [s[pos]] on a [std::string]; the callers check the size first. *)
Definition charAt (s : string) (pos : nat) : ascii :=
  match String.get pos s with
  | Some c => c
  | None => Ascii.zero
  end.

(** The lambda [decToInt] of [parseDateTimeFromTwoHex]. *)
Definition decToInt (s : string) (pos : nat) : result Z :=
  let c1 := charAt s pos in
  let c2 := charAt s (pos + 1) in
  if negb (inRange "0" "9" c1) || negb (inRange "0" "9" c2)
  then Throw NotDecimalDigit
  else Ok ((code c1 - code "0"%char) * 10 + (code c2 - code "0"%char)).

Definition check (ok : bool) (e : exn) : result unit :=
  if ok then Ok tt else Throw e.

Definition formatDate (y MM DD : Z) : string :=
  (showInt y ++ "/" ++ showIntW 2 "0" MM ++ "/" ++ showIntW 2 "0" DD)%string.

Definition formatTime (hh mm ss : Z) : string :=
  (showIntW 2 "0" hh ++ ":" ++ showIntW 2 "0" mm ++ ":" ++ showIntW 2 "0" ss)%string.

(** [parseDateTimeFromTwoHex]; the record it returns has no float value
    yet. *)
Definition parseDateTimeFromTwoHex (hex1 hex2 : string) : result Rec :=
  if (String.length hex1 <? 8)%nat || (String.length hex2 <? 8)%nat
  then Throw TimeFieldTooShort
  else
    YY <- decToInt hex1 0 ;;
    MM <- decToInt hex1 2 ;;
    DD <- decToInt hex1 4 ;;
    hh <- decToInt hex1 6 ;;
    mm <- decToInt hex2 0 ;;
    ss <- decToInt hex2 2 ;;
    let y := 2000 + YY in
    _ <- check (negb ((y <? 2000) || (2100 <? y))) YearOutOfRange ;;
    _ <- check (negb ((MM <? 1) || (12 <? MM))) MonthInvalid ;;
    _ <- check (negb ((DD <? 1) || (31 <? DD))) DayInvalid ;;
    _ <- check (negb ((hh <? 0) || (23 <? hh))) HourInvalid ;;
    _ <- check (negb ((mm <? 0) || (59 <? mm))) MinuteInvalid ;;
    _ <- check (negb ((ss <? 0) || (59 <? ss))) SecondInvalid ;;
    Ok (mkRec y MM DD hh mm ss (formatDate y MM DD) (formatTime hh mm ss) []).

(** ** Files *)

(** A stream opened on a regular file: the bytes of the file and the file
    position indicator. *)
Record FILE : Type := mkFILE {
  contents : list byte;
  position : nat
}.

(** A file system maps a path to the bytes of the file, when there is one
    that can be opened for reading. *)
Definition filesystem : Type := string -> option (list byte).

(** [std::fopen(name, "rb")]; [None] is the null pointer. *)
Definition fopen (fs : filesystem) (name : string) : option FILE :=
  match fs name with
  | Some data => Some (mkFILE data 0)
  | None => None
  end.

(** [std::fseek(fp, offset, SEEK_SET)] on a regular file: the position
    indicator is set to [offset], also when that lies beyond the end of the
    data (ISO C 7.21.9.2, POSIX fseek); only a negative offset is refused.
    Returns the status and the stream. *)
Definition fseek (fp : FILE) (offset : Z) : Z * FILE :=
  if offset <? 0 then (-1, fp)
  else (0, mkFILE (contents fp) (Z.to_nat offset)).

(** [std::fread(buffer, 1, n, fp)]: the bytes read, at most [n] and as many
    as the file still has after the position indicator, and the stream
    advanced past them.  The count returned by [fread] is the length of
    the list. *)
Definition fread (n : nat) (fp : FILE) : list byte * FILE :=
  let got := firstn n (skipn (position fp) (contents fp)) in
  (got, mkFILE (contents fp) (position fp + List.length got)).

Definition remaining (fp : FILE) : nat := List.length (contents fp) - position fp.

(** ** The decoder *)

(** [buffer[k]] as a [uint32_t]. *)
Definition byteAt (buffer : list byte) (k : nat) : Z :=
  Z.of_N (Byte.to_N (nth k buffer x00)).

(** The big-endian word at [offset]:
    [val |= buffer[offset+0] << 24; ... val |= buffer[offset+3];] *)
Definition wordAt (buffer : list byte) (offset : nat) : Z :=
  Z.lor (Z.lor (Z.lor (Z.lor 0
    (wrap32 (Z.shiftl (byteAt buffer (offset + 0)) 24)))
    (wrap32 (Z.shiftl (byteAt buffer (offset + 1)) 16)))
    (wrap32 (Z.shiftl (byteAt buffer (offset + 2)) 8)))
    (byteAt buffer (offset + 3)).

(** [for (i = 0; i < intCount; ++i) values.push_back(word at i*4)] *)
Definition wordsOf (intCount : nat) (buffer : list byte) : list Z :=
  map (fun i => wordAt buffer (i * 4)) (seq 0 intCount).

(** [fvals]: the loop [for (idx = 2; ...) fvals.push_back(parseHex...)],
    left at the first exception. *)
Fixpoint parseFloats (l : list string) : result (list spec_float) :=
  match l with
  | [] => Ok []
  | h :: t =>
      fv <- parseHexAsFloatLittleEndian h ;;
      fvals <- parseFloats t ;;
      Ok (fv :: fvals)
  end.

Definition setFloatValues (r : Rec) (fvals : list spec_float) : Rec :=
  mkRec (year r) (month r) (day r) (hour r) (minute r) (second r)
        (dateStr r) (timeStr r) fvals.

(** The body of the group loop of [parseBinFile], from the 16 strings of
    the group to the rows after it; [Ok rows] unchanged is a [continue]. *)
Definition groupBody (group16 : list string) (rows : list Rec) : result (list Rec) :=
  let group := tl group16 in
  if (List.length group <? 2)%nat then Ok rows
  else
    match parseDateTimeFromTwoHex (nth 0 group "") (nth 1 group "") with
    | Throw _ => Ok rows
    | Ok rec =>
        if (List.length group <? 15)%nat then Ok rows
        else
          fvals <- parseFloats (skipn 2 group) ;;
          Ok (rows ++ [setFloatValues rec fvals])
    end.

(** The same loops with a body that only notes the group it is given:
    the groups the decoder visits. *)
Definition traceBody (group16 : list string) (seen : list (list string))
  : result (list (list string)) :=
  Ok (seen ++ [group16]).

Section Loops.
Context {St : Type}.
Variable body : list string -> St -> result St.

(** [for (i = 0; i + 16 <= hexVals.size(); i += 16) { group = hexVals[i, i+16); body }] *)
Equations? groupLoop (hexVals : list string) (i : nat) (st : St) : result St
  by wf (List.length hexVals - i)%nat lt :=
  groupLoop hexVals i st with le_lt_dec (i + 16) (List.length hexVals) => {
    | left _ with body (firstn 16 (skipn i hexVals)) st => {
        | Ok st' := groupLoop hexVals (i + 16) st';
        | Throw e := Throw e };
    | right _ := Ok st }.
Proof. lia. Qed.

Definition blockSize (firstRead : bool) : nat := if firstRead then 132 else 128.
Definition intCount (firstRead : bool) : nat := if firstRead then 33 else 32.

(** One pass of the [while] body after a full read: words, the first
    word of the first block dropped, hex strings, groups. *)
Definition processBlock (firstRead : bool) (buffer : list byte) (st : St) : result St :=
  let values := wordsOf (intCount firstRead) buffer in
  let mainVals := if firstRead then skipn 1 values else values in
  let hexVals := map hex8 mainVals in
  groupLoop hexVals 0 st.

(** [while (true) { fread; if (readCount < blockSize) break; ... }] *)
Equations? readLoop (fp : FILE) (firstRead : bool) (st : St) : result St
  by wf (remaining fp) lt :=
  readLoop fp firstRead st with
      le_lt_dec (blockSize firstRead)
                (List.length (fst (fread (blockSize firstRead) fp))) => {
    | right _ := Ok st;
    | left _ with processBlock firstRead (fst (fread (blockSize firstRead) fp)) st => {
        | Ok st' := readLoop (snd (fread (blockSize firstRead) fp)) false st';
        | Throw e := Throw e } }.
Proof.
  unfold remaining, fread in *. cbn [fst snd contents position] in *.
  rewrite length_firstn, length_skipn in *.
  destruct firstRead; cbn [blockSize] in *; lia.
Qed.

(** [parseBinFile] up to the choice of the loop body. *)
Definition parseWith (fs : filesystem) (binFilename : string) (init : St) : result St :=
  match fopen fs binFilename with
  | None => Throw CannotOpen
  | Some fp =>
      let '(status, fp) := fseek fp 0xC0 in
      if negb (status =? 0) then Throw SeekFailed
      else readLoop fp true init
  end.
End Loops.

(** [parseBinFile] *)
Definition parseBinFile (fs : filesystem) (binFilename : string) : result (list Rec) :=
  parseWith groupBody fs binFilename [].

(** The 16-element groups [parseBinFile] visits, in order. *)
Definition groupsVisited (fs : filesystem) (binFilename : string)
  : result (list (list string)) :=
  parseWith traceBody fs binFilename [].

(** ** The serializer *)

(** The comparison passed to [std::sort] in [writeCsv]. *)
Definition comp (a b : Rec) : bool :=
  if negb (year a =? year b) then year a <? year b
  else if negb (month a =? month b) then month a <? month b
  else if negb (day a =? day b) then day a <? day b
  else if negb (hour a =? hour b) then hour a <? hour b
  else if negb (minute a =? minute b) then minute a <? minute b
  else second a <? second b.

(** The test of the dedup loop: [r] differs from [*last] in one of the six
    fields. *)
Definition differs (r last : Rec) : bool :=
  negb (year r =? year last) || negb (month r =? month last)
  || negb (day r =? day last) || negb (hour r =? hour last)
  || negb (minute r =? minute last) || negb (second r =? second last).

(** [for (auto &r : rows) if (!last || r differs from *last) { push; last = &back; }] *)
Fixpoint dedupLoop (rows uniqueRows : list Rec) (last : option Rec) : list Rec :=
  match rows with
  | [] => uniqueRows
  | r :: rest =>
      match last with
      | Some l =>
          if differs r l then dedupLoop rest (uniqueRows ++ [r]) (Some r)
          else dedupLoop rest uniqueRows last
      | None => dedupLoop rest (uniqueRows ++ [r]) (Some r)
      end
  end.

Fixpoint setNth {A} (n : nat) (a : A) (l : list A) : list A :=
  match l, n with
  | [], _ => []
  | _ :: t, O => a :: t
  | h :: t, S n' => h :: setNth n' a t
  end.

(** [std::swap(v[i], v[j])] with both indices in range. *)
Definition swapAt {A} (i j : nat) (v : list A) : list A :=
  match nth_error v i, nth_error v j with
  | Some a, Some b => setNth j a (setNth i b v)
  | _, _ => v
  end.

(** [if (r.floatValues.size() == 13) std::swap(r.floatValues[11], r.floatValues[12]);] *)
Definition swapLastTwo (r : Rec) : Rec :=
  if (List.length (floatValues r) =? 13)%nat
  then setFloatValues r (swapAt 11 12 (floatValues r))
  else r.

(** The header line. *)
Definition header : string :=
  "日期,时间,压力设定/mbar,实际压力/mbar,设定温度/℃,实际温度/℃,设定功率/KW,实际功率/KW,加热电阻/mΩ,加热电压/V,加热电流/A,毫托计/Pa,氩气流量/SLM,温升/℃/min,氟利昂流量/SLM
".

Section Serializer.
(** [oss << f] for a [float]: the text the stream's default formatting
    gives the value. *)
Variable showFloat : spec_float -> string.

(** [std::sort(first, last, comp)]: some rearrangement of the range in
    which no element is before one it is less than. *)
Variable sort : list Rec -> list Rec.
Hypothesis sort_permutation : forall l, Permutation (sort l) l.
Hypothesis sort_sorted :
  forall l, StronglySorted (fun a b => comp b a = false) (sort l).

(** [for (i = 0; i < size; ++i) { oss << v[i]; if (i + 1 < size) oss << ","; }] *)
Fixpoint showFloats (v : list spec_float) : string :=
  match v with
  | [] => ""
  | [f] => showFloat f
  | f :: rest => (showFloat f ++ "," ++ showFloats rest)%string
  end.

(** One data line. *)
Definition renderRow (r : Rec) : string :=
  (dateStr r ++ "," ++ timeStr r ++ "," ++ showFloats (floatValues r) ++ "
")%string.

(** [uniqueRows] after the sort and the dedup loop. *)
Definition uniqueRowsOf (rowsIn : list Rec) : list Rec :=
  dedupLoop (sort rowsIn) [] None.

(** The records behind the data lines, in the order written: the unique
    rows, each after the swap of its last two values. *)
Definition dataRows (rowsIn : list Rec) : list Rec :=
  map swapLastTwo (uniqueRowsOf rowsIn).

(** [writeCsv], the branch compiled without [_WIN32]: the text written
    to the file; [canCreate] says whether [fopen(csvFilename, "w")]
    succeeds.  (The other branch sorts, deduplicates and swaps in the same
    way and writes the same lines transcoded to the ANSI code page.) *)
Definition writeCsv (canCreate : bool) (rowsIn : list Rec) : result string :=
  if negb canCreate then Throw CannotCreate
  else Ok (header ++ String.concat "" (map renderRow (dataRows rowsIn)))%string.
End Serializer.

(** ** The layout and the properties in the words of the specification

    The definitions of this part do not come from [parsebin.cpp]: they say
    what the specification says, for the theorems that compare the two. *)

Module Spec.

(** The consecutive full chunks of [n] elements; a shorter tail is left
    out. *)
Fixpoint chunksFuel {A} (fuel n : nat) (l : list A) : list (list A) :=
  match fuel with
  | O => []
  | S fuel' =>
      if (n <=? List.length l)%nat
      then firstn n l :: chunksFuel fuel' n (skipn n l)
      else []
  end.

Definition fullChunks {A} (n : nat) (l : list A) : list (list A) :=
  chunksFuel (List.length l) n l.

(** Four bytes, most significant first, as an unsigned number. *)
Definition beWord (b0 b1 b2 b3 : byte) : Z :=
  Z.of_N (Byte.to_N b0) * 2 ^ 24 + Z.of_N (Byte.to_N b1) * 2 ^ 16
  + Z.of_N (Byte.to_N b2) * 2 ^ 8 + Z.of_N (Byte.to_N b3).

Fixpoint beWords (l : list byte) : list Z :=
  match l with
  | b0 :: b1 :: b2 :: b3 :: rest => beWord b0 b1 b2 b3 :: beWords rest
  | _ => []
  end.

(** The blocks of a file: after the 192 bytes of the preamble one block
    of 132 bytes, then blocks of 128 bytes, as long as they are full. *)
Definition blocks (data : list byte) : list (list byte) :=
  let payload := skipn 192 data in
  if (132 <=? List.length payload)%nat
  then firstn 132 payload :: fullChunks 128 (skipn 132 payload)
  else [].

(** All kept words of the file: the words of all blocks, one after the
    other, without word 0 of the first block. *)
Definition keptWords (data : list byte) : list Z :=
  skipn 1 (List.concat (map beWords (blocks data))).

(** The kept words of what is left of a file when the next block is
    the first one or a later one. *)
Definition keptFrom (firstRead : bool) (payload : list byte) : list Z :=
  if firstRead
  then skipn 1 (List.concat (map beWords
         (if (132 <=? List.length payload)%nat
          then firstn 132 payload :: fullChunks 128 (skipn 132 payload)
          else [])))
  else List.concat (map beWords (fullChunks 128 payload)).

(** The groups of 16 over the whole file. *)
Definition groups (data : list byte) : list (list string) :=
  fullChunks 16 (map hex8 (keptWords data)).

(** The strings [%08X] gives for the 32-bit words. *)
Definition rendered (s : string) : Prop :=
  exists v, 0 <= v < 2 ^ 32 /\ s = hex8 v.

(** Every group handled in turn, an exception ending the run. *)
Fixpoint foldGroups {St} (body : list string -> St -> result St)
         (gs : list (list string)) (st : St) : result St :=
  match gs with
  | [] => Ok st
  | g :: rest => st' <- body g st ;; foldGroups body rest st'
  end.

(** Decoding over the concatenation of the whole file. *)
Definition decode (data : list byte) : result (list Rec) :=
  foldGroups groupBody (groups data) [].

Definition digitChar (d : Z) : ascii := charOf (48 + d).

(** "YYYY/MM/DD" and "hh:mm:ss", every field zero-padded. *)
Definition two (n : Z) : string :=
  String (digitChar (n / 10 mod 10)) (String (digitChar (n mod 10)) "").

Definition four (n : Z) : string :=
  (two (n / 100) ++ two (n mod 100))%string.

Definition date (y m d : Z) : string := (four y ++ "/" ++ two m ++ "/" ++ two d)%string.
Definition time (h m s : Z) : string := (two h ++ ":" ++ two m ++ ":" ++ two s)%string.

(** Reading the numbers back from the formatted texts. *)
Definition digitOf (c : ascii) : option Z :=
  if inRange "0" "9" c then Some (code c - 48) else None.

Fixpoint number (s : string) (acc : Z) : option Z :=
  match s with
  | EmptyString => Some acc
  | String c rest =>
      match digitOf c with
      | Some d => number rest (acc * 10 + d)
      | None => None
      end
  end.

Definition field (s : string) (start len : nat) : option Z :=
  if (start + len <=? String.length s)%nat
  then number (substring start len s) 0 else None.

Definition parseDate (s : string) : option (Z * Z * Z) :=
  if negb ((String.length s =? 10)%nat
           && Ascii.eqb (charAt s 4) "/" && Ascii.eqb (charAt s 7) "/")
  then None
  else
    match field s 0 4, field s 5 2, field s 8 2 with
    | Some y, Some m, Some d => Some (y, m, d)
    | _, _, _ => None
    end.

Definition parseTime (s : string) : option (Z * Z * Z) :=
  if negb ((String.length s =? 8)%nat
           && Ascii.eqb (charAt s 2) ":" && Ascii.eqb (charAt s 5) ":")
  then None
  else
    match field s 0 2, field s 3 2, field s 6 2 with
    | Some h, Some m, Some sec => Some (h, m, sec)
    | _, _, _ => None
    end.

(** The construction invariant of a record. *)
Definition validRecord (r : Rec) : Prop :=
  2000 <= year r <= 2100 /\ 1 <= month r <= 12 /\ 1 <= day r <= 31
  /\ 0 <= hour r <= 23 /\ 0 <= minute r <= 59 /\ 0 <= second r <= 59
  /\ List.length (floatValues r) = 13%nat
  /\ dateStr r = date (year r) (month r) (day r)
  /\ timeStr r = time (hour r) (minute r) (second r).

(** The timestamp of a record and its order. *)
Definition stamp (r : Rec) : Z * Z * Z * Z * Z * Z :=
  (year r, month r, day r, hour r, minute r, second r).

Definition lexLt (a b : Z * Z * Z * Z * Z * Z) : Prop :=
  let '(y1, mo1, d1, h1, mi1, s1) := a in
  let '(y2, mo2, d2, h2, mi2, s2) := b in
  y1 < y2 \/ y1 = y2 /\
  (mo1 < mo2 \/ mo1 = mo2 /\
  (d1 < d2 \/ d1 = d2 /\
  (h1 < h2 \/ h1 = h2 /\
  (mi1 < mi2 \/ mi1 = mi2 /\ s1 < s2)))).

Definition lexLe (a b : Z * Z * Z * Z * Z * Z) : Prop := lexLt a b \/ a = b.

(** Equality of two timestamps, field by field, as a test. *)
Definition stampEqb (a b : Z * Z * Z * Z * Z * Z) : bool :=
  let '(y1, mo1, d1, h1, mi1, s1) := a in
  let '(y2, mo2, d2, h2, mi2, s2) := b in
  (y1 =? y2) && (mo1 =? mo2) && (d1 =? d2)
  && (h1 =? h2) && (mi1 =? mi2) && (s1 =? s2).

(** Two records of the same timestamp: their 6-tuples are equal. *)
Definition sameStamp (a b : Rec) : bool := stampEqb (stamp a) (stamp b).

(** Rows in non-decreasing and in strictly increasing order of their
    timestamps. *)
Definition nondecreasing : list Rec -> Prop :=
  StronglySorted (fun a b => lexLe (stamp a) (stamp b)).

Definition increasing : list Rec -> Prop :=
  StronglySorted (fun a b => lexLt (stamp a) (stamp b)).

(** The value columns of a row. *)
Definition valueColumns (showFloat : spec_float -> string) (r : Rec) : list string :=
  map showFloat (floatValues r).

(** The values in the order of the columns of the header: of exactly 13
    values the last two change places, any other list stays as it is. *)
Definition swapped (v : list spec_float) : list spec_float :=
  match v with
  | [f0; f1; f2; f3; f4; f5; f6; f7; f8; f9; f10; f11; f12] =>
      [f0; f1; f2; f3; f4; f5; f6; f7; f8; f9; f10; f12; f11]
  | _ => v
  end.

(** The line of a record: the date, the time and the texts of the values
    in the order of the columns, separated by commas and ended by a line
    feed. *)
Definition lineOf (showFloat : spec_float -> string) (r : Rec) : string :=
  (dateStr r ++ "," ++ timeStr r ++ ","
   ++ String.concat "," (map showFloat (swapped (floatValues r))) ++ "
")%string.

(** The number with the eight base-16 digits [d7 .. d0]. *)
Definition ofDigits (d7 d6 d5 d4 d3 d2 d1 d0 : Z) : Z :=
  16 * (16 * (16 * (16 * (16 * (16 * (16 * d7 + d6) + d5) + d4) + d3) + d2) + d1) + d0.

(** The integer nearest to [100 * m * 2 ^ e], a half going up: the
    magnitude of [round(original * 100)] for the magnitude [m * 2 ^ e]
    (with the sign apart, a half goes away from zero). *)
Definition round100 (m : positive) (e : Z) : Z :=
  (2 * (100 * Zpos m * 2 ^ Z.max e 0) + 2 ^ Z.max (- e) 0) / (2 * 2 ^ Z.max (- e) 0).

(** [m' * 2 ^ e'] is [n / 100] within the float epsilon [2 ^ -23],
    relatively: [|100 * m' * 2 ^ e' - n| <= 2 ^ -23 * n], written on
    integers (both sides times [2 ^ 23] and, when [e'] is negative, times
    [2 ^ - e']). *)
Definition withinEps (m' : positive) (e' : Z) (n : Z) : Prop :=
  2 ^ 23 * Z.abs (100 * Zpos m' * 2 ^ Z.max e' 0 - n * 2 ^ Z.max (- e') 0)
  <= n * 2 ^ Z.max (- e') 0.

(** [stored] is [original] rounded to two decimal places: NaN, the
    infinities and the zeros as they are; a finite value with the sign
    kept and the magnitude [n / 100], for [n] the nearest integer of 100
    times the magnitude, as a normal float within the float epsilon (a
    signed zero when [n] is 0). *)
Definition roundedToCents (original stored : spec_float) : Prop :=
  match original with
  | S754_nan => stored = S754_nan
  | S754_infinity s => stored = S754_infinity s
  | S754_zero s => stored = S754_zero s
  | S754_finite s m e =>
      let n := round100 m e in
      if n =? 0 then stored = S754_zero s
      else exists m' e',
          stored = S754_finite s m' e'
          /\ 2 ^ 23 <= Zpos m' < 2 ^ 24 /\ -149 <= e' <= 104
          /\ withinEps m' e' n
  end.

(** A hex letter in upper case, any other character as it is. *)
Definition upper (c : ascii) : ascii :=
  if inRange "a" "f" c then charOf (code c - 32) else c.

Fixpoint upperString (s : string) : string :=
  match s with
  | EmptyString => EmptyString
  | String c rest => String (upper c) (upperString rest)
  end.

End Spec.

(** ** Sample inputs *)

(** The file system in which every path leads to the same bytes. *)
Definition fileOf (data : list byte) : filesystem := fun _ => Some data.

Definition zeros (n : nat) : list byte := repeat x00 n.

(** The bytes of a big-endian word. *)
Definition wordBytes (w : Z) : list byte :=
  map (fun k => match Byte.of_N (Z.to_N (Z.land (Z.shiftr w (8 * k)) 0xFF)) with
                | Some b => b
                | None => x00
                end) [3; 2; 1; 0].

(** One frame: the marker, the two timestamp words and 13 values. *)
Definition frame (marker stamp1 stamp2 : Z) (values : list Z) : list byte :=
  List.concat (map wordBytes (marker :: stamp1 :: stamp2 :: values)).

(** A file of a preamble, a first block of 132 bytes, a second block of
    128 bytes and 100 bytes that do not fill a third one.  The second
    frame has a hex letter in its hour, the third a frame of 2025-01-10
    again. *)
Definition sampleFile : list byte :=
  zeros 192 ++ wordBytes 0xDEADBEEF
  ++ frame 0xAAAAAAAA 0x25011013 0x30450000
       [0x0000003E; 0x0000803F; 0xC3F54840; 0; 0; 0; 0; 0; 0; 0; 0;
        0x0000C03F; 0x00002040]
  ++ frame 0xAAAAAAAA 0x2501101A 0x30450000
       [0x0000003E; 0; 0; 0; 0; 0; 0; 0; 0; 0; 0; 0; 0]
  ++ frame 0xAAAAAAAA 0x25011009 0x05590000
       [0x000000BE; 0; 0; 0; 0; 0; 0; 0; 0; 0; 0; 0; 0]
  ++ frame 0xAAAAAAAA 0x25011013 0x30450000
       [0x0000807F; 0; 0; 0; 0; 0; 0; 0; 0; 0; 0; 0; 0]
  ++ zeros 100.

(** The records decoded from the sample file. *)
Definition sampleRows : list Rec :=
  Eval vm_compute in
    match parseBinFile (fileOf sampleFile) "a.bin" with
    | Ok rows => rows
    | Throw _ => []
    end.

(** Groups of 16 strings: a well-formed one, one with a hex letter in the
    hour, one with a character that is no hex digit in a value. *)
Definition goodGroup : list string :=
  ["AAAAAAAA"; "25011013"; "30450000"; "0000003E"; "0000803F"; "C3F54840";
   "00000000"; "00000000"; "00000000"; "00000000"; "00000000"; "00000000";
   "00000000"; "00000000"; "0000C03F"; "00002040"].

Definition badStampGroup : list string :=
  ["AAAAAAAA"; "2501101A"; "30450000"; "0000003E"; "0000803F"; "C3F54840";
   "00000000"; "00000000"; "00000000"; "00000000"; "00000000"; "00000000";
   "00000000"; "00000000"; "0000C03F"; "00002040"].

Definition badFloatGroup : list string :=
  ["AAAAAAAA"; "25011013"; "30450000"; "0000003E"; "0000803F"; "C3F54840";
   "0000803G"; "00000000"; "00000000"; "00000000"; "00000000"; "00000000";
   "00000000"; "00000000"; "0000C03F"; "00002040"].

(** ** An instance of [std::sort] *)

(** Insertion sort under [comp]; any sort may stand for [std::sort], this
    one serves to run [writeCsv] on examples. *)
Fixpoint insertSorted (r : Rec) (l : list Rec) : list Rec :=
  match l with
  | [] => [r]
  | h :: t => if comp h r then h :: insertSorted r t else r :: h :: t
  end.

Fixpoint insertionSort (l : list Rec) : list Rec :=
  match l with
  | [] => []
  | h :: t => insertSorted h (insertionSort t)
  end.

(** ** Notions used to state further properties of the decoder *)

(** A character the loop of [parseHexAsFloatLittleEndian] takes as a
    digit. *)
Definition isHexChar (c : ascii) : bool :=
  match hexDigitValue c with Some _ => true | None => false end.

Fixpoint allHex (s : string) : bool :=
  match s with
  | EmptyString => true
  | String c rest => isHexChar c && allHex rest
  end.

(** ** The layout of a file, read off the decoder

    What [parseBinFile] makes of the bytes, said without the loops, the
    texts and the exceptions: the theorems on the layout prove that the
    decoder computes this. *)

Module Layout.

(** The frames: the two halves of 64 bytes of every full block of 128
    bytes after the first 196 bytes of the file. *)
Definition frames (data : list byte) : list (list byte) :=
  flat_map (Spec.fullChunks 64) (Spec.fullChunks 128 (skipn 196 data)).

(** A byte as a packed decimal: the two digits of its high and low half,
    when both are digits. *)
Definition bcdValue (b : byte) : option Z :=
  let n := Z.of_N (Byte.to_N b) in
  if (n / 16 <=? 9) && (n mod 16 <=? 9) then Some (n / 16 * 10 + n mod 16)
  else None.

(** The value held by four bytes, least significant first, rounded to two
    decimals as the decoder does. *)
Definition leFloat (b0 b1 b2 b3 : byte) : spec_float :=
  round2 (float_of_bits (Spec.beWord b3 b2 b1 b0)).

Fixpoint leFloats (l : list byte) : list spec_float :=
  match l with
  | b0 :: b1 :: b2 :: b3 :: rest => leFloat b0 b1 b2 b3 :: leFloats rest
  | _ => []
  end.

(** The record of a frame: 4 bytes that are not looked at, six packed
    decimals (year, month, day, hour, minute, second), 2 bytes that are
    not looked at, and the values; no record when a timestamp byte is no
    packed decimal or a field is out of range. *)
Definition frameRecord (f : list byte) : option Rec :=
  match skipn 4 f with
  | bY :: bM :: bD :: bh :: bm :: bs :: _ :: _ :: vals =>
      match bcdValue bY, bcdValue bM, bcdValue bD,
            bcdValue bh, bcdValue bm, bcdValue bs with
      | Some YY, Some MM, Some DD, Some hh, Some mm, Some ss =>
          if (1 <=? MM) && (MM <=? 12) && (1 <=? DD) && (DD <=? 31)
             && (hh <=? 23) && (mm <=? 59) && (ss <=? 59)
          then Some (mkRec (2000 + YY) MM DD hh mm ss
                           (Spec.date (2000 + YY) MM DD) (Spec.time hh mm ss)
                           (leFloats vals))
          else None
      | _, _, _, _, _, _ => None
      end
  | _ => None
  end.

Definition frameRecords (f : list byte) : list Rec :=
  match frameRecord f with
  | Some r => [r]
  | None => []
  end.

(** The records of a file: those of its frames, in the order of the
    file. *)
Definition records (data : list byte) : list Rec :=
  flat_map frameRecords (frames data).

End Layout.

(** ** The window: [MainWindow::onParse] of [mainwindow.cpp]

    Conventions: a [QString] holding a path is the text [toStdString]
    gives for it (UTF-8, in which ['.'] is one byte and no part of another
    character, so that [lastIndexOf] and [left] cut at the same place); a
    path names a file by its text; a message box is the [message] it
    shows; the list widget and the radio button are the arguments
    [binPaths] and [mergeToOne], the answer of the save dialog is
    [outFilename] (empty when the user cancels). *)

Module MainWindow.

(** [s.lastIndexOf(c)]: the position of the last [c] in [s], -1 when
    there is none. *)
Fixpoint lastIndexOf (c : ascii) (s : string) : Z :=
  match s with
  | EmptyString => -1
  | String a rest =>
      let r := lastIndexOf c rest in
      if 0 <=? r then r + 1 else if Ascii.eqb a c then 0 else -1
  end.

(** [s.left(n)]: the [n] leftmost characters, the entire string when [n]
    is negative or not less than the size. *)
Definition left (n : Z) (s : string) : string :=
  if n <? 0 then s else substring 0 (Z.to_nat n) s.

(** The path of the CSV written beside a [.bin] file in the separate
    mode:
    [csvPath = binPath; dotPos = csvPath.lastIndexOf('.');
     if (dotPos > 0) csvPath = csvPath.left(dotPos) + ".csv"; else csvPath += ".csv";] *)
Definition csvPathOf (binPath : string) : string :=
  let csvPath := binPath in
  let dotPos := lastIndexOf "." csvPath in
  if 0 <? dotPos then (left dotPos csvPath ++ ".csv")%string
  else (csvPath ++ ".csv")%string.

(** The message boxes of [onParse]. *)
Inductive message : Type :=
| NothingSelected
| ParseFailed (binPath : string) (e : exn)
| WriteFailed (e : exn)
| MergedWritten (outFilename : string)
| SeparateWritten (successList : list string).

(** The file system after a file has been written. *)
Definition writeFile (fs : filesystem) (name text : string) : filesystem :=
  fun p => if String.eqb p name then Some (list_byte_of_string text) else fs p.

(** Whether a character occurs in a text. *)
Fixpoint hasChar (c : ascii) (s : string) : bool :=
  match s with
  | EmptyString => false
  | String a rest => Ascii.eqb a c || hasChar c rest
  end.

Section Window.
Variable showFloat : spec_float -> string.
Variable sort : list Rec -> list Rec.
(** Whether [fopen(name, "w")] succeeds. *)
Variable canCreate : string -> bool.

(** [writeCsv(csvFilename, rowsIn)] as a step on the file system. *)
Definition writeCsvFile (fs : filesystem) (csvFilename : string) (rowsIn : list Rec)
  : result filesystem :=
  text <- writeCsv showFloat sort (canCreate csvFilename) rowsIn ;;
  Ok (writeFile fs csvFilename text).

(** The loop of the merge mode: the records of all files one after the
    other, left at the first file that fails with the message shown. *)
Fixpoint mergeLoop (fs : filesystem) (binPaths : list string) (mergedRecords : list Rec)
  : list Rec + message :=
  match binPaths with
  | [] => inl mergedRecords
  | binPath :: rest =>
      match parseBinFile fs binPath with
      | Ok recs => mergeLoop fs rest (mergedRecords ++ recs)
      | Throw e => inr (ParseFailed binPath e)
      end
  end.

(** The loop of the separate mode: one [try] block for each file around
    the decoding and the writing, an exception of either shown as a failure
    of that file. *)
Fixpoint separateLoop (fs : filesystem) (binPaths successList : list string)
         (shown : list message) : filesystem * list string * list message :=
  match binPaths with
  | [] => (fs, successList, shown)
  | binPath :: rest =>
      match parseBinFile fs binPath with
      | Throw e => separateLoop fs rest successList (shown ++ [ParseFailed binPath e])
      | Ok recs =>
          let csvPath := csvPathOf binPath in
          match writeCsvFile fs csvPath recs with
          | Throw e => separateLoop fs rest successList (shown ++ [ParseFailed binPath e])
          | Ok fs' => separateLoop fs' rest (successList ++ [csvPath]) shown
          end
      end
  end.

(** [onParse]: the file system afterwards and the message boxes shown. *)
Definition onParse (binPaths : list string) (mergeToOne : bool) (outFilename : string)
           (fs : filesystem) : filesystem * list message :=
  if (List.length binPaths =? 0)%nat then (fs, [NothingSelected])
  else if mergeToOne then
    if (String.length outFilename =? 0)%nat then (fs, [])
    else
      match mergeLoop fs binPaths [] with
      | inr m => (fs, [m])
      | inl mergedRecords =>
          match writeCsvFile fs outFilename mergedRecords with
          | Throw e => (fs, [WriteFailed e])
          | Ok fs' => (fs', [MergedWritten outFilename])
          end
      end
  else
    let '(fs', successList, shown) := separateLoop fs binPaths [] [] in
    (fs', if negb (List.length successList =? 0)%nat
          then shown ++ [SeparateWritten successList] else shown).

(** What the separate mode makes of one file on a given file system: the
    text of its CSV, or the exception of the decoder or the serializer. *)
Definition csvTextOf (fs : filesystem) (binPath : string) : result string :=
  recs <- parseBinFile fs binPath ;;
  writeCsv showFloat sort (canCreate (csvPathOf binPath)) recs.

End Window.
End MainWindow.

(** * Properties *)

(** ** Bits, digits and characters *)

Lemma lor_shift_add x d k :
  0 <= k -> 0 <= d < 2 ^ k -> Z.lor (x * 2 ^ k) d = x * 2 ^ k + d.
Proof.
  intros Hk Hd.
  rewrite <- Z.add_lor_land.
  assert (Z.land (x * 2 ^ k) d = 0) as ->; [|lia].
  apply Z.bits_inj'. intros n Hn.
  rewrite Z.land_spec, Z.bits_0.
  destruct (Z_lt_le_dec n k).
  - rewrite Z.mul_pow2_bits_low by lia. reflexivity.
  - assert (Z.testbit d n = false) as ->; [|apply andb_false_r].
    destruct (Z.eq_dec d 0) as [->|]; [apply Z.bits_0|].
    apply Z.bits_above_log2; [lia|].
    assert (Z.log2 d < k); [apply Z.log2_lt_pow2; lia | lia].
Qed.

(** A property checked on the 256 characters holds of every character. *)
Lemma ascii_all (P : ascii -> bool) :
  forallb P (map ascii_of_nat (seq 0 256)) = true -> forall c, P c = true.
Proof.
  intros H c. rewrite forallb_forall in H. apply H.
  rewrite <- (ascii_nat_embedding c). apply in_map, in_seq.
  pose proof (nat_ascii_bounded c). lia.
Qed.

(** A property checked on every integer of a range holds on the range. *)
Lemma range_all (P : Z -> bool) (lo : Z) (n : nat) :
  forallb P (map (fun i => lo + Z.of_nat i) (seq 0 n)) = true ->
  forall z, lo <= z < lo + Z.of_nat n -> P z = true.
Proof.
  intros H z Hz. rewrite forallb_forall in H. apply H.
  replace z with (lo + Z.of_nat (Z.to_nat (z - lo))) by lia.
  apply (in_map (fun i => lo + Z.of_nat i)), in_seq. lia.
Qed.

Lemma hexDigitValue_range c d : hexDigitValue c = Some d -> 0 <= d < 16.
Proof.
  pose proof (ascii_all (fun c => match hexDigitValue c with
                                  | Some d => (0 <=? d) && (d <? 16)
                                  | None => true
                                  end) ltac:(vm_compute; reflexivity) c) as H.
  cbv beta in H. intros E. rewrite E in H. lia.
Qed.

Lemma hexChar_upper c d : hexDigitValue c = Some d -> hexChar d = Spec.upper c.
Proof.
  pose proof (ascii_all (fun c => match hexDigitValue c with
                                  | Some d => Ascii.eqb (hexChar d) (Spec.upper c)
                                  | None => true
                                  end) ltac:(vm_compute; reflexivity) c) as H.
  cbv beta in H. intros E. rewrite E in H. now apply Ascii.eqb_eq.
Qed.

Lemma hexDigitValue_hexChar d : 0 <= d < 16 -> hexDigitValue (hexChar d) = Some d.
Proof.
  intros Hd.
  pose proof (range_all (fun d => match hexDigitValue (hexChar d) with
                                  | Some d' => d' =? d
                                  | None => false
                                  end) 0 16 ltac:(vm_compute; reflexivity) d) as H.
  cbv beta in H. specialize (H ltac:(lia)).
  destruct (hexDigitValue (hexChar d)); [f_equal; lia | discriminate].
Qed.

Lemma nibble_spec v i : 0 <= i -> nibble v i = (v / 16 ^ i) mod 16.
Proof.
  intros Hi. unfold nibble.
  change 0xF with (Z.ones 4). rewrite Z.land_ones by lia.
  rewrite Z.shiftr_div_pow2 by lia.
  replace (2 ^ (4 * i)) with (16 ^ i); [reflexivity|].
  rewrite Z.pow_mul_r by lia. reflexivity.
Qed.

Lemma hexStep v d :
  0 <= v < 2 ^ 28 -> 0 <= d < 16 -> hexAcc v d = 16 * v + d.
Proof.
  intros Hv Hd. unfold hexAcc, wrap32.
  rewrite Z.shiftl_mul_pow2 by lia.
  rewrite Z.mod_small by lia.
  rewrite lor_shift_add by (simpl; lia). lia.
Qed.

Lemma hex8_ofDigits d7 d6 d5 d4 d3 d2 d1 d0 :
  0 <= d7 < 16 -> 0 <= d6 < 16 -> 0 <= d5 < 16 -> 0 <= d4 < 16 ->
  0 <= d3 < 16 -> 0 <= d2 < 16 -> 0 <= d1 < 16 -> 0 <= d0 < 16 ->
  hex8 (Spec.ofDigits d7 d6 d5 d4 d3 d2 d1 d0) =
  string_of_list_ascii (map hexChar [d7; d6; d5; d4; d3; d2; d1; d0]).
Proof.
  intros. unfold hex8. cbn [map]. rewrite !nibble_spec by lia.
  unfold Spec.ofDigits. set (V := 16 * _ + d0).
  assert ((V / 16 ^ 7) mod 16 = d7) as ->
    by (subst V; change (16 ^ 7) with 268435456; Z.div_mod_to_equations; lia).
  assert ((V / 16 ^ 6) mod 16 = d6) as ->
    by (subst V; change (16 ^ 6) with 16777216; Z.div_mod_to_equations; lia).
  assert ((V / 16 ^ 5) mod 16 = d5) as ->
    by (subst V; change (16 ^ 5) with 1048576; Z.div_mod_to_equations; lia).
  assert ((V / 16 ^ 4) mod 16 = d4) as ->
    by (subst V; change (16 ^ 4) with 65536; Z.div_mod_to_equations; lia).
  assert ((V / 16 ^ 3) mod 16 = d3) as ->
    by (subst V; change (16 ^ 3) with 4096; Z.div_mod_to_equations; lia).
  assert ((V / 16 ^ 2) mod 16 = d2) as ->
    by (subst V; change (16 ^ 2) with 256; Z.div_mod_to_equations; lia).
  assert ((V / 16 ^ 1) mod 16 = d1) as ->
    by (subst V; change (16 ^ 1) with 16; Z.div_mod_to_equations; lia).
  assert ((V / 16 ^ 0) mod 16 = d0) as ->
    by (subst V; change (16 ^ 0) with 1; Z.div_mod_to_equations; lia).
  reflexivity.
Qed.

Lemma ofDigits_nibbles v :
  0 <= v < 2 ^ 32 ->
  Spec.ofDigits (nibble v 7) (nibble v 6) (nibble v 5) (nibble v 4)
           (nibble v 3) (nibble v 2) (nibble v 1) (nibble v 0) = v.
Proof.
  intros Hv. rewrite !nibble_spec by lia. unfold Spec.ofDigits.
  change (16 ^ 7) with 268435456. change (16 ^ 6) with 16777216.
  change (16 ^ 5) with 1048576. change (16 ^ 4) with 65536.
  change (16 ^ 3) with 4096. change (16 ^ 2) with 256.
  change (16 ^ 1) with 16. change (16 ^ 0) with 1.
  Z.div_mod_to_equations. lia.
Qed.

Lemma nibble_range v i : 0 <= i -> 0 <= nibble v i < 16.
Proof.
  intros Hi. rewrite nibble_spec by lia. apply Z.mod_pos_bound. lia.
Qed.

Lemma hexLoop_digits s : forall v w,
  hexLoop s v = Ok w ->
  exists ds, map hexDigitValue (list_ascii_of_string s) = map Some ds
             /\ w = fold_left hexAcc ds v.
Proof.
  induction s as [|c s IH]; intros v w; cbn [hexLoop list_ascii_of_string map].
  - intros [= <-]. exists []. split; reflexivity.
  - destruct (hexDigitValue c) as [d|]; [|discriminate].
    intros H. apply IH in H as (ds & E & ->).
    exists (d :: ds). cbn [map fold_left]. rewrite E. split; reflexivity.
Qed.

Lemma hexLoop_of_digits ds : forall s v,
  map hexDigitValue (list_ascii_of_string s) = map Some ds ->
  hexLoop s v = Ok (fold_left hexAcc ds v).
Proof.
  induction ds as [|d ds IH]; intros s v; destruct s as [|c s];
    cbn [list_ascii_of_string map hexLoop fold_left]; try discriminate.
  - reflexivity.
  - intros [= E1 E2]. rewrite E1. apply IH, E2.
Qed.

Lemma hexAcc8 d7 d6 d5 d4 d3 d2 d1 d0 :
  0 <= d7 < 16 -> 0 <= d6 < 16 -> 0 <= d5 < 16 -> 0 <= d4 < 16 ->
  0 <= d3 < 16 -> 0 <= d2 < 16 -> 0 <= d1 < 16 -> 0 <= d0 < 16 ->
  fold_left hexAcc [d7; d6; d5; d4; d3; d2; d1; d0] 0
  = Spec.ofDigits d7 d6 d5 d4 d3 d2 d1 d0.
Proof.
  intros. cbn [fold_left]. unfold Spec.ofDigits.
  rewrite (hexStep 0 d7) by lia.
  rewrite (hexStep _ d6) by lia.
  rewrite (hexStep _ d5) by lia.
  rewrite (hexStep _ d4) by lia.
  rewrite (hexStep _ d3) by lia.
  rewrite (hexStep _ d2) by lia.
  rewrite (hexStep _ d1) by lia.
  rewrite (hexStep _ d0) by lia.
  lia.
Qed.

(** The hex parser reads back the word [hex8] has written. *)
Lemma parseHexWord_hex8 v : 0 <= v < 2 ^ 32 -> parseHexWord (hex8 v) = Ok v.
Proof.
  intros Hv. unfold parseHexWord, hex8. cbn [map string_of_list_ascii String.length].
  cbn [Z.of_nat Z.ltb Z.compare Pos.of_succ_nat Pos.succ Pos.compare Pos.compare_cont].
  rewrite (hexLoop_of_digits
             [nibble v 7; nibble v 6; nibble v 5; nibble v 4;
              nibble v 3; nibble v 2; nibble v 1; nibble v 0]).
  - rewrite hexAcc8 by (apply nibble_range; lia).
    rewrite ofDigits_nibbles by assumption. reflexivity.
  - cbn [list_ascii_of_string map].
    rewrite !hexDigitValue_hexChar by (apply nibble_range; lia). reflexivity.
Qed.

(** ** Chunks, groups and blocks *)

Section Chunks.
Context {A : Type}.
Variable n : nat.
Hypothesis n_pos : (0 < n)%nat.

Lemma chunksFuel_enough (l : list A) : forall fuel,
  (List.length l <= fuel)%nat ->
  Spec.chunksFuel fuel n l = Spec.chunksFuel (List.length l) n l.
Proof.
  induction l as [l IH] using (induction_ltof1 _ (@List.length A)).
  unfold ltof in IH. intros fuel Hf.
  destruct fuel as [|fuel]; destruct l as [|a l]; cbn [List.length] in *; try lia;
    try reflexivity.
  - cbn. destruct n; [lia|reflexivity].
  - cbn [Spec.chunksFuel]. cbn [List.length].
    destruct (n <=? S (List.length l))%nat eqn:E; [|reflexivity].
    apply Nat.leb_le in E. f_equal.
    assert (List.length (skipn n (a :: l)) < List.length (a :: l))%nat as Hlt
      by (rewrite length_skipn; cbn [List.length]; lia).
    rewrite (IH _ Hlt fuel) by (cbn [List.length] in Hlt; lia).
    rewrite (IH _ Hlt (List.length l)) by (cbn [List.length] in Hlt; lia).
    reflexivity.
Qed.

Lemma fullChunks_unfold (l : list A) :
  Spec.fullChunks n l =
  if (n <=? List.length l)%nat
  then firstn n l :: Spec.fullChunks n (skipn n l) else [].
Proof.
  unfold Spec.fullChunks at 1.
  destruct l as [|a l].
  - cbn. destruct n; [lia|reflexivity].
  - cbn [List.length Spec.chunksFuel].
    destruct (n <=? S (List.length l))%nat eqn:E; [|reflexivity].
    apply Nat.leb_le in E. f_equal. unfold Spec.fullChunks.
    apply chunksFuel_enough. rewrite length_skipn. cbn [List.length]. lia.
Qed.

Lemma fullChunks_short (l : list A) :
  (List.length l < n)%nat -> Spec.fullChunks n l = [].
Proof.
  intros H. rewrite fullChunks_unfold.
  destruct (Nat.leb_spec n (List.length l)); [lia|reflexivity].
Qed.

Lemma fullChunks_app (k : nat) : forall l1 l2 : list A,
  List.length l1 = (k * n)%nat ->
  Spec.fullChunks n (l1 ++ l2) = Spec.fullChunks n l1 ++ Spec.fullChunks n l2.
Proof.
  induction k as [|k IH]; intros l1 l2 Hl.
  - destruct l1; [|discriminate]. rewrite (fullChunks_short []) by (cbn; lia).
    reflexivity.
  - rewrite (fullChunks_unfold (l1 ++ l2)), (fullChunks_unfold l1).
    rewrite length_app.
    destruct (Nat.leb_spec n (List.length l1 + List.length l2)); [|lia].
    destruct (Nat.leb_spec n (List.length l1)); [|lia].
    cbn [app]. f_equal.
    + rewrite firstn_app. replace (n - List.length l1)%nat with 0%nat by lia.
      cbn. apply app_nil_r.
    + rewrite skipn_app. replace (n - List.length l1)%nat with 0%nat by lia.
      cbn [skipn]. apply IH. rewrite length_skipn. lia.
Qed.

Lemma fullChunks_length (l g : list A) :
  In g (Spec.fullChunks n l) -> List.length g = n.
Proof.
  induction l as [l IH] using (induction_ltof1 _ (@List.length A)).
  unfold ltof in IH. rewrite fullChunks_unfold.
  destruct (Nat.leb_spec n (List.length l)); [|contradiction].
  intros [<-|H1].
  - rewrite length_firstn. lia.
  - eapply IH; [|exact H1]. rewrite length_skipn. lia.
Qed.

End Chunks.

Section FoldGroups.
Context {St : Type}.
Variable body : list string -> St -> result St.

Lemma foldGroups_app (g1 g2 : list (list string)) : forall st,
  Spec.foldGroups body (g1 ++ g2) st =
  bind (Spec.foldGroups body g1 st) (Spec.foldGroups body g2).
Proof.
  induction g1 as [|g g1 IH]; intros st; cbn [app Spec.foldGroups bind].
  - reflexivity.
  - destruct (body g st); cbn [bind]; [apply IH|reflexivity].
Qed.

(** The group loop handles the full chunks of 16 from index [i] on. *)
Lemma groupLoop_chunks (hexVals : list string) (i : nat) (st : St) :
  groupLoop body hexVals i st =
  Spec.foldGroups body (Spec.fullChunks 16 (skipn i hexVals)) st.
Proof.
  funelim (groupLoop body hexVals i st).
  - rewrite fullChunks_short; [reflexivity|lia|].
    rewrite length_skipn. lia.
  - rewrite fullChunks_unfold by lia.
    destruct (Nat.leb_spec 16 (List.length (skipn i hexVals)));
      [|rewrite length_skipn in *; lia].
    cbn [Spec.foldGroups]. rewrite Heq. cbn [bind].
    rewrite skipn_skipn, (Nat.add_comm 16 i). assumption.
  - rewrite fullChunks_unfold by lia.
    destruct (Nat.leb_spec 16 (List.length (skipn i hexVals)));
      [|rewrite length_skipn in *; lia].
    cbn [Spec.foldGroups]. rewrite Heq. reflexivity.
Qed.

Lemma processBlock_chunks (firstRead : bool) (buffer : list byte) (st : St) :
  processBlock body firstRead buffer st =
  Spec.foldGroups body
    (Spec.fullChunks 16
       (map hex8 (if firstRead then skipn 1 (wordsOf 33 buffer)
                  else wordsOf 32 buffer)))
    st.
Proof.
  unfold processBlock. rewrite groupLoop_chunks. cbn [skipn].
  destruct firstRead; reflexivity.
Qed.
End FoldGroups.

Lemma wordAt_beWord b0 b1 b2 b3 rest :
  wordAt (b0 :: b1 :: b2 :: b3 :: rest) 0 = Spec.beWord b0 b1 b2 b3.
Proof.
  unfold wordAt, Spec.beWord, byteAt. cbn [nth Nat.add].
  pose proof (Byte.to_N_bounded b0). pose proof (Byte.to_N_bounded b1).
  pose proof (Byte.to_N_bounded b2). pose proof (Byte.to_N_bounded b3).
  set (z0 := Z.of_N (Byte.to_N b0)). set (z1 := Z.of_N (Byte.to_N b1)).
  set (z2 := Z.of_N (Byte.to_N b2)). set (z3 := Z.of_N (Byte.to_N b3)).
  assert (0 <= z0 < 256 /\ 0 <= z1 < 256 /\ 0 <= z2 < 256 /\ 0 <= z3 < 256)
    as (? & ? & ? & ?) by (subst z0 z1 z2 z3; lia).
  unfold wrap32. rewrite !Z.shiftl_mul_pow2 by lia.
  rewrite !Z.mod_small by lia.
  rewrite Z.lor_0_l.
  rewrite (lor_shift_add z0 (z1 * 2 ^ 16) 24) by lia.
  replace (z0 * 2 ^ 24 + z1 * 2 ^ 16) with ((z0 * 2 ^ 8 + z1) * 2 ^ 16) by lia.
  rewrite (lor_shift_add _ (z2 * 2 ^ 8) 16) by lia.
  replace ((z0 * 2 ^ 8 + z1) * 2 ^ 16 + z2 * 2 ^ 8)
    with (((z0 * 2 ^ 8 + z1) * 2 ^ 8 + z2) * 2 ^ 8) by lia.
  rewrite (lor_shift_add _ z3 8) by lia.
  lia.
Qed.

Lemma beWord_range b0 b1 b2 b3 : 0 <= Spec.beWord b0 b1 b2 b3 < 2 ^ 32.
Proof.
  unfold Spec.beWord.
  pose proof (Byte.to_N_bounded b0). pose proof (Byte.to_N_bounded b1).
  pose proof (Byte.to_N_bounded b2). pose proof (Byte.to_N_bounded b3).
  lia.
Qed.

Lemma wordAt_shift b0 b1 b2 b3 rest i :
  wordAt (b0 :: b1 :: b2 :: b3 :: rest) (S i * 4) = wordAt rest (i * 4).
Proof.
  unfold wordAt, byteAt.
  replace (S i * 4 + 0)%nat with (S (S (S (S (i * 4 + 0))))) by lia.
  replace (S i * 4 + 1)%nat with (S (S (S (S (i * 4 + 1))))) by lia.
  replace (S i * 4 + 2)%nat with (S (S (S (S (i * 4 + 2))))) by lia.
  replace (S i * 4 + 3)%nat with (S (S (S (S (i * 4 + 3))))) by lia.
  reflexivity.
Qed.

(** On a buffer of [4 * n] bytes the loop over the offsets reads the
    big-endian words of the buffer. *)
Lemma wordsOf_beWords n : forall buffer,
  List.length buffer = (4 * n)%nat -> wordsOf n buffer = Spec.beWords buffer.
Proof.
  unfold wordsOf.
  induction n as [|n IH]; intros buffer Hlen.
  - destruct buffer; [reflexivity|discriminate].
  - destruct buffer as [|b0 [|b1 [|b2 [|b3 rest]]]]; cbn [List.length] in Hlen; try lia.
    cbn [seq map Spec.beWords]. f_equal.
    + apply wordAt_beWord.
    + rewrite <- seq_shift, map_map. rewrite <- IH by lia.
      apply map_ext. intros i. apply wordAt_shift.
Qed.

Lemma beWords_length k : forall l,
  List.length l = (4 * k)%nat -> List.length (Spec.beWords l) = k.
Proof.
  induction k as [|k IH]; intros l Hlen.
  - destruct l; [reflexivity|discriminate].
  - destruct l as [|b0 [|b1 [|b2 [|b3 rest]]]]; cbn [List.length] in Hlen; try lia.
    cbn [Spec.beWords List.length]. f_equal. apply IH. lia.
Qed.

Lemma beWords_range l : Forall (fun w => 0 <= w < 2 ^ 32) (Spec.beWords l).
Proof.
  induction l as [l IH] using (induction_ltof1 _ (@List.length byte)).
  unfold ltof in IH.
  destruct l as [|b0 [|b1 [|b2 [|b3 rest]]]]; cbn [Spec.beWords]; try constructor.
  - apply beWord_range.
  - apply IH. cbn [List.length]. lia.
Qed.

Lemma keptFrom_short firstRead payload :
  (List.length payload < blockSize firstRead)%nat ->
  Spec.keptFrom firstRead payload = [].
Proof.
  intros H. unfold Spec.keptFrom. destruct firstRead; cbn [blockSize] in H.
  - destruct (Nat.leb_spec 132 (List.length payload)); [lia|reflexivity].
  - rewrite fullChunks_short by lia. reflexivity.
Qed.

(** The words of one full block followed by the words of the rest. *)
Lemma keptFrom_block firstRead payload :
  (blockSize firstRead <= List.length payload)%nat ->
  Spec.keptFrom firstRead payload =
  (if firstRead then skipn 1 (Spec.beWords (firstn 132 payload))
   else Spec.beWords (firstn 128 payload))
  ++ Spec.keptFrom false (skipn (blockSize firstRead) payload).
Proof.
  intros H. unfold Spec.keptFrom. destruct firstRead; cbn [blockSize] in *.
  - destruct (Nat.leb_spec 132 (List.length payload)); [|lia].
    cbn [map List.concat].
    assert (List.length (Spec.beWords (firstn 132 payload)) = 33%nat) as Hl
      by (apply beWords_length; rewrite length_firstn; lia).
    destruct (Spec.beWords (firstn 132 payload)); [discriminate|reflexivity].
  - rewrite (fullChunks_unfold 128) at 1 by lia.
    destruct (Nat.leb_spec 128 (List.length payload)); [|lia].
    reflexivity.
Qed.

Lemma fread_full_length n fp :
  (n <= List.length (fst (fread n fp)))%nat ->
  (n <= List.length (skipn (position fp) (contents fp)))%nat.
Proof.
  unfold fread. cbn [fst]. rewrite length_firstn. lia.
Qed.

Lemma fread_full n fp :
  (n <= List.length (fst (fread n fp)))%nat ->
  fread n fp = (firstn n (skipn (position fp) (contents fp)),
                mkFILE (contents fp) (position fp + n)).
Proof.
  intros H. pose proof (fread_full_length _ _ H) as H'.
  unfold fread. rewrite length_firstn. f_equal. f_equal. lia.
Qed.

(** The words a full block contributes, read as the loop does and as the
    specification does. *)
Lemma blockWords_read firstRead payload :
  (blockSize firstRead <= List.length payload)%nat ->
  (if firstRead then skipn 1 (wordsOf 33 (firstn (blockSize firstRead) payload))
   else wordsOf 32 (firstn (blockSize firstRead) payload))
  = (if firstRead then skipn 1 (Spec.beWords (firstn 132 payload))
     else Spec.beWords (firstn 128 payload)).
Proof.
  intros H. destruct firstRead; cbn [blockSize] in *.
  - rewrite wordsOf_beWords by (rewrite length_firstn; lia). reflexivity.
  - rewrite wordsOf_beWords by (rewrite length_firstn; lia). reflexivity.
Qed.

Lemma blockWords_length firstRead payload :
  (blockSize firstRead <= List.length payload)%nat ->
  List.length (if firstRead then skipn 1 (Spec.beWords (firstn 132 payload))
               else Spec.beWords (firstn 128 payload)) = (2 * 16)%nat.
Proof.
  intros H. destruct firstRead; cbn [blockSize] in *.
  - rewrite length_skipn, (beWords_length 33) by (rewrite length_firstn; lia).
    reflexivity.
  - rewrite (beWords_length 32) by (rewrite length_firstn; lia). reflexivity.
Qed.

Section ReadLoop.
Context {St : Type}.
Variable body : list string -> St -> result St.

(** The read loop handles the groups of 16 of the kept words of the
    rest of the file, whatever the body does with a group. *)
Lemma readLoop_chunks (fp : FILE) (firstRead : bool) (st : St) :
  readLoop body fp firstRead st =
  Spec.foldGroups body
    (Spec.fullChunks 16
       (map hex8 (Spec.keptFrom firstRead (skipn (position fp) (contents fp)))))
    st.
Proof.
  funelim (readLoop body fp firstRead st).
  - rewrite keptFrom_short; [reflexivity|].
    clear Heq Heqcall.
    unfold fread in l0. cbn [fst] in l0. rewrite length_firstn in l0. lia.
  - clear Heq0 Heqcall. rewrite H. clear H.
    pose proof (fread_full_length _ _ l) as Hlen.
    rewrite (fread_full _ _ l) in *. cbn [fst snd position contents] in *.
    rewrite (keptFrom_block firstRead) by assumption.
    rewrite map_app, (fullChunks_app 16 ltac:(lia) 2), foldGroups_app.
    + rewrite processBlock_chunks, blockWords_read in Heq by assumption.
      rewrite Heq. cbn [bind].
      rewrite skipn_skipn, (Nat.add_comm (blockSize firstRead)). reflexivity.
    + rewrite length_map. apply blockWords_length. assumption.
  - clear Heq0 Heqcall.
    pose proof (fread_full_length _ _ l) as Hlen.
    rewrite (fread_full _ _ l) in *. cbn [fst snd position contents] in *.
    rewrite (keptFrom_block firstRead) by assumption.
    rewrite map_app, (fullChunks_app 16 ltac:(lia) 2), foldGroups_app.
    + rewrite processBlock_chunks, blockWords_read in Heq by assumption.
      rewrite Heq. reflexivity.
    + rewrite length_map. apply blockWords_length. assumption.
Qed.
End ReadLoop.

Lemma fullChunks_incl {A} (n : nat) (l g : list A) (a : A) :
  (0 < n)%nat -> In g (Spec.fullChunks n l) -> In a g -> In a l.
Proof.
  intros Hn. induction l as [l IH] using (induction_ltof1 _ (@List.length A)).
  unfold ltof in IH. rewrite fullChunks_unfold by assumption.
  destruct (Nat.leb_spec n (List.length l)); [|contradiction].
  intros [<-|Hg] Ha.
  - rewrite <- (firstn_skipn n l). apply in_or_app. now left.
  - rewrite <- (firstn_skipn n l). apply in_or_app. right.
    apply IH; [rewrite length_skipn; lia|assumption|assumption].
Qed.

Lemma skipn_Forall {A} (P : A -> Prop) (k : nat) (l : list A) :
  Forall P l -> Forall P (skipn k l).
Proof.
  intros H. rewrite <- (firstn_skipn k l) in H. now apply Forall_app in H.
Qed.

Lemma keptWords_range data : Forall (fun w => 0 <= w < 2 ^ 32) (Spec.keptWords data).
Proof.
  unfold Spec.keptWords. apply skipn_Forall.
  apply Forall_concat, Forall_map, Forall_forall. intros b _. apply beWords_range.
Qed.

(** Every string of every group is the rendering of a 32-bit word. *)
Lemma groups_hex8 data g s :
  In g (Spec.groups data) -> In s g -> exists v, 0 <= v < 2 ^ 32 /\ s = hex8 v.
Proof.
  intros Hg Hs. unfold Spec.groups in Hg.
  pose proof (fullChunks_incl 16 _ _ _ ltac:(lia) Hg Hs) as Hin.
  apply in_map_iff in Hin as (v & <- & Hv).
  exists v. split; [|reflexivity].
  pose proof (keptWords_range data) as Hall.
  rewrite Forall_forall in Hall. now apply Hall.
Qed.

Lemma keptWords_keptFrom data :
  Spec.keptWords data = Spec.keptFrom true (skipn 192 data).
Proof. reflexivity. Qed.

(** [parseBinFile] and its trace on a file that can be opened. *)
Lemma parseWith_open {St} (body : list string -> St -> result St)
      (fs : filesystem) (name : string) (data : list byte) (init : St) :
  fs name = Some data ->
  parseWith body fs name init = Spec.foldGroups body (Spec.groups data) init.
Proof.
  intros Hfs. unfold parseWith, fopen. rewrite Hfs.
  cbn [fseek Z.ltb Z.compare contents Z.eqb negb].
  rewrite readLoop_chunks. cbn [position contents].
  unfold Spec.groups. rewrite keptWords_keptFrom. reflexivity.
Qed.

Lemma parseWith_closed {St} (body : list string -> St -> result St)
      (fs : filesystem) (name : string) (init : St) :
  fs name = None -> parseWith body fs name init = Throw CannotOpen.
Proof.
  intros Hfs. unfold parseWith, fopen. rewrite Hfs. reflexivity.
Qed.

Lemma foldGroups_trace gs : forall seen,
  Spec.foldGroups traceBody gs seen = Ok (seen ++ gs).
Proof.
  induction gs as [|g gs IH]; intros seen; cbn [Spec.foldGroups traceBody bind].
  - now rewrite app_nil_r.
  - rewrite IH, <- app_assoc. reflexivity.
Qed.

Lemma per_block_groups_trace fs name data :
  fs name = Some data -> groupsVisited fs name = Ok (Spec.groups data).
Proof.
  intros Hfs. unfold groupsVisited. rewrite (parseWith_open _ _ _ _ _ Hfs).
  apply foldGroups_trace.
Qed.

(** ** The float parser inside the decoder *)

Lemma parseHexAsFloat_hex8 v :
  0 <= v < 2 ^ 32 ->
  parseHexAsFloatLittleEndian (hex8 v)
  = Ok (round2 (float_of_bits (swapBigEndianToHost v))).
Proof.
  intros Hv. unfold parseHexAsFloatLittleEndian.
  rewrite parseHexWord_hex8 by assumption. reflexivity.
Qed.

Lemma parseFloats_rendered l :
  Forall Spec.rendered l ->
  exists fvals, parseFloats l = Ok fvals /\ List.length fvals = List.length l.
Proof.
  induction 1 as [|s l (v & Hv & ->) _ (fvals & E & Hlen)]; cbn [parseFloats].
  - exists []. split; reflexivity.
  - rewrite parseHexAsFloat_hex8 by assumption. cbn [bind]. rewrite E. cbn [bind].
    eexists. split; [reflexivity|]. cbn [List.length]. now rewrite Hlen.
Qed.

(** On rendered words the body of the group loop throws nothing. *)
Lemma groupBody_rendered g rows :
  Forall Spec.rendered g -> exists rows', groupBody g rows = Ok rows'.
Proof.
  intros Hg. unfold groupBody.
  destruct (List.length (tl g) <? 2)%nat; [eauto|].
  destruct (parseDateTimeFromTwoHex _ _); [|eauto].
  destruct (List.length (tl g) <? 15)%nat; [eauto|].
  destruct (parseFloats_rendered (skipn 2 (tl g))) as (fvals & E & _).
  - apply skipn_Forall. destruct g; [constructor|]. now inversion Hg.
  - rewrite E. cbn [bind]. eauto.
Qed.

Lemma foldGroups_rendered gs : forall rows,
  Forall (Forall Spec.rendered) gs ->
  exists rows', Spec.foldGroups groupBody gs rows = Ok rows'.
Proof.
  induction gs as [|g gs IH]; intros rows Hgs; cbn [Spec.foldGroups].
  - eauto.
  - inversion Hgs as [|? ? Hg Hrest]; subst.
    destruct (groupBody_rendered g rows Hg) as (rows' & ->). cbn [bind].
    now apply IH.
Qed.

Lemma groups_rendered data : Forall (Forall Spec.rendered) (Spec.groups data).
Proof.
  apply Forall_forall. intros g Hg. apply Forall_forall. intros s Hs.
  eapply groups_hex8; eassumption.
Qed.

(** [parseBinFile] throws only when the file cannot be opened. *)
Lemma parseBinFile_total fs name :
  match fs name with
  | Some data => exists rows, parseBinFile fs name = Ok rows
  | None => parseBinFile fs name = Throw CannotOpen
  end.
Proof.
  destruct (fs name) as [data|] eqn:Hfs.
  - unfold parseBinFile. rewrite (parseWith_open _ _ _ _ _ Hfs).
    apply foldGroups_rendered, groups_rendered.
  - now apply parseWith_closed.
Qed.

(** ** Grouping per block and grouping over the whole file *)

(** C1.  For every file that can be opened, the groups of 16 the decoder
    visits, restarting its index at every block it reads, are the groups
    of 16 of the concatenation of all kept hex words of the file, and the
    records it returns are those of decoding over that concatenation. *)
Theorem per_block_groups_are_whole_file_groups
        (fs : filesystem) (name : string) (data : list byte) :
  fs name = Some data ->
  groupsVisited fs name = Ok (Spec.groups data)
  /\ parseBinFile fs name = Spec.decode data.
Proof.
  intros Hfs. split.
  - now apply per_block_groups_trace.
  - unfold parseBinFile. now rewrite (parseWith_open _ _ _ _ _ Hfs).
Qed.

Lemma per_block_groups_are_whole_file_groups_witness :
  groupsVisited (fileOf sampleFile) "a.bin" = Ok (Spec.groups sampleFile)
  /\ parseBinFile (fileOf sampleFile) "a.bin" = Spec.decode sampleFile.
Proof.
  apply (per_block_groups_are_whole_file_groups (fileOf sampleFile) "a.bin" sampleFile).
  reflexivity.
Defined.

(** ** Files shorter than the preamble *)

(** C3 (what the code does).  On a file shorter than 192 bytes the seek
    succeeds, the first read is short, and [parseBinFile] returns the empty
    sequence of records: no exception is thrown, although the message of
    the throw after [fseek] speaks of a file that is too small. *)
Theorem short_file_gives_empty_result
        (fs : filesystem) (name : string) (data : list byte) :
  fs name = Some data ->
  (List.length data < 192)%nat ->
  parseBinFile fs name = Ok [].
Proof.
  intros Hfs Hlen. unfold parseBinFile. rewrite (parseWith_open _ _ _ _ _ Hfs).
  unfold Spec.groups. rewrite keptWords_keptFrom.
  rewrite keptFrom_short by (rewrite length_skipn; cbn [blockSize]; lia).
  reflexivity.
Qed.

Lemma short_file_gives_empty_result_witness :
  parseBinFile (fileOf (zeros 100)) "short.bin" = Ok [].
Proof.
  apply (short_file_gives_empty_result (fileOf (zeros 100)) "short.bin" (zeros 100)).
  - reflexivity.
  - vm_compute. lia.
Defined.

(** ** The float error path *)

(** C10.  Every string of every group the decoder visits is the [%08X]
    rendering of a 32-bit word; the float parser accepts every such
    string; and [parseBinFile] never throws an error of the float parser,
    whatever the file. *)
Theorem float_error_unreachable_in_decode :
  (forall fs name gs g s,
      groupsVisited fs name = Ok gs -> In g gs -> In s g ->
      exists v, 0 <= v < 2 ^ 32 /\ s = hex8 v)
  /\ (forall v, 0 <= v < 2 ^ 32 ->
       exists f, parseHexAsFloatLittleEndian (hex8 v) = Ok f)
  /\ (forall fs name e, parseBinFile fs name = Throw e -> isFloatError e = false).
Proof.
  split; [|split].
  - intros fs name gs g s Hv Hg Hs.
    destruct (fs name) as [data|] eqn:Hfs.
    + pose proof (per_block_groups_trace fs name data Hfs) as E.
      rewrite E in Hv. injection Hv as <-. eapply groups_hex8; eassumption.
    + unfold groupsVisited in Hv. rewrite parseWith_closed in Hv by assumption.
      discriminate.
  - intros v Hv. rewrite parseHexAsFloat_hex8 by assumption. eauto.
  - intros fs name e He. pose proof (parseBinFile_total fs name) as Ht.
    destruct (fs name).
    + destruct Ht as (rows & E). rewrite E in He. discriminate.
    + rewrite Ht in He. injection He as <-. reflexivity.
Qed.

Lemma float_error_unreachable_in_decode_witness :
  (exists v, 0 <= v < 2 ^ 32 /\ "0000003E" = hex8 v)
  /\ (exists f, parseHexAsFloatLittleEndian (hex8 0xC3F54840) = Ok f)
  /\ isFloatError CannotOpen = false.
Proof.
  destruct float_error_unreachable_in_decode as (H1 & H2 & H3).
  split; [|split].
  - apply (H1 (fileOf sampleFile) "a.bin" (Spec.groups sampleFile)
              (nth 0 (Spec.groups sampleFile) []) "0000003E").
    + reflexivity.
    + vm_compute. left. reflexivity.
    + vm_compute. do 3 right. left. reflexivity.
  - apply H2. lia.
  - apply (H3 (fun _ => None) "none.bin"). reflexivity.
Defined.

(** ** The hex text and the word before the swap *)

Lemma string_length8 (H : string) :
  String.length H = 8%nat ->
  exists c7 c6 c5 c4 c3 c2 c1 c0,
    H = string_of_list_ascii [c7; c6; c5; c4; c3; c2; c1; c0].
Proof.
  intros Hlen.
  destruct H as [|c7 [|c6 [|c5 [|c4 [|c3 [|c2 [|c1 [|c0 [|]]]]]]]]]; try discriminate.
  now exists c7, c6, c5, c4, c3, c2, c1, c0.
Qed.

(** C7 as the specification states it fails: a lower-case hex letter is
    accepted by the parser and comes back in upper case. *)
Lemma hex_roundtrip_fails_on_lower_case :
  ~ (forall H w, String.length H = 8%nat -> parseHexWord H = Ok w -> hex8 w = H).
Proof.
  intros Hall. specialize (Hall "0000000a" 10 eq_refl eq_refl). discriminate.
Qed.

(** C7 (amended).  For every 8-character string [H] the float decoder
    accepts, rendering the word read from [H], before the swap, as 8
    upper-case hex digits gives [H] with its letters a-f in upper case;
    it gives [H] itself when [H] has no lower-case hex letter. *)
Theorem hex_roundtrip_up_to_case (H : string) (w : Z) :
  String.length H = 8%nat ->
  parseHexWord H = Ok w ->
  hex8 w = Spec.upperString H
  /\ (Spec.upperString H = H -> hex8 w = H).
Proof.
  intros Hlen Hw.
  assert (hex8 w = Spec.upperString H) as E; [|split; [exact E|now intros <-]].
  unfold parseHexWord in Hw. rewrite Hlen in Hw. cbn in Hw.
  destruct (string_length8 H Hlen) as (c7 & c6 & c5 & c4 & c3 & c2 & c1 & c0 & ->).
  apply hexLoop_digits in Hw as (ds & E & ->).
  rewrite list_ascii_of_string_of_list_ascii in E. cbn [map] in E.
  destruct ds as [|d7 [|d6 [|d5 [|d4 [|d3 [|d2 [|d1 [|d0 [|]]]]]]]]]; try discriminate.
  injection E as E7 E6 E5 E4 E3 E2 E1 E0.
  rewrite hexAcc8 by (eapply hexDigitValue_range; eassumption).
  rewrite hex8_ofDigits by (eapply hexDigitValue_range; eassumption).
  cbn [map string_of_list_ascii Spec.upperString].
  now rewrite (hexChar_upper _ _ E7), (hexChar_upper _ _ E6), (hexChar_upper _ _ E5),
    (hexChar_upper _ _ E4), (hexChar_upper _ _ E3), (hexChar_upper _ _ E2),
    (hexChar_upper _ _ E1), (hexChar_upper _ _ E0).
Qed.

Lemma hex_roundtrip_up_to_case_witness :
  hex8 0xC3f54840 = Spec.upperString "C3f54840"
  /\ (Spec.upperString "C3f54840" = "C3f54840" -> hex8 0xC3f54840 = "C3f54840").
Proof.
  apply (hex_roundtrip_up_to_case "C3f54840" 0xC3f54840); reflexivity.
Defined.

(** ** Exceptions inside the loops *)

Section LoopSteps.
Context {St : Type}.
Variable body : list string -> St -> result St.

(** One turn of the group loop. *)
Lemma groupLoop_step (hexVals : list string) (i : nat) (st : St) :
  groupLoop body hexVals i st =
  if (i + 16 <=? List.length hexVals)%nat
  then match body (firstn 16 (skipn i hexVals)) st with
       | Ok st' => groupLoop body hexVals (i + 16) st'
       | Throw e => Throw e
       end
  else Ok st.
Proof.
  rewrite groupLoop_chunks, fullChunks_unfold by lia. rewrite length_skipn.
  destruct (Nat.leb_spec (i + 16) (List.length hexVals));
    destruct (Nat.leb_spec 16 (List.length hexVals - i)); try lia.
  - cbn [Spec.foldGroups bind].
    destruct (body (firstn 16 (skipn i hexVals)) st); [|reflexivity].
    rewrite groupLoop_chunks, skipn_skipn, (Nat.add_comm 16 i). reflexivity.
  - reflexivity.
Qed.

(** One turn of the read loop. *)
Lemma readLoop_step (fp : FILE) (firstRead : bool) (st : St) :
  readLoop body fp firstRead st =
  if (List.length (fst (fread (blockSize firstRead) fp)) <? blockSize firstRead)%nat
  then Ok st
  else match processBlock body firstRead (fst (fread (blockSize firstRead) fp)) st with
       | Ok st' => readLoop body (snd (fread (blockSize firstRead) fp)) false st'
       | Throw e => Throw e
       end.
Proof.
  rewrite readLoop_equation_1.
  destruct (le_lt_dec _ _) as [l|l].
  - rewrite readLoop_clause_1_equation_1.
    destruct (Nat.ltb_spec (List.length (fst (fread (blockSize firstRead) fp)))
                           (blockSize firstRead)); [lia|].
    destruct (processBlock _ _ _ _);
      [rewrite readLoop_clause_1_clause_2_equation_1
      |rewrite readLoop_clause_1_clause_2_equation_2]; reflexivity.
  - rewrite readLoop_clause_1_equation_2.
    destruct (Nat.ltb_spec (List.length (fst (fread (blockSize firstRead) fp)))
                           (blockSize firstRead)); [reflexivity|lia].
Qed.
End LoopSteps.

Lemma hexLoop_throws s : forall v e, hexLoop s v = Throw e -> e = HexBadChar.
Proof.
  induction s as [|c s IH]; intros v e; cbn [hexLoop]; [discriminate|].
  destruct (hexDigitValue c); [apply IH|now intros [= <-]].
Qed.

Lemma parseHexAsFloat_throws s e :
  parseHexAsFloatLittleEndian s = Throw e -> isFloatError e = true.
Proof.
  unfold parseHexAsFloatLittleEndian, parseHexWord.
  destruct (Z.of_nat (String.length s) <? 8); [now intros [= <-]|].
  destruct (hexLoop s 0) eqn:El; cbn [bind]; [discriminate|].
  intros [= <-]. now rewrite (hexLoop_throws _ _ _ El).
Qed.

Lemma parseFloats_throws l s e :
  In s l -> parseHexAsFloatLittleEndian s = Throw e ->
  exists e', parseFloats l = Throw e' /\ isFloatError e' = true.
Proof.
  intros Hin Hs. induction l as [|h t IH]; [contradiction|].
  cbn [parseFloats].
  destruct (parseHexAsFloatLittleEndian h) as [fv|e1] eqn:Eh; cbn [bind].
  - destruct Hin as [->|Hin]; [congruence|].
    destruct (IH Hin) as (e' & -> & He'). cbn [bind]. eauto.
  - exists e1. split; [reflexivity|]. eapply parseHexAsFloat_throws, Eh.
Qed.

(** C2.  (a) When the timestamp of the group at index [i] does not parse,
    whatever the exception, the group loop goes on at index [i + 16] with
    the rows it had: only that group is skipped.  (b) When the timestamp
    parses and one of the 13 value strings is refused by the float parser,
    the group loop ends at once with an exception of the float parser.
    (c) Neither the read loop nor [parseBinFile] catches anything: with
    any loop body, an exception that leaves the group loop of a block
    leaves the read loop, and the result of [parseBinFile] on a file that
    can be opened is the result of the read loop started after the
    preamble. *)
Theorem timestamp_errors_skip_float_errors_abort :
  (forall hexVals i rows g e,
      firstn 16 (skipn i hexVals) = g -> List.length g = 16%nat ->
      parseDateTimeFromTwoHex (nth 1 g "") (nth 2 g "") = Throw e ->
      groupLoop groupBody hexVals i rows
      = groupLoop groupBody hexVals (i + 16) rows)
  /\ (forall hexVals i rows g rec s e,
      firstn 16 (skipn i hexVals) = g -> List.length g = 16%nat ->
      parseDateTimeFromTwoHex (nth 1 g "") (nth 2 g "") = Ok rec ->
      In s (skipn 3 g) -> parseHexAsFloatLittleEndian s = Throw e ->
      exists e', groupLoop groupBody hexVals i rows = Throw e'
                 /\ isFloatError e' = true)
  /\ (forall St (body : list string -> St -> result St) fp firstRead st e,
      (blockSize firstRead <= List.length (fst (fread (blockSize firstRead) fp)))%nat ->
      processBlock body firstRead (fst (fread (blockSize firstRead) fp)) st
      = Throw e ->
      readLoop body fp firstRead st = Throw e)
  /\ (forall fs name data,
      fs name = Some data ->
      parseBinFile fs name = readLoop groupBody (mkFILE data 192) true []).
Proof.
  split; [|split; [|split]].
  - intros hexVals i rows g e Hg Hlen Hts.
    rewrite groupLoop_step.
    assert (i + 16 <= List.length hexVals)%nat as Hi.
    { rewrite <- Hg, length_firstn, length_skipn in Hlen. lia. }
    destruct (Nat.leb_spec (i + 16) (List.length hexVals)); [|lia].
    rewrite Hg. unfold groupBody.
    destruct g as [|m [|s1 [|s2 t]]]; try discriminate.
    cbn [tl List.length nth Nat.ltb Nat.leb] in *. now rewrite Hts.
  - intros hexVals i rows g rec s e Hg Hlen Hts Hin Hs.
    rewrite groupLoop_step.
    assert (i + 16 <= List.length hexVals)%nat as Hi.
    { rewrite <- Hg, length_firstn, length_skipn in Hlen. lia. }
    destruct (Nat.leb_spec (i + 16) (List.length hexVals)); [|lia].
    rewrite Hg. unfold groupBody.
    destruct g as [|m [|s1 [|s2 t]]]; try discriminate.
    cbn [tl nth skipn] in *. rewrite Hts.
    destruct (Nat.ltb_spec (List.length (s1 :: s2 :: t)) 2);
      [cbn [List.length] in *; lia|].
    destruct (Nat.ltb_spec (List.length (s1 :: s2 :: t)) 15);
      [cbn [List.length] in *; lia|].
    destruct (parseFloats_throws _ _ _ Hin Hs) as (e' & -> & He').
    cbn [bind]. eauto.
  - intros St body fp firstRead st e Hfull Hblock.
    rewrite readLoop_step.
    destruct (Nat.ltb_spec (List.length (fst (fread (blockSize firstRead) fp)))
                           (blockSize firstRead)); [lia|].
    now rewrite Hblock.
  - intros fs name data Hfs. unfold parseBinFile, parseWith, fopen.
    rewrite Hfs. reflexivity.
Qed.

Lemma timestamp_errors_skip_float_errors_abort_witness :
  groupLoop groupBody (badStampGroup ++ goodGroup) 0 []
  = groupLoop groupBody (badStampGroup ++ goodGroup) (0 + 16) []
  /\ (exists e', groupLoop groupBody (goodGroup ++ badFloatGroup ++ goodGroup) 16 []
                 = Throw e' /\ isFloatError e' = true)
  /\ readLoop (fun _ (_ : unit) => Throw HexBadChar)
              (mkFILE sampleFile 192) true tt = Throw HexBadChar
  /\ parseBinFile (fileOf sampleFile) "a.bin"
     = readLoop groupBody (mkFILE sampleFile 192) true [].
Proof.
  destruct timestamp_errors_skip_float_errors_abort as (Ha & Hb & Hc & Hd).
  split; [|split; [|split]].
  - apply (Ha _ 0%nat [] badStampGroup NotDecimalDigit); reflexivity.
  - apply (Hb _ 16%nat [] badFloatGroup
              (mkRec 2025 1 10 13 30 45 "2025/01/10" "13:30:45" [])
              "0000803G" HexBadChar); try reflexivity.
    vm_compute. do 3 right. left. reflexivity.
  - apply (Hc unit (fun _ _ => Throw HexBadChar) (mkFILE sampleFile 192) true tt
              HexBadChar).
    + vm_compute. lia.
    + reflexivity.
  - apply (Hd (fileOf sampleFile) "a.bin" sampleFile). reflexivity.
Defined.

(** ** Timestamps *)

Lemma inRange_digit c : inRange "0" "9" c = true -> 48 <= code c <= 57.
Proof.
  unfold inRange. change (code "0") with 48. change (code "9") with 57. lia.
Qed.

Lemma decToInt_range s pos v : decToInt s pos = Ok v -> 0 <= v <= 99.
Proof.
  unfold decToInt.
  destruct (inRange "0" "9" (charAt s pos)) eqn:E1; [|discriminate].
  destruct (inRange "0" "9" (charAt s (pos + 1))) eqn:E2; [|discriminate].
  cbn [negb orb]. intros [= <-].
  apply inRange_digit in E1, E2. change (code "0") with 48. lia.
Qed.

Lemma check_ok b e : check b e = Ok tt -> b = true.
Proof. destruct b; [reflexivity|discriminate]. Qed.

Lemma showIntW_two n : 0 <= n <= 99 -> showIntW 2 "0" n = Spec.two n.
Proof.
  intros Hn.
  pose proof (range_all (fun n => String.eqb (showIntW 2 "0" n) (Spec.two n))
                        0 100 ltac:(vm_compute; reflexivity) n ltac:(lia)) as H.
  now apply String.eqb_eq.
Qed.

Lemma showInt_four y : 2000 <= y <= 2100 -> showInt y = Spec.four y.
Proof.
  intros Hy.
  pose proof (range_all (fun y => String.eqb (showInt y) (Spec.four y))
                        2000 101 ltac:(vm_compute; reflexivity) y ltac:(lia)) as H.
  now apply String.eqb_eq.
Qed.

(** What a successful timestamp parse returns. *)
Lemma parseDateTime_ok hex1 hex2 r :
  parseDateTimeFromTwoHex hex1 hex2 = Ok r ->
  (2000 <= year r <= 2100 /\ 1 <= month r <= 12 /\ 1 <= day r <= 31
   /\ 0 <= hour r <= 23 /\ 0 <= minute r <= 59 /\ 0 <= second r <= 59)
  /\ dateStr r = Spec.date (year r) (month r) (day r)
  /\ timeStr r = Spec.time (hour r) (minute r) (second r)
  /\ floatValues r = [].
Proof.
  unfold parseDateTimeFromTwoHex.
  destruct (_ || _); [discriminate|].
  destruct (decToInt hex1 0) as [YY|] eqn:EYY; cbn [bind]; [|discriminate].
  destruct (decToInt hex1 2) as [MM|] eqn:EMM; cbn [bind]; [|discriminate].
  destruct (decToInt hex1 4) as [DD|] eqn:EDD; cbn [bind]; [|discriminate].
  destruct (decToInt hex1 6) as [hh|] eqn:Ehh; cbn [bind]; [|discriminate].
  destruct (decToInt hex2 0) as [mm|] eqn:Emm; cbn [bind]; [|discriminate].
  destruct (decToInt hex2 2) as [ss|] eqn:Ess; cbn [bind]; [|discriminate].
  remember (2000 + YY) as y eqn:Ey.
  destruct (check _ YearOutOfRange) as [[]|] eqn:C1; cbn [bind]; [|discriminate].
  destruct (check _ MonthInvalid) as [[]|] eqn:C2; cbn [bind]; [|discriminate].
  destruct (check _ DayInvalid) as [[]|] eqn:C3; cbn [bind]; [|discriminate].
  destruct (check _ HourInvalid) as [[]|] eqn:C4; cbn [bind]; [|discriminate].
  destruct (check _ MinuteInvalid) as [[]|] eqn:C5; cbn [bind]; [|discriminate].
  destruct (check _ SecondInvalid) as [[]|] eqn:C6; cbn [bind]; [|discriminate].
  intros [= <-]. cbn [year month day hour minute second dateStr timeStr floatValues].
  apply check_ok in C1, C2, C3, C4, C5, C6.
  apply decToInt_range in EYY, EMM, EDD, Ehh, Emm, Ess.
  assert (2000 <= y <= 2100 /\ 1 <= MM <= 12 /\ 1 <= DD <= 31
          /\ 0 <= hh <= 23 /\ 0 <= mm <= 59 /\ 0 <= ss <= 59) as Hr by lia.
  split; [exact Hr|]. split; [|split; [|reflexivity]].
  - unfold formatDate, Spec.date.
    now rewrite showInt_four, !showIntW_two by lia.
  - unfold formatTime, Spec.time. now rewrite !showIntW_two by lia.
Qed.

Lemma parseFloats_length l : forall fvals,
  parseFloats l = Ok fvals -> List.length fvals = List.length l.
Proof.
  induction l as [|h t IH]; intros fvals; cbn [parseFloats].
  - now intros [= <-].
  - destruct (parseHexAsFloatLittleEndian h); cbn [bind]; [|discriminate].
    destruct (parseFloats t) as [ft|]; cbn [bind]; [|discriminate].
    intros [= <-]. cbn [List.length]. f_equal. now apply IH.
Qed.

(** The body of the group loop adds nothing or one valid record. *)
Lemma groupBody_valid g rows rows' :
  List.length g = 16%nat ->
  groupBody g rows = Ok rows' ->
  Forall Spec.validRecord rows -> Forall Spec.validRecord rows'.
Proof.
  intros Hlen. unfold groupBody.
  destruct (List.length (tl g) <? 2)%nat; [now intros [= <-]|].
  destruct (parseDateTimeFromTwoHex _ _) as [rec|] eqn:Ets; [|now intros [= <-]].
  destruct (List.length (tl g) <? 15)%nat; [now intros [= <-]|].
  destruct (parseFloats _) as [fvals|] eqn:Ef; cbn [bind]; [|discriminate].
  intros [= <-] Hrows. apply Forall_app. split; [assumption|].
  constructor; [|constructor].
  apply parseDateTime_ok in Ets as (Hr & Hd & Ht & _).
  apply parseFloats_length in Ef.
  unfold Spec.validRecord, setFloatValues.
  cbn [year month day hour minute second dateStr timeStr floatValues].
  repeat split; try tauto.
  rewrite Ef, length_skipn. destruct g; [discriminate|]. cbn [tl List.length] in *. lia.
Qed.

Lemma foldGroups_valid gs : forall rows rows',
  Forall (fun g => List.length g = 16%nat) gs ->
  Spec.foldGroups groupBody gs rows = Ok rows' ->
  Forall Spec.validRecord rows -> Forall Spec.validRecord rows'.
Proof.
  induction gs as [|g gs IH]; intros rows rows' Hgs; cbn [Spec.foldGroups].
  - now intros [= <-].
  - inversion Hgs as [|? ? Hg Hrest]; subst.
    destruct (groupBody g rows) as [rows1|] eqn:Eg; cbn [bind]; [|discriminate].
    intros Hfold Hrows. eapply IH; [eassumption|eassumption|].
    eapply groupBody_valid; eassumption.
Qed.

(** C4.  Every record [parseBinFile] returns has a year in [2000, 2100], a
    month in [1, 12], a day in [1, 31], an hour in [0, 23], minute and
    second in [0, 59], exactly 13 float values, and the zero-padded texts
    "YYYY/MM/DD" and "hh:mm:ss" of its numeric fields as [dateStr] and
    [timeStr]. *)
Theorem decoded_records_are_valid
        (fs : filesystem) (name : string) (rows : list Rec) (r : Rec) :
  parseBinFile fs name = Ok rows -> In r rows -> Spec.validRecord r.
Proof.
  intros Hp Hin.
  destruct (fs name) as [data|] eqn:Hfs.
  - unfold parseBinFile in Hp. rewrite (parseWith_open _ _ _ _ _ Hfs) in Hp.
    assert (Forall Spec.validRecord rows) as Hall.
    { eapply foldGroups_valid; [|exact Hp|constructor].
      apply Forall_forall. intros g Hg. unfold Spec.groups in Hg.
      eapply (fullChunks_length 16 ltac:(lia)). exact Hg. }
    rewrite Forall_forall in Hall. now apply Hall.
  - unfold parseBinFile in Hp. rewrite parseWith_closed in Hp by assumption.
    discriminate.
Qed.

Lemma decoded_records_are_valid_witness :
  Spec.validRecord
    (mkRec 2025 1 10 9 5 59 "2025/01/10" "09:05:59"
           (S754_finite true 8724152 (-26) :: repeat (S754_zero false) 12)).
Proof.
  apply (decoded_records_are_valid (fileOf sampleFile) "a.bin" sampleRows).
  - vm_compute. reflexivity.
  - vm_compute. right. left. reflexivity.
Defined.

Lemma parseDate_date y m d :
  2000 <= y <= 2100 -> 1 <= m <= 12 -> 1 <= d <= 31 ->
  Spec.parseDate (Spec.date y m d) = Some (y, m, d).
Proof.
  intros Hy Hm Hd.
  pose proof (range_all
    (fun y => forallb (fun m => forallb (fun d =>
       match Spec.parseDate (Spec.date y m d) with
       | Some (y', m', d') => (y' =? y) && (m' =? m) && (d' =? d)
       | None => false
       end) (map (fun i => 1 + Z.of_nat i) (seq 0 31)))
       (map (fun i => 1 + Z.of_nat i) (seq 0 12)))
    2000 101 ltac:(vm_compute; reflexivity) y ltac:(lia)) as H.
  cbv beta in H.
  pose proof (range_all _ 1 12 H m ltac:(lia)) as H1. cbv beta in H1.
  pose proof (range_all _ 1 31 H1 d ltac:(lia)) as H2. cbv beta in H2.
  destruct (Spec.parseDate (Spec.date y m d)) as [[[y' m'] d']|]; [|discriminate].
  repeat f_equal; lia.
Qed.

Lemma parseTime_time h m s :
  0 <= h <= 23 -> 0 <= m <= 59 -> 0 <= s <= 59 ->
  Spec.parseTime (Spec.time h m s) = Some (h, m, s).
Proof.
  intros Hh Hm Hs.
  pose proof (range_all
    (fun h => forallb (fun m => forallb (fun s =>
       match Spec.parseTime (Spec.time h m s) with
       | Some (h', m', s') => (h' =? h) && (m' =? m) && (s' =? s)
       | None => false
       end) (map (fun i => 0 + Z.of_nat i) (seq 0 60)))
       (map (fun i => 0 + Z.of_nat i) (seq 0 60)))
    0 24 ltac:(vm_compute; reflexivity) h ltac:(lia)) as H.
  cbv beta in H.
  pose proof (range_all _ 0 60 H m ltac:(lia)) as H1. cbv beta in H1.
  pose proof (range_all _ 0 60 H1 s ltac:(lia)) as H2. cbv beta in H2.
  destruct (Spec.parseTime (Spec.time h m s)) as [[[h' m'] s']|]; [|discriminate].
  repeat f_equal; lia.
Qed.

(** C8.  When [parseDateTimeFromTwoHex] accepts two 8-character strings,
    reading the numbers back from the [dateStr] and the [timeStr] of the
    record gives its year, month and day and its hour, minute and
    second. *)
Theorem timestamp_roundtrip (hex1 hex2 : string) (r : Rec) :
  String.length hex1 = 8%nat -> String.length hex2 = 8%nat ->
  parseDateTimeFromTwoHex hex1 hex2 = Ok r ->
  Spec.parseDate (dateStr r) = Some (year r, month r, day r)
  /\ Spec.parseTime (timeStr r) = Some (hour r, minute r, second r).
Proof.
  intros _ _ Hp. apply parseDateTime_ok in Hp as (Hr & -> & -> & _).
  split; [apply parseDate_date | apply parseTime_time]; tauto.
Qed.

Lemma timestamp_roundtrip_witness :
  Spec.parseDate "2025/01/10" = Some (2025, 1, 10)
  /\ Spec.parseTime "13:30:45" = Some (13, 30, 45).
Proof.
  exact (timestamp_roundtrip "25011013" "3045ABCD"
           (mkRec 2025 1 10 13 30 45 "2025/01/10" "13:30:45" [])
           eq_refl eq_refl eq_refl).
Defined.

(** ** Sorting and deduplication *)

Lemma stamp_eq a b :
  Spec.stamp a = Spec.stamp b <->
  year a = year b /\ month a = month b /\ day a = day b
  /\ hour a = hour b /\ minute a = minute b /\ second a = second b.
Proof.
  unfold Spec.stamp. split.
  - intros [= -> -> -> -> -> ->]. tauto.
  - intros (-> & -> & -> & -> & -> & ->). reflexivity.
Qed.

Lemma differs_false a b : differs a b = false <-> Spec.stamp a = Spec.stamp b.
Proof. rewrite stamp_eq. unfold differs. lia. Qed.

Lemma sameStamp_true a b : Spec.sameStamp a b = true <-> Spec.stamp a = Spec.stamp b.
Proof.
  rewrite stamp_eq. unfold Spec.sameStamp, Spec.stampEqb, Spec.stamp. lia.
Qed.

Lemma comp_true a b : comp a b = true <-> Spec.lexLt (Spec.stamp a) (Spec.stamp b).
Proof.
  unfold comp, Spec.lexLt, Spec.stamp.
  destruct (year a =? year b) eqn:E1; cbn [negb]; [|lia].
  destruct (month a =? month b) eqn:E2; cbn [negb]; [|lia].
  destruct (day a =? day b) eqn:E3; cbn [negb]; [|lia].
  destruct (hour a =? hour b) eqn:E4; cbn [negb]; [|lia].
  destruct (minute a =? minute b) eqn:E5; cbn [negb]; lia.
Qed.

Lemma comp_false a b : comp b a = false <-> Spec.lexLe (Spec.stamp a) (Spec.stamp b).
Proof.
  unfold Spec.lexLe. rewrite stamp_eq, <- comp_true.
  unfold comp.
  destruct (year b =? year a) eqn:E1; cbn [negb];
    [|destruct (year a =? year b) eqn:F1; cbn [negb]; lia].
  replace (year a =? year b) with true by lia. cbn [negb].
  destruct (month b =? month a) eqn:E2; cbn [negb];
    [|destruct (month a =? month b) eqn:F2; cbn [negb]; lia].
  replace (month a =? month b) with true by lia. cbn [negb].
  destruct (day b =? day a) eqn:E3; cbn [negb];
    [|destruct (day a =? day b) eqn:F3; cbn [negb]; lia].
  replace (day a =? day b) with true by lia. cbn [negb].
  destruct (hour b =? hour a) eqn:E4; cbn [negb];
    [|destruct (hour a =? hour b) eqn:F4; cbn [negb]; lia].
  replace (hour a =? hour b) with true by lia. cbn [negb].
  destruct (minute b =? minute a) eqn:E5; cbn [negb];
    [|destruct (minute a =? minute b) eqn:F5; cbn [negb]; lia].
  replace (minute a =? minute b) with true by lia. cbn [negb].
  lia.
Qed.

Lemma lexLt_trans a b c : Spec.lexLt a b -> Spec.lexLt b c -> Spec.lexLt a c.
Proof.
  destruct a as [[[[[? ?] ?] ?] ?] ?], b as [[[[[? ?] ?] ?] ?] ?],
    c as [[[[[? ?] ?] ?] ?] ?]. unfold Spec.lexLt. lia.
Qed.

Lemma lexLt_irrefl a : ~ Spec.lexLt a a.
Proof.
  destruct a as [[[[[? ?] ?] ?] ?] ?]. unfold Spec.lexLt. lia.
Qed.

Lemma lexLe_trans a b c : Spec.lexLe a b -> Spec.lexLe b c -> Spec.lexLe a c.
Proof.
  unfold Spec.lexLe. intros [H1| ->] [H2| <-]; auto.
  left. eapply lexLt_trans; eassumption.
Qed.

Lemma lexLt_le_trans a b c : Spec.lexLt a b -> Spec.lexLe b c -> Spec.lexLt a c.
Proof.
  unfold Spec.lexLe. intros H1 [H2| <-]; auto. eapply lexLt_trans; eassumption.
Qed.

Lemma dedupLoop_acc rows : forall acc last,
  dedupLoop rows acc last = acc ++ dedupLoop rows [] last.
Proof.
  induction rows as [|r rest IH]; intros acc last; cbn [dedupLoop].
  - now rewrite app_nil_r.
  - destruct last as [l|]; [destruct (differs r l)|].
    + rewrite (IH (acc ++ [r])), (IH ([] ++ [r])), <- app_assoc. reflexivity.
    + apply IH.
    + rewrite (IH (acc ++ [r])), (IH ([] ++ [r])), <- app_assoc. reflexivity.
Qed.

Lemma dedupLoop_cons_none r rest :
  dedupLoop (r :: rest) [] None = r :: dedupLoop rest [] (Some r).
Proof. cbn [dedupLoop app]. now rewrite dedupLoop_acc. Qed.

Lemma dedupLoop_cons_some r rest l :
  dedupLoop (r :: rest) [] (Some l) =
  if differs r l then r :: dedupLoop rest [] (Some r)
  else dedupLoop rest [] (Some l).
Proof.
  cbn [dedupLoop app]. destruct (differs r l); [now rewrite dedupLoop_acc|reflexivity].
Qed.

(** After a kept row [l], below everything still to come, the loop keeps
    rows above [l] in increasing order. *)
Lemma dedupLoop_increasing rows : forall l,
  Spec.nondecreasing rows ->
  Forall (fun x => Spec.lexLe (Spec.stamp l) (Spec.stamp x)) rows ->
  Spec.increasing (dedupLoop rows [] (Some l))
  /\ Forall (fun x => Spec.lexLt (Spec.stamp l) (Spec.stamp x))
            (dedupLoop rows [] (Some l)).
Proof.
  induction rows as [|r rest IH]; intros l Hs Hl.
  - split; constructor.
  - rewrite dedupLoop_cons_some.
    inversion Hs as [|? ? Hs' Hr]; subst. inversion Hl as [|? ? Hlr Hl']; subst.
    destruct (differs r l) eqn:Ed.
    + destruct (IH r Hs' Hr) as (Hinc & Habove).
      assert (Spec.lexLt (Spec.stamp l) (Spec.stamp r)) as Hlt.
      { destruct Hlr as [Hlt|Heq]; [assumption|].
        symmetry in Heq. apply differs_false in Heq. congruence. }
      split.
      * constructor; assumption.
      * constructor; [assumption|].
        eapply Forall_impl; [|exact Habove]. cbv beta.
        intros x Hx. eapply lexLt_trans; eassumption.
    + apply IH; assumption.
Qed.

Lemma dedupLoop_filter rows k : forall l,
  Spec.nondecreasing rows ->
  Forall (fun x => Spec.lexLe (Spec.stamp l) (Spec.stamp x)) rows ->
  filter (Spec.sameStamp k) (dedupLoop rows [] (Some l)) =
  if Spec.sameStamp k l then []
  else match find (Spec.sameStamp k) rows with
       | Some u => [u]
       | None => []
       end.
Proof.
  induction rows as [|r rest IH]; intros l Hs Hl.
  - cbn [dedupLoop filter find]. now destruct (Spec.sameStamp k l).
  - rewrite dedupLoop_cons_some.
    inversion Hs as [|? ? Hs' Hr]; subst. inversion Hl as [|? ? Hlr Hl']; subst.
    destruct (differs r l) eqn:Ed.
    + cbn [filter find]. rewrite (IH r Hs' Hr).
      destruct (Spec.sameStamp k r) eqn:Ekr.
      * destruct (Spec.sameStamp k l) eqn:Ekl; [|reflexivity].
        apply sameStamp_true in Ekr, Ekl.
        assert (differs r l = false) by (apply differs_false; congruence).
        congruence.
      * destruct (Spec.sameStamp k l) eqn:Ekl; [|reflexivity].
        (* everything kept from [rest] is above [r], which is above [l] *)
        destruct (dedupLoop_increasing rest r Hs' Hr) as (_ & Habove).
        apply sameStamp_true in Ekl.
        destruct (find (Spec.sameStamp k) rest) as [u|] eqn:Ef; [|reflexivity].
        exfalso. apply find_some in Ef as (Hin & Hku).
        apply sameStamp_true in Hku.
        assert (Spec.lexLt (Spec.stamp l) (Spec.stamp r)) as Hlt.
        { destruct Hlr as [Hlt|Heq]; [assumption|].
          symmetry in Heq. apply differs_false in Heq. congruence. }
        rewrite Forall_forall in Hr. specialize (Hr u Hin).
        rewrite <- Hku, Ekl in Hr.
        eapply lexLt_irrefl, lexLt_le_trans; eassumption.
    + rewrite (IH l Hs' Hl'). cbn [find].
      destruct (Spec.sameStamp k l) eqn:Ekl; [reflexivity|].
      destruct (Spec.sameStamp k r) eqn:Ekr; [|reflexivity].
      apply sameStamp_true in Ekr. apply differs_false in Ed.
      assert (Spec.sameStamp k l = true) by (apply sameStamp_true; congruence).
      congruence.
Qed.

Lemma swapLastTwo_stamp r : Spec.stamp (swapLastTwo r) = Spec.stamp r.
Proof.
  unfold swapLastTwo. destruct (_ =? _)%nat; reflexivity.
Qed.

Lemma sameStamp_swapLastTwo k r :
  Spec.sameStamp k (swapLastTwo r) = Spec.sameStamp k r.
Proof.
  destruct (Spec.sameStamp k r) eqn:E.
  - apply sameStamp_true. rewrite swapLastTwo_stamp. now apply sameStamp_true.
  - destruct (Spec.sameStamp k (swapLastTwo r)) eqn:E'; [|reflexivity].
    apply sameStamp_true in E'. rewrite swapLastTwo_stamp in E'.
    apply sameStamp_true in E'. congruence.
Qed.

Lemma filter_map_swapLastTwo k l :
  filter (Spec.sameStamp k) (map swapLastTwo l)
  = map swapLastTwo (filter (Spec.sameStamp k) l).
Proof.
  induction l as [|r l IH]; cbn [map filter]; [reflexivity|].
  rewrite sameStamp_swapLastTwo, IH. now destruct (Spec.sameStamp k r).
Qed.

Lemma increasing_map_swapLastTwo l :
  Spec.increasing l -> Spec.increasing (map swapLastTwo l).
Proof.
  induction 1 as [|r l Hs IH Hr]; cbn [map]; constructor; [assumption|].
  apply Forall_map. eapply Forall_impl; [|exact Hr]. cbv beta.
  intros x Hx. now rewrite !swapLastTwo_stamp.
Qed.

Lemma increasing_nondecreasing l : Spec.increasing l -> Spec.nondecreasing l.
Proof.
  induction 1 as [|r l Hs IH Hr]; constructor; [assumption|].
  eapply Forall_impl; [|exact Hr]. cbv beta. intros x Hx. now left.
Qed.

Lemma dedupLoop_incl rows : forall last x,
  In x (dedupLoop rows [] last) -> In x rows.
Proof.
  induction rows as [|r rest IH]; intros last x; [contradiction|].
  destruct last as [l|].
  - rewrite dedupLoop_cons_some. destruct (differs r l).
    + intros [<-|H]; [now left|right; eapply IH; eassumption].
    + intros H. right. eapply IH; eassumption.
  - rewrite dedupLoop_cons_none.
    intros [<-|H]; [now left|right; eapply IH; eassumption].
Qed.

Lemma sorted_nondecreasing l :
  StronglySorted (fun a b => comp b a = false) l -> Spec.nondecreasing l.
Proof.
  induction 1 as [|r l Hs IH Hr]; constructor; [assumption|].
  eapply Forall_impl; [|exact Hr]. cbv beta. intros x Hx. now apply comp_false.
Qed.

(** The dedup loop on a sorted range: increasing rows, one for every
    timestamp of the range, the first of the range with that timestamp. *)
Lemma dedupLoop_sorted rows :
  Spec.nondecreasing rows ->
  Spec.increasing (dedupLoop rows [] None)
  /\ forall k, filter (Spec.sameStamp k) (dedupLoop rows [] None)
               = match find (Spec.sameStamp k) rows with
                 | Some u => [u]
                 | None => []
                 end.
Proof.
  intros Hs. destruct rows as [|r rest].
  - split; [constructor|reflexivity].
  - rewrite dedupLoop_cons_none. inversion Hs as [|? ? Hs' Hr]; subst.
    destruct (dedupLoop_increasing rest r Hs' Hr) as (Hinc & Habove).
    split; [constructor; assumption|].
    intros k. cbn [filter find]. rewrite (dedupLoop_filter rest k r Hs' Hr).
    now destruct (Spec.sameStamp k r).
Qed.

Lemma find_sameStamp_in k l :
  In k l -> exists u, find (Spec.sameStamp k) l = Some u.
Proof.
  intros Hin. destruct (find (Spec.sameStamp k) l) as [u|] eqn:E; [eauto|].
  exfalso. pose proof (find_none _ _ E k Hin) as H.
  assert (Spec.sameStamp k k = true) by (now apply sameStamp_true). congruence.
Qed.

Section SerializerFacts.
Variable showFloat : spec_float -> string.
Variable sort : list Rec -> list Rec.
Hypothesis sort_permutation : forall l, Permutation (sort l) l.
Hypothesis sort_sorted :
  forall l, StronglySorted (fun a b => comp b a = false) (sort l).

(** C5.  Whatever rearrangement [std::sort] makes, as long as it sorts:
    the text [writeCsv] writes is the header followed by the lines of
    [dataRows]; these rows are in strictly increasing, hence
    non-decreasing, order of (year, month, day, hour, minute, second);
    and for every record [r] of the input the rows whose 6-tuple equals
    that of [r] are exactly one row: the first record [u] of the sorted
    range whose 6-tuple equals that of [r] (after the swap of its last two
    values), every other row having another 6-tuple.  Every row comes from
    the input. *)
Theorem csv_rows_sorted_and_unique (rowsIn : list Rec) :
  writeCsv showFloat sort true rowsIn
  = Ok (header ++ String.concat "" (map (renderRow showFloat) (dataRows sort rowsIn)))%string
  /\ Spec.increasing (dataRows sort rowsIn)
  /\ Spec.nondecreasing (dataRows sort rowsIn)
  /\ (forall r, In r rowsIn ->
      exists u, find (Spec.sameStamp r) (sort rowsIn) = Some u
                /\ Spec.stamp u = Spec.stamp r
                /\ filter (Spec.sameStamp r) (dataRows sort rowsIn) = [swapLastTwo u]
                /\ In (swapLastTwo u) (dataRows sort rowsIn)
                /\ (forall x, In x (dataRows sort rowsIn) ->
                      Spec.stamp x = Spec.stamp r -> x = swapLastTwo u))
  /\ (forall u, In u (uniqueRowsOf sort rowsIn) -> In u rowsIn).
Proof.
  pose proof (sorted_nondecreasing _ (sort_sorted rowsIn)) as Hnd.
  destruct (dedupLoop_sorted _ Hnd) as (Hinc & Hfilter).
  assert (Spec.increasing (dataRows sort rowsIn)) as Hinc'
    by (apply increasing_map_swapLastTwo, Hinc).
  split; [reflexivity|]. split; [exact Hinc'|].
  split; [now apply increasing_nondecreasing|]. split.
  - intros r Hr.
    destruct (find_sameStamp_in r (sort rowsIn)) as (u & Hu).
    { eapply Permutation_in; [apply Permutation_sym, sort_permutation|exact Hr]. }
    assert (filter (Spec.sameStamp r) (dataRows sort rowsIn) = [swapLastTwo u]) as Hf.
    { unfold dataRows, uniqueRowsOf. rewrite filter_map_swapLastTwo, Hfilter, Hu.
      reflexivity. }
    exists u. split; [exact Hu|]. split; [|split; [exact Hf|split]].
    + apply find_some in Hu. destruct Hu as [_ Hu].
      apply sameStamp_true in Hu. now symmetry.
    + assert (In (swapLastTwo u) (filter (Spec.sameStamp r) (dataRows sort rowsIn))) as Hin
          by (rewrite Hf; now left).
      now apply filter_In in Hin.
    + intros x Hx Ex.
      assert (In x (filter (Spec.sameStamp r) (dataRows sort rowsIn))) as Hin.
      { apply filter_In. split; [exact Hx|]. apply sameStamp_true. now symmetry. }
      rewrite Hf in Hin. destruct Hin as [<-|[]]. reflexivity.
  - intros u Hu. eapply Permutation_in; [apply sort_permutation|].
    eapply dedupLoop_incl, Hu.
Qed.
End SerializerFacts.

Lemma comp_asym a b : comp a b = true -> comp b a = false.
Proof.
  rewrite comp_true, comp_false. intros H. now left.
Qed.

Lemma insertSorted_perm r l : Permutation (insertSorted r l) (r :: l).
Proof.
  induction l as [|h t IH]; cbn [insertSorted]; [reflexivity|].
  destruct (comp h r); [|reflexivity].
  rewrite IH. apply perm_swap.
Qed.

Lemma insertionSort_perm l : Permutation (insertionSort l) l.
Proof.
  induction l as [|h t IH]; cbn [insertionSort]; [reflexivity|].
  rewrite insertSorted_perm. now constructor.
Qed.

Lemma insertSorted_sorted r l :
  StronglySorted (fun a b => comp b a = false) l ->
  StronglySorted (fun a b => comp b a = false) (insertSorted r l).
Proof.
  induction 1 as [|h t Hs IH Hh]; cbn [insertSorted].
  - constructor; constructor.
  - destruct (comp h r) eqn:E.
    + constructor; [assumption|].
      rewrite Forall_forall in *. intros x Hx.
      eapply Permutation_in in Hx; [|apply insertSorted_perm].
      destruct Hx as [<-|Hx]; [now apply comp_asym|now apply Hh].
    + constructor; [now constructor|].
      constructor; [assumption|].
      eapply Forall_impl; [|exact Hh]. cbv beta. intros x Hx.
      apply comp_false. apply comp_false in E, Hx.
      eapply lexLe_trans; eassumption.
Qed.

Lemma insertionSort_sorted l :
  StronglySorted (fun a b => comp b a = false) (insertionSort l).
Proof.
  induction l as [|h t IH]; cbn [insertionSort]; [constructor|].
  now apply insertSorted_sorted.
Qed.

Lemma csv_rows_sorted_and_unique_witness :
  Spec.increasing (dataRows insertionSort sampleRows)
  /\ exists u, find (Spec.sameStamp (nth 2 sampleRows (mkRec 0 0 0 0 0 0 "" "" [])))
                    (insertionSort sampleRows) = Some u
               /\ Spec.stamp u = Spec.stamp (nth 2 sampleRows (mkRec 0 0 0 0 0 0 "" "" []))
               /\ filter (Spec.sameStamp (nth 2 sampleRows (mkRec 0 0 0 0 0 0 "" "" [])))
                         (dataRows insertionSort sampleRows) = [swapLastTwo u]
               /\ In (swapLastTwo u) (dataRows insertionSort sampleRows)
               /\ (forall x, In x (dataRows insertionSort sampleRows) ->
                     Spec.stamp x = Spec.stamp (nth 2 sampleRows (mkRec 0 0 0 0 0 0 "" "" [])) ->
                     x = swapLastTwo u).
Proof.
  destruct (csv_rows_sorted_and_unique (fun _ => "x") insertionSort
              insertionSort_perm insertionSort_sorted sampleRows)
    as (_ & Hinc & _ & Hone & _).
  split; [exact Hinc|].
  apply Hone. vm_compute. right. right. left. reflexivity.
Defined.

(** ** The swap of the last two values *)

Lemma showFloats_concat showFloat v :
  showFloats showFloat v = String.concat "," (map showFloat v).
Proof.
  induction v as [|f [|g rest] IH]; cbn [showFloats map String.concat]; try reflexivity.
  cbn [showFloats map String.concat] in IH. now rewrite IH.
Qed.

Lemma swapped_other (v : list spec_float) :
  List.length v <> 13%nat -> Spec.swapped v = v.
Proof.
  intros Hlen. unfold Spec.swapped.
  do 13 (destruct v as [|? v]; [reflexivity|]).
  destruct v; [|reflexivity]. now contradiction Hlen.
Qed.

Lemma length13 {A} (v : list A) :
  List.length v = 13%nat ->
  exists f0 f1 f2 f3 f4 f5 f6 f7 f8 f9 f10 f11 f12,
    v = [f0; f1; f2; f3; f4; f5; f6; f7; f8; f9; f10; f11; f12].
Proof.
  intros Hlen.
  do 13 (destruct v as [|? v]; [discriminate|]).
  destruct v; [|discriminate]. repeat eexists.
Qed.

(** The line the loop of [writeCsv] makes of a unique row: the guarded
    swap, then the date, the time and the values. *)
Lemma renderRow_swapLastTwo showFloat (u : Rec) :
  renderRow showFloat (swapLastTwo u) = Spec.lineOf showFloat u.
Proof.
  unfold renderRow, Spec.lineOf. rewrite showFloats_concat.
  unfold swapLastTwo.
  destruct (Nat.eqb_spec (List.length (floatValues u)) 13) as [Hlen|Hlen].
  - destruct (length13 _ Hlen)
      as (f0 & f1 & f2 & f3 & f4 & f5 & f6 & f7 & f8 & f9 & f10 & f11 & f12 & Hv).
    unfold setFloatValues. cbn [dateStr timeStr floatValues].
    rewrite Hv. reflexivity.
  - now rewrite swapped_other.
Qed.

(** C9.  The text [writeCsv] writes is the header followed by one line
    for each unique row, in their order: the date, the time and the texts
    of the values, where for a record with exactly 13 float values
    [f0 .. f12] the values at positions 11 and 12 have changed places, so
    that the 12th and the 13th value column of the line are the texts of
    [f12] and of [f11]; a record with another number of values is written
    with its values in their own order.  In the code this is the guarded
    swap [swapLastTwo] before the rendering.  When [std::sort] sorts,
    every record of the input has its timestamp among the unique rows, and
    every unique row is a record of the input. *)
Theorem last_two_values_swapped (showFloat : spec_float -> string)
        (sort : list Rec -> list Rec) (rowsIn : list Rec) (r : Rec) :
  writeCsv showFloat sort true rowsIn
  = Ok (header ++ String.concat ""
          (map (Spec.lineOf showFloat) (uniqueRowsOf sort rowsIn)))%string
  /\ writeCsv showFloat sort true rowsIn
     = Ok (header ++ String.concat ""
             (map (fun u => renderRow showFloat (swapLastTwo u))
                  (uniqueRowsOf sort rowsIn)))%string
  /\ dataRows sort rowsIn = map swapLastTwo (uniqueRowsOf sort rowsIn)
  /\ ((forall l, Permutation (sort l) l) ->
      (forall l, StronglySorted (fun a b => comp b a = false) (sort l)) ->
      (forall x, In x rowsIn ->
         exists u, In u (uniqueRowsOf sort rowsIn) /\ Spec.stamp u = Spec.stamp x)
      /\ (forall u, In u (uniqueRowsOf sort rowsIn) -> In u rowsIn))
  /\ (forall f0 f1 f2 f3 f4 f5 f6 f7 f8 f9 f10 f11 f12,
       floatValues r = [f0; f1; f2; f3; f4; f5; f6; f7; f8; f9; f10; f11; f12] ->
       Spec.lineOf showFloat r
       = (dateStr r ++ "," ++ timeStr r ++ ","
          ++ String.concat ","
               [showFloat f0; showFloat f1; showFloat f2; showFloat f3;
                showFloat f4; showFloat f5; showFloat f6; showFloat f7;
                showFloat f8; showFloat f9; showFloat f10;
                showFloat f12; showFloat f11] ++ "
")%string
       /\ floatValues (swapLastTwo r)
          = [f0; f1; f2; f3; f4; f5; f6; f7; f8; f9; f10; f12; f11]
       /\ nth 11 (Spec.valueColumns showFloat (swapLastTwo r)) "" = showFloat f12
       /\ nth 12 (Spec.valueColumns showFloat (swapLastTwo r)) "" = showFloat f11
       /\ renderRow showFloat (swapLastTwo r)
          = (dateStr r ++ "," ++ timeStr r ++ ","
             ++ String.concat "," (Spec.valueColumns showFloat (swapLastTwo r)) ++ "
")%string)
  /\ (List.length (floatValues r) <> 13%nat ->
      swapLastTwo r = r
      /\ Spec.lineOf showFloat r
         = (dateStr r ++ "," ++ timeStr r ++ ","
            ++ String.concat "," (map showFloat (floatValues r)) ++ "
")%string).
Proof.
  assert (writeCsv showFloat sort true rowsIn
          = Ok (header ++ String.concat ""
                  (map (fun u => renderRow showFloat (swapLastTwo u))
                       (uniqueRowsOf sort rowsIn)))%string) as Hw.
  { unfold writeCsv, dataRows. cbn [negb]. now rewrite map_map. }
  split; [|split; [exact Hw|split; [reflexivity|split; [|split]]]].
  - rewrite Hw. do 3 f_equal. apply map_ext. intros u.
    apply renderRow_swapLastTwo.
  - intros Hperm Hsorted. split.
    + intros x Hx.
      assert (In x (sort rowsIn)) as Hs
          by (eapply Permutation_in; [symmetry; apply Hperm|exact Hx]).
      destruct (find_sameStamp_in x (sort rowsIn) Hs) as (u & Hu).
      pose proof (proj2 (dedupLoop_sorted (sort rowsIn)
                    (sorted_nondecreasing _ (Hsorted rowsIn))) x) as Hf.
      rewrite Hu in Hf.
      assert (In u (filter (Spec.sameStamp x) (dedupLoop (sort rowsIn) [] None))) as Hin
          by (rewrite Hf; now left).
      apply filter_In in Hin. destruct Hin as [Hin Hsame].
      exists u. split; [exact Hin|].
      apply sameStamp_true in Hsame. now symmetry.
    + intros u Hu. eapply Permutation_in; [apply Hperm|].
      eapply dedupLoop_incl, Hu.
  - intros f0 f1 f2 f3 f4 f5 f6 f7 f8 f9 f10 f11 f12 Hv.
    assert (floatValues (swapLastTwo r)
            = [f0; f1; f2; f3; f4; f5; f6; f7; f8; f9; f10; f12; f11]) as E.
    { unfold swapLastTwo. rewrite Hv. reflexivity. }
    split; [unfold Spec.lineOf; rewrite Hv; reflexivity|].
    split; [exact E|].
    unfold Spec.valueColumns. rewrite E. split; [reflexivity|]. split; [reflexivity|].
    unfold renderRow. rewrite showFloats_concat, E.
    unfold swapLastTwo. rewrite Hv. reflexivity.
  - intros Hlen. split.
    + unfold swapLastTwo.
      destruct (Nat.eqb_spec (List.length (floatValues r)) 13); [contradiction|reflexivity].
    + unfold Spec.lineOf. now rewrite swapped_other.
Qed.

Lemma last_two_values_swapped_witness :
  writeCsv (fun _ => "x") insertionSort true sampleRows
  = Ok (header ++ String.concat ""
          (map (Spec.lineOf (fun _ => "x")) (uniqueRowsOf insertionSort sampleRows)))%string
  /\ floatValues (swapLastTwo (nth 0 sampleRows (mkRec 0 0 0 0 0 0 "" "" [])))
     = [S754_finite false 8724152 (-26); S754_finite false 8388608 (-23);
        S754_finite false 13170115 (-22); S754_zero false; S754_zero false;
        S754_zero false; S754_zero false; S754_zero false; S754_zero false;
        S754_zero false; S754_zero false;
        S754_finite false 10485760 (-22); S754_finite false 12582912 (-23)]
  /\ swapLastTwo (mkRec 2025 1 10 13 30 45 "2025/01/10" "13:30:45" [S754_nan])
     = mkRec 2025 1 10 13 30 45 "2025/01/10" "13:30:45" [S754_nan]
  /\ (exists u, In u (uniqueRowsOf insertionSort sampleRows)
                /\ Spec.stamp u
                   = Spec.stamp (nth 2 sampleRows (mkRec 0 0 0 0 0 0 "" "" []))).
Proof.
  split; [|split; [|split]]; cycle 3.
  - destruct (last_two_values_swapped (fun _ => "x") insertionSort sampleRows
                (mkRec 0 0 0 0 0 0 "" "" []))
      as (_ & _ & _ & Hall & _).
    apply (Hall insertionSort_perm insertionSort_sorted).
    vm_compute. right. right. left. reflexivity.
  - apply (last_two_values_swapped (fun _ => "x") insertionSort sampleRows
             (mkRec 0 0 0 0 0 0 "" "" [])).
  - destruct (last_two_values_swapped (fun _ => "x") insertionSort sampleRows
                (nth 0 sampleRows (mkRec 0 0 0 0 0 0 "" "" [])))
      as (_ & _ & _ & _ & H13 & _).
    apply (H13 (S754_finite false 8724152 (-26)) (S754_finite false 8388608 (-23))
               (S754_finite false 13170115 (-22)) (S754_zero false) (S754_zero false)
               (S754_zero false) (S754_zero false) (S754_zero false) (S754_zero false)
               (S754_zero false) (S754_zero false)
               (S754_finite false 12582912 (-23)) (S754_finite false 10485760 (-22))).
    reflexivity.
  - destruct (last_two_values_swapped (fun _ => "x") insertionSort sampleRows
                (mkRec 2025 1 10 13 30 45 "2025/01/10" "13:30:45" [S754_nan]))
      as (_ & _ & _ & _ & _ & Hother).
    apply Hother. cbn. lia.
Defined.

(** ** Rounding to two decimal places *)

(** *** Binary digits *)

Lemma digits2_pos_bounds p :
  2 ^ (Zpos (digits2_pos p) - 1) <= Zpos p < 2 ^ Zpos (digits2_pos p).
Proof.
  induction p as [p IH|p IH|]; cbn [digits2_pos].
  - rewrite Pos2Z.inj_succ.
    replace (Z.succ (Zpos (digits2_pos p)) - 1) with (Z.succ (Zpos (digits2_pos p) - 1)) by lia.
    rewrite !Z.pow_succ_r by lia. lia.
  - rewrite Pos2Z.inj_succ.
    replace (Z.succ (Zpos (digits2_pos p)) - 1) with (Z.succ (Zpos (digits2_pos p) - 1)) by lia.
    rewrite !Z.pow_succ_r by lia. lia.
  - cbn. lia.
Qed.

Lemma digits2_pos_unique p k :
  2 ^ (k - 1) <= Zpos p < 2 ^ k -> Zpos (digits2_pos p) = k.
Proof.
  intros Hk. pose proof (digits2_pos_bounds p) as Hd.
  set (d := Zpos (digits2_pos p)) in *.
  assert (0 < d) by (subst d; lia).
  destruct (Z_lt_le_dec k 1).
  { destruct (Z_lt_le_dec k 0).
    - rewrite (Z.pow_neg_r 2 k) in Hk by lia. lia.
    - assert (k = 0) as -> by lia. cbn in Hk. lia. }
  destruct (Z.lt_trichotomy d k) as [Hlt|[Heq|Hgt]]; [|exact Heq|].
  - assert (2 ^ d <= 2 ^ (k - 1)) by (apply Z.pow_le_mono_r; lia). lia.
  - assert (2 ^ k <= 2 ^ (d - 1)) by (apply Z.pow_le_mono_r; lia). lia.
Qed.

(** *** Shifting with round and sticky bits *)

Lemma shr_1_Loc A B mrs :
  0 <= A -> 0 < B -> Loc A B mrs -> Loc A (2 * B) (shr_1 mrs).
Proof.
  intros HA HB (Hm & Hr & Hs). destruct mrs as [m r s]. cbn [shr_m shr_r shr_s] in *.
  pose proof (Z.div_mod A B ltac:(lia)) as Hdm.
  pose proof (Z.mod_pos_bound A B HB) as Hrem.
  set (q := A / B) in *. set (rem := A mod B) in *.
  assert (forall q' rem', A = 2 * B * q' + rem' -> 0 <= rem' < 2 * B ->
                          A / (2 * B) = q' /\ A mod (2 * B) = rem') as Huniq.
  { intros q' rem' E Hb. split.
    - symmetry. apply (Z.div_unique A (2 * B) q' rem'); [lia|exact E].
    - symmetry. apply (Z.mod_unique A (2 * B) q' rem'); [lia|exact E]. }
  assert (0 <= q) by (apply Z.div_pos; lia).
  unfold Loc, shr_1.
  destruct m as [|[p|p|]|p]; cbn [shr_m shr_r shr_s]; [| | | |lia].
  - destruct (Huniq 0 rem) as (-> & ->); [lia|lia|]. lia.
  - destruct (Huniq (Zpos p) (B + rem)) as (-> & ->); [lia|lia|]. lia.
  - destruct (Huniq (Zpos p) rem) as (-> & ->); [lia|lia|]. lia.
  - destruct (Huniq 0 (B + rem)) as (-> & ->); [lia|lia|]. lia.
Qed.

Lemma iter_shr_1_Loc A p : forall B mrs,
  0 <= A -> 0 < B -> Loc A B mrs -> Loc A (B * 2 ^ Zpos p) (iter_pos shr_1 p mrs).
Proof.
  induction p as [p IH|p IH|]; intros B mrs HA HB HL; cbn [iter_pos].
  - replace (B * 2 ^ Zpos p~1) with (2 * B * 2 ^ Zpos p * 2 ^ Zpos p)
      by (replace (Zpos p~1) with (Zpos p + Zpos p + 1) by lia;
          rewrite !Z.pow_add_r by lia; lia).
    apply IH; [lia|nia|]. apply IH; [lia|lia|]. now apply shr_1_Loc.
  - replace (B * 2 ^ Zpos p~0) with (B * 2 ^ Zpos p * 2 ^ Zpos p)
      by (replace (Zpos p~0) with (Zpos p + Zpos p) by lia;
          rewrite !Z.pow_add_r by lia; lia).
    apply IH; [lia|nia|]. now apply IH.
  - replace (B * 2 ^ 1) with (2 * B) by lia. now apply shr_1_Loc.
Qed.

Lemma shr_Loc A B mrs e n :
  0 <= A -> 0 < B -> 0 <= n -> Loc A B mrs ->
  Loc A (B * 2 ^ n) (fst (shr mrs e n)) /\ snd (shr mrs e n) = e + n.
Proof.
  intros HA HB Hn HL. unfold shr. destruct n as [|p|p]; cbn [fst snd]; try lia.
  - rewrite Z.mul_1_r. split; [assumption|lia].
  - split; [now apply iter_shr_1_Loc|reflexivity].
Qed.

Lemma round_nearest_even_Loc A B mrs :
  0 <= A -> 0 < B -> Loc A B mrs ->
  let mr := round_nearest_even (shr_m mrs) (loc_of_shr_record mrs) in
  (mr = A / B \/ mr = A / B + 1)
  /\ 2 * Z.abs (mr * B - A) <= B
  /\ (A mod B = 0 -> mr = A / B).
Proof.
  intros HA HB (Hm & Hr & Hs). destruct mrs as [m r s]. cbn [shr_m shr_r shr_s] in *.
  pose proof (Z.div_mod A B ltac:(lia)) as Hdm.
  pose proof (Z.mod_pos_bound A B HB) as Hrem.
  set (q := A / B) in *. set (rem := A mod B) in *.
  subst m. cbv zeta. unfold loc_of_shr_record, round_nearest_even.
  destruct r, s; try destruct (Z.even q); nia.
Qed.

Section RoundAux.
Variables prec emax : Z.
Hypothesis prec_pos : 0 < prec.

Lemma binary_round_aux_eq sx mx ex lx :
  binary_round_aux prec emax sx mx ex lx =
  let s1 := shr_fexp prec emax mx ex lx in
  let mr := round_nearest_even (shr_m (fst s1)) (loc_of_shr_record (fst s1)) in
  let s2 := shr_fexp prec emax mr (snd s1) loc_Exact in
  match shr_m (fst s2) with
  | 0 => S754_zero sx
  | Zpos m => if snd s2 <=? emax - prec then S754_finite sx m (snd s2)
              else S754_infinity sx
  | Zneg _ => S754_nan
  end.
Proof.
  unfold binary_round_aux. destruct (shr_fexp prec emax mx ex lx) as [mrs1 e1].
  cbn [fst snd]. cbv zeta.
  destruct (shr_fexp prec emax _ e1 loc_Exact) as [mrs2 e2]. reflexivity.
Qed.

Lemma Loc_exact m : Loc m 1 (shr_record_of_loc m loc_Exact).
Proof.
  unfold Loc. cbn [shr_record_of_loc shr_m shr_r shr_s].
  rewrite Z.div_1_r, Z.mod_1_r. repeat split.
Qed.

(** Rounding a mantissa of at least [prec] digits, away from the
    subnormal range and from overflow: the result is a normal number
    within half a unit in the last place of the exact value [A / B] (in
    units of [2 ^ ex]). *)
Lemma binary_round_aux_normal sx mx ex lx A B :
  0 < mx -> 0 <= A -> 0 < B ->
  Loc A B (shr_record_of_loc mx lx) ->
  prec <= Zdigits2 mx ->
  emin prec emax <= Zdigits2 mx + ex - prec ->
  Zdigits2 mx + ex - prec <= emax - prec ->
  (Zdigits2 mx + ex - prec + 1 <= emax - prec
   \/ 2 * A + B * 2 ^ (Zdigits2 mx - prec) < 2 * 2 ^ prec * (B * 2 ^ (Zdigits2 mx - prec))) ->
  exists m' e',
    binary_round_aux prec emax sx mx ex lx = S754_finite sx m' e'
    /\ 2 ^ (prec - 1) <= Zpos m' < 2 ^ prec
    /\ (e' = Zdigits2 mx + ex - prec \/ e' = Zdigits2 mx + ex - prec + 1)
    /\ 2 * Z.abs (Zpos m' * 2 ^ (e' - ex) * B - A) <= B * 2 ^ (Zdigits2 mx - prec).
Proof.
  intros Hmx HA HB HL Hd Hmin Hmax Hcarry.
  set (d := Zdigits2 mx) in *.
  set (n1 := d - prec). set (e1 := d + ex - prec) in *.
  assert (mx = A / B) as HmxA by (destruct HL as (E & _); destruct lx as [|[]]; exact E).
  assert (2 ^ (d - 1) <= mx < 2 ^ d) as Hdig.
  { subst d. destruct mx as [|p|p]; try lia. apply digits2_pos_bounds. }
  rewrite binary_round_aux_eq.
  (* first shift *)
  assert (fexp prec emax (d + ex) = e1) as Hf1 by (unfold fexp; subst e1; lia).
  destruct (shr_Loc A B (shr_record_of_loc mx lx) ex n1 HA HB ltac:(subst n1; lia) HL)
    as (HL1 & He1).
  assert (shr_fexp prec emax mx ex lx
          = (fst (shr (shr_record_of_loc mx lx) ex n1), e1)) as Hs1.
  { unfold shr_fexp. fold d. rewrite Hf1.
    replace (e1 - ex) with n1 by (subst e1 n1; lia).
    rewrite (surjective_pairing (shr _ _ _)) at 1. rewrite He1.
    f_equal. subst e1 n1. lia. }
  rewrite Hs1. cbn [fst snd]. clear Hs1 He1.
  set (mrs1 := fst (shr (shr_record_of_loc mx lx) ex n1)) in *.
  assert (0 < 2 ^ n1) as Hp1 by (apply Z.pow_pos_nonneg; subst n1; lia).
  set (B1 := B * 2 ^ n1) in *.
  assert (0 < B1) as HB1 by (subst B1; nia).
  (* the shifted mantissa has [prec] digits *)
  assert (2 ^ (prec - 1) <= A / B1 < 2 ^ prec) as Hm1.
  { subst B1. rewrite <- Z.div_div by lia. rewrite <- HmxA.
    assert (2 ^ (d - 1) = 2 ^ (prec - 1) * 2 ^ n1) as E1
      by (rewrite <- Z.pow_add_r by (subst n1; lia); f_equal; subst n1; lia).
    assert (2 ^ d = 2 ^ prec * 2 ^ n1) as E2
      by (rewrite <- Z.pow_add_r by (subst n1; lia); f_equal; subst n1; lia).
    split.
    - apply Z.div_le_lower_bound; lia.
    - apply Z.div_lt_upper_bound; lia. }
  (* rounding *)
  destruct (round_nearest_even_Loc A B1 mrs1 HA HB1 HL1) as (Hmr & Herr & _).
  cbv zeta.
  set (mr := round_nearest_even (shr_m mrs1) (loc_of_shr_record mrs1)) in *.
  assert (0 < 2 ^ (prec - 1)) as Hpp by (apply Z.pow_pos_nonneg; lia).
  assert (2 ^ prec = 2 * 2 ^ (prec - 1)) as Hp2
    by (rewrite <- Z.pow_succ_r by lia; f_equal; lia).
  assert (2 ^ (prec - 1) <= mr <= 2 ^ prec) as Hmrb by lia.
  (* second shift *)
  destruct (Z_lt_le_dec mr (2 ^ prec)) as [Hlt|Hge].
  - (* no carry *)
    assert (Zdigits2 mr = prec) as Hdr.
    { destruct mr as [|p|p]; try lia. apply digits2_pos_unique. lia. }
    assert (shr_fexp prec emax mr e1 loc_Exact
            = (shr_record_of_loc mr loc_Exact, e1)) as ->.
    { unfold shr_fexp. rewrite Hdr.
      assert (fexp prec emax (prec + e1) = e1) as -> by (unfold fexp; lia).
      rewrite Z.sub_diag. reflexivity. }
    cbn [fst snd shr_record_of_loc shr_m].
    destruct mr as [|p|p]; try lia.
    exists p, e1.
    destruct (Z.leb_spec e1 (emax - prec)); [|lia].
    split; [reflexivity|]. split; [lia|]. split; [now left|].
    replace (e1 - ex) with n1 by (subst e1 n1; lia).
    replace (Zpos p * 2 ^ n1 * B) with (Zpos p * B1) by (subst B1; lia).
    exact Herr.
  - (* the mantissa has become [2 ^ prec] *)
    assert (mr = 2 ^ prec) as Emr by lia.
    assert (e1 + 1 <= emax - prec) as Hmax'.
    { destruct Hcarry as [Hc|Hc]; [exact Hc|]. exfalso.
      fold d in Hc. fold n1 in Hc. fold B1 in Hc. nia. }
    assert (Zdigits2 mr = prec + 1) as Hdr.
    { destruct mr as [|p|p]; try lia. apply digits2_pos_unique.
      replace (prec + 1 - 1) with prec by lia.
      rewrite Z.pow_add_r by lia. lia. }
    destruct (shr_Loc mr 1 (shr_record_of_loc mr loc_Exact) e1 1
                      ltac:(lia) ltac:(lia) ltac:(lia) (Loc_exact mr)) as (HL2 & He2).
    assert (shr_fexp prec emax mr e1 loc_Exact
            = (fst (shr (shr_record_of_loc mr loc_Exact) e1 1), e1 + 1)) as ->.
    { unfold shr_fexp. rewrite Hdr.
      assert (fexp prec emax (prec + 1 + e1) = e1 + 1) as -> by (unfold fexp; lia).
      replace (e1 + 1 - e1) with 1 by lia.
      rewrite (surjective_pairing (shr _ _ _)) at 1. now rewrite He2. }
    cbn [fst snd]. destruct HL2 as (Hm2 & _). rewrite Hm2.
    replace (1 * 2 ^ 1) with 2 by reflexivity.
    assert (mr / 2 = 2 ^ (prec - 1)) as -> by (rewrite Emr, Hp2, Z.mul_comm, Z.div_mul; lia).
    destruct (2 ^ (prec - 1)) as [|p|p] eqn:Ep; try lia.
    exists p, (e1 + 1).
    destruct (Z.leb_spec (e1 + 1) (emax - prec)); [|lia].
    split; [reflexivity|]. split; [lia|]. split; [now right|].
    replace (e1 + 1 - ex) with (n1 + 1) by (subst e1 n1; lia).
    rewrite Z.pow_add_r by (subst n1; lia).
    replace (Zpos p * (2 ^ n1 * 2 ^ 1) * B) with (mr * B1) by (subst B1; lia).
    exact Herr.
Qed.

Lemma iter_xO_pow mx d : Zpos (Pos.iter xO mx d) = Zpos mx * 2 ^ Zpos d.
Proof.
  revert mx. induction d as [|d IH] using Pos.peano_ind; intros mx.
  - cbn [Pos.iter]. rewrite Z.pow_1_r. lia.
  - rewrite Pos.iter_succ. rewrite Pos2Z.inj_succ, Z.pow_succ_r by lia.
    rewrite Pos2Z.inj_xO, IH. lia.
Qed.

(** [binary_round] of a mantissa of at most [prec] digits: the value is
    kept and the mantissa is filled up to [prec] digits. *)
Lemma binary_round_small sx mx ex :
  let d := Zpos (digits2_pos mx) in
  d <= prec ->
  emin prec emax <= d + ex - prec ->
  d + ex - prec <= emax - prec ->
  exists m',
    binary_round prec emax sx mx ex = S754_finite sx m' (d + ex - prec)
    /\ Zpos m' = Zpos mx * 2 ^ (prec - d)
    /\ 2 ^ (prec - 1) <= Zpos m' < 2 ^ prec.
Proof.
  intros d Hd Hmin Hmax. pose proof (digits2_pos_bounds mx) as Hdig. fold d in Hdig.
  unfold binary_round. fold d.
  assert (fexp prec emax (d + ex) = d + ex - prec) as -> by (unfold fexp; lia).
  assert (exists mz, shl_align mx ex (d + ex - prec) = (mz, d + ex - prec)
                     /\ Zpos mz = Zpos mx * 2 ^ (prec - d)) as (mz & -> & Hmz).
  { unfold shl_align. destruct (d + ex - prec - ex) as [|p|p] eqn:E; try lia.
    - exists mx. split; [f_equal; lia|].
      replace (prec - d) with 0 by lia. lia.
    - exists (Pos.iter xO mx p). split; [reflexivity|].
      rewrite iter_xO_pow. f_equal. f_equal. lia. }
  assert (2 ^ (prec - 1) <= Zpos mz < 2 ^ prec) as Hmzb.
  { rewrite Hmz.
    assert (2 ^ (prec - 1) = 2 ^ (d - 1) * 2 ^ (prec - d)) as ->
      by (rewrite <- Z.pow_add_r by lia; f_equal; lia).
    assert (2 ^ prec = 2 ^ d * 2 ^ (prec - d)) as ->
      by (rewrite <- Z.pow_add_r by lia; f_equal; lia).
    assert (0 < 2 ^ (prec - d)) by (apply Z.pow_pos_nonneg; lia). nia. }
  assert (Zdigits2 (Zpos mz) = prec) as Hdz by (apply digits2_pos_unique; exact Hmzb).
  destruct (binary_round_aux_normal sx (Zpos mz) (d + ex - prec) loc_Exact (Zpos mz) 1)
    as (m' & e' & -> & Hm' & He' & Herr);
    rewrite ?Hdz; try lia.
  { apply Loc_exact. }
  { right. rewrite Z.sub_diag. lia. }
  rewrite Hdz, Z.sub_diag in Herr. rewrite Hdz in He'.
  assert (0 < 2 ^ (prec - 1)) as Hpp by (apply Z.pow_pos_nonneg; lia).
  assert (2 ^ prec = 2 * 2 ^ (prec - 1)) as Hp2
    by (rewrite <- Z.pow_succ_r by lia; f_equal; lia).
  destruct He' as [->| ->].
  - replace (prec + (d + ex - prec) - prec - (d + ex - prec)) with 0 in Herr by lia.
    rewrite !Z.pow_0_r in Herr.
    exists m'. split; [f_equal; lia|]. split; lia.
  - exfalso.
    replace (prec + (d + ex - prec) - prec + 1 - (d + ex - prec)) with 1 in Herr by lia.
    rewrite ?Z.pow_0_r, ?Z.pow_1_r in Herr. lia.
Qed.

(** [binary_round] of a mantissa of at least [prec] digits rounds it. *)
Lemma binary_round_large sx mx ex :
  let d := Zpos (digits2_pos mx) in
  prec <= d ->
  emin prec emax <= d + ex - prec ->
  d + ex - prec <= emax - prec ->
  (d + ex - prec + 1 <= emax - prec
   \/ 2 * Zpos mx + 2 ^ (d - prec) < 2 * 2 ^ prec * 2 ^ (d - prec)) ->
  exists m' e',
    binary_round prec emax sx mx ex = S754_finite sx m' e'
    /\ 2 ^ (prec - 1) <= Zpos m' < 2 ^ prec
    /\ (e' = d + ex - prec \/ e' = d + ex - prec + 1)
    /\ 2 * Z.abs (Zpos m' * 2 ^ (e' - ex) - Zpos mx) <= 2 ^ (d - prec).
Proof.
  intros d Hd Hmin Hmax Hcarry.
  unfold binary_round. fold d.
  assert (fexp prec emax (d + ex) = d + ex - prec) as -> by (unfold fexp; lia).
  assert (shl_align mx ex (d + ex - prec) = (mx, ex)) as ->.
  { unfold shl_align. destruct (d + ex - prec - ex) as [|p|p] eqn:E; try lia; reflexivity. }
  destruct (binary_round_aux_normal sx (Zpos mx) ex loc_Exact (Zpos mx) 1)
    as (m' & e' & -> & Hm' & He' & Herr); cbn [Zdigits2]; fold d; try lia.
  { apply Loc_exact. }
  exists m', e'. cbn [Zdigits2] in *. fold d in He', Herr.
  split; [reflexivity|]. split; [exact Hm'|]. split; [exact He'|].
  rewrite Z.mul_1_r, Z.mul_1_l in Herr. exact Herr.
Qed.
End RoundAux.

Lemma new_location_Loc A B :
  0 <= A -> 0 < B ->
  Loc A B (shr_record_of_loc (A / B) (new_location B (A mod B))).
Proof.
  intros HA HB. pose proof (Z.mod_pos_bound A B HB) as Hrem.
  set (rem := A mod B) in *.
  unfold new_location, new_location_even, new_location_odd.
  destruct (Z.even B) eqn:Ev.
  - destruct (Z.eqb_spec rem 0) as [E0|N0].
    + unfold Loc. cbn [shr_record_of_loc shr_m shr_r shr_s]. fold rem. lia.
    + destruct (Z.compare_spec (2 * rem) B); unfold Loc;
        cbn [shr_record_of_loc shr_m shr_r shr_s]; fold rem; lia.
  - assert (2 * rem <> B).
    { intros E. rewrite <- E, Z.even_mul in Ev. discriminate. }
    destruct (Z.eqb_spec rem 0) as [E0|N0].
    + unfold Loc. cbn [shr_record_of_loc shr_m shr_r shr_s]. fold rem. lia.
    + destruct (Z.compare_spec (2 * rem + 1) B); unfold Loc;
        cbn [shr_record_of_loc shr_m shr_r shr_s]; fold rem; lia.
Qed.

(** *** The steps of [round2] *)

Lemma d100_eq : d100 = S754_finite false M100 (-46).
Proof. vm_compute. reflexivity. Qed.

Lemma float_of_bits_finite w s m e :
  float_of_bits w = S754_finite s m e ->
  Zpos m < 2 ^ 24 /\ -149 <= e <= 104 /\ (-149 < e -> 2 ^ 23 <= Zpos m).
Proof.
  unfold float_of_bits.
  replace (Z.land (Z.shiftr w 23) 0xFF) with (Z.shiftr w 23 mod 2 ^ 8)
    by (symmetry; apply (Z.land_ones _ 8); lia).
  replace (Z.land w 0x7FFFFF) with (w mod 2 ^ 23)
    by (symmetry; apply (Z.land_ones _ 23); lia).
  pose proof (Z.mod_pos_bound (Z.shiftr w 23) (2 ^ 8) ltac:(lia)) as He.
  pose proof (Z.mod_pos_bound w (2 ^ 23) ltac:(lia)) as Hm.
  remember (Z.shiftr w 23 mod 2 ^ 8) as be eqn:be0.
  remember (w mod 2 ^ 23) as fr eqn:fr0.
  remember (Z.testbit w 31) as sg eqn:sg0. clear sg0.
  destruct (Z.eqb_spec be 0).
  - destruct fr as [|p|p]; try discriminate.
    intros H. injection H as <- <- <-. lia.
  - destruct (Z.eqb_spec be 255).
    + destruct (fr =? 0); discriminate.
    + remember (fr + 2 ^ 23) as z eqn:Efr. clear w be0 fr0.
      destruct z as [|p|p]; try discriminate.
      intros H. injection H as <- <- <-. lia.
Qed.

(** The integer nearest to a ratio, a half going up, does not depend on
    the fraction that stands for the ratio. *)
Lemma nearest_ratio N1 D1 N2 D2 :
  0 < D1 -> 0 < D2 -> N1 * D2 = N2 * D1 ->
  (2 * N1 + D1) / (2 * D1) = (2 * N2 + D2) / (2 * D2).
Proof.
  intros H1 H2 E.
  rewrite <- (Z.div_mul_cancel_r (2 * N1 + D1) (2 * D1) D2) by lia.
  rewrite <- (Z.div_mul_cancel_r (2 * N2 + D2) (2 * D2) D1) by lia.
  f_equal; nia.
Qed.

Lemma roundAwayZ_nearest m e :
  roundAwayZ m e
  = (2 * (Zpos m * 2 ^ Z.max e 0) + 2 ^ Z.max (- e) 0) / (2 * 2 ^ Z.max (- e) 0).
Proof.
  unfold roundAwayZ. destruct (Z.leb_spec 0 e).
  - rewrite (Z.max_l e 0), (Z.max_r (- e) 0) by lia. rewrite Z.pow_0_r.
    apply (Z.div_unique _ _ _ 1); lia.
  - rewrite (Z.max_r e 0), (Z.max_l (- e) 0) by lia. rewrite Z.pow_0_r, Z.mul_1_r.
    assert (0 < 2 ^ (- e)) as HD by (apply Z.pow_pos_nonneg; lia).
    set (D := 2 ^ (- e)) in *.
    pose proof (Z.div_mod (Zpos m) D ltac:(lia)) as Hdm.
    pose proof (Z.mod_pos_bound (Zpos m) D HD) as Hr.
    set (q := Zpos m / D) in *. set (r := Zpos m mod D) in *.
    destruct (Z.leb_spec D (2 * r)).
    + apply (Z.div_unique _ _ _ (2 * r - D)); lia.
    + apply (Z.div_unique _ _ _ (2 * r + D)); lia.
Qed.

Lemma digits2_pos_le m k : 0 <= k -> Zpos m < 2 ^ k -> Zpos (digits2_pos m) <= k.
Proof.
  intros Hk Hm. pose proof (digits2_pos_bounds m) as Hd.
  set (d := Zpos (digits2_pos m)) in *.
  destruct (Z_le_gt_dec d k); [assumption|exfalso].
  assert (2 ^ k <= 2 ^ (d - 1)) by (apply Z.pow_le_mono_r; lia). lia.
Qed.

Lemma pow2_split a b : 0 <= a -> 0 <= b -> 2 ^ (a + b) = 2 ^ a * 2 ^ b.
Proof. intros. apply Z.pow_add_r; assumption. Qed.

(** [float -> double] keeps the value. *)
Lemma to_double_finite s m e :
  Zpos m < 2 ^ 24 -> -149 <= e <= 104 ->
  exists m1,
    to_double (S754_finite s m e)
    = S754_finite s m1 (Zpos (digits2_pos m) + e - 53)
    /\ Zpos m1 = Zpos m * 2 ^ (24 - Zpos (digits2_pos m)) * 2 ^ 29
    /\ 2 ^ 52 <= Zpos m1 < 2 ^ 53.
Proof.
  intros Hm He. pose proof (digits2_pos_le m 24 ltac:(lia) Hm) as Hd.
  cbn [to_double].
  destruct (binary_round_small F64.prec F64.emax ltac:(unfold F64.prec; lia) s m e)
    as (m1 & E & Hm1 & Hb); unfold F64.prec, F64.emax, emin in *; try lia.
  exists m1. split; [exact E|]. split; [|exact Hb].
  rewrite Hm1, <- Z.mul_assoc, <- pow2_split by lia. do 2 f_equal. lia.
Qed.

(** The product with [100.0] is exact. *)
Lemma product_exact s m1 e1 mm :
  Zpos m1 = mm * 2 ^ 29 -> 2 ^ 23 <= mm < 2 ^ 24 -> -300 <= e1 <= 100 ->
  exists m2 c,
    (c = 0 \/ c = 1)
    /\ SFmul F64.prec F64.emax (S754_finite s m1 e1) d100
       = S754_finite s m2 (e1 + 6 + c)
    /\ Zpos m2 * 2 ^ c = 25 * mm * 2 ^ 25
    /\ 2 ^ 52 <= Zpos m2 < 2 ^ 53.
Proof.
  intros Hm1 Hmm He1. rewrite d100_eq. cbn [SFmul]. rewrite xorb_false_r.
  set (P := Zpos (m1 * M100)).
  assert (P = mm * 2 ^ 29 * Zpos M100) as HP by (subst P; rewrite Pos2Z.inj_mul, Hm1; reflexivity).
  unfold M100 in HP.
  assert (exists c, (c = 0 /\ P < 2 ^ 105 \/ c = 1 /\ 2 ^ 105 <= P)
                    /\ Zdigits2 P = 105 + c) as (c & Hc & HdP).
  { destruct (Z_lt_le_dec P (2 ^ 105)).
    - exists 0. split; [left; split; [reflexivity|assumption]|].
      subst P. apply digits2_pos_unique.
      change (105 + 0 - 1) with 104. change (105 + 0) with 105. lia.
    - exists 1. split; [right; split; [reflexivity|assumption]|].
      subst P. apply digits2_pos_unique.
      change (105 + 1 - 1) with 105. change (105 + 1) with 106. lia. }
  destruct (binary_round_aux_normal F64.prec F64.emax ltac:(unfold F64.prec; lia)
              s P (e1 + -46) loc_Exact P 1)
    as (m2 & e2 & E & Hm2 & He2 & Herr);
    rewrite ?HdP; unfold F64.prec, F64.emax, emin in *; try lia.
  { apply Loc_exact. }
  rewrite HdP in He2, Herr.
  exists m2, c. split; [lia|].
  replace (105 + c - 53) with (52 + c) in Herr by lia.
  rewrite Z.mul_1_r, Z.mul_1_l in Herr.
  destruct Hc as [(-> & HPb) | (-> & HPb)]; destruct He2 as [-> | ->]; rewrite E.
  - replace (105 + 0 + (e1 + -46) - 53 - (e1 + -46)) with 52 in Herr by lia.
    split; [f_equal; lia|]. change (52 + 0) with 52 in Herr. lia.
  - exfalso. replace (105 + 0 + (e1 + -46) - 53 + 1 - (e1 + -46)) with 53 in Herr by lia.
    change (52 + 0) with 52 in Herr. lia.
  - replace (105 + 1 + (e1 + -46) - 53 - (e1 + -46)) with 53 in Herr by lia.
    split; [f_equal; lia|]. change (52 + 1) with 53 in Herr. lia.
  - exfalso. replace (105 + 1 + (e1 + -46) - 53 + 1 - (e1 + -46)) with 54 in Herr by lia.
    change (52 + 1) with 53 in Herr. lia.
Qed.

(** [std::round] gives the nearest integer as a [double]. *)
Lemma SFround_spec s m2 e2 :
  2 ^ 52 <= Zpos m2 < 2 ^ 53 -> -400 <= e2 <= 200 ->
  let n := (2 * (Zpos m2 * 2 ^ Z.max e2 0) + 2 ^ Z.max (- e2) 0)
           / (2 * 2 ^ Z.max (- e2) 0) in
  (n = 0 /\ SFround (S754_finite s m2 e2) = S754_zero s)
  \/ (0 < n /\
      exists mn en,
        SFround (S754_finite s m2 e2) = S754_finite s mn en
        /\ 2 ^ 52 <= Zpos mn < 2 ^ 53
        /\ -52 <= en <= Z.max e2 0
        /\ Zpos mn * 2 ^ Z.max en 0 = n * 2 ^ Z.max (- en) 0).
Proof.
  intros Hm2 He2 n. cbn [SFround].
  destruct (Z.leb_spec 0 e2) as [Hpos|Hneg].
  - right. subst n. rewrite (Z.max_l e2 0), (Z.max_r (- e2) 0) by lia.
    rewrite Z.pow_0_r.
    assert (0 < 2 ^ e2) by (apply Z.pow_pos_nonneg; lia).
    assert ((2 * (Zpos m2 * 2 ^ e2) + 1) / (2 * 1) = Zpos m2 * 2 ^ e2) as ->
      by (symmetry; apply (Z.div_unique _ _ _ 1); lia).
    split; [nia|]. exists m2, e2. split; [reflexivity|]. split; [exact Hm2|].
    split; [lia|]. rewrite (Z.max_l e2 0), (Z.max_r (- e2) 0) by lia.
    rewrite Z.pow_0_r. lia.
  - rewrite roundAwayZ_nearest. fold n.
    assert (0 < 2 ^ Z.max (- e2) 0) as HD by (apply Z.pow_pos_nonneg; lia).
    assert (2 ^ Z.max e2 0 = 1) as E1 by (rewrite Z.max_r by lia; reflexivity).
    assert (0 <= n < 2 ^ 53) as Hn.
    { subst n. rewrite E1. split.
      - apply Z.div_pos; lia.
      - apply Z.div_lt_upper_bound; nia. }
    destruct n as [|pn|pn] eqn:En; [left|right|lia].
    + split; [reflexivity|]. destruct s; reflexivity.
    + split; [lia|].
      pose proof (digits2_pos_le pn 53 ltac:(lia) ltac:(lia)) as Hdn.
      destruct (binary_round_small F64.prec F64.emax ltac:(unfold F64.prec; lia) s pn 0)
        as (mn & E & Hmn & Hb); unfold F64.prec, F64.emax, emin in *; try lia.
      exists mn, (Zpos (digits2_pos pn) + 0 - 53).
      split; [destruct s; exact E|]. split; [exact Hb|]. split; [lia|].
      rewrite Z.max_r, Z.max_l by lia. rewrite Z.pow_0_r, Z.mul_1_r, Hmn.
      do 2 f_equal. lia.
Qed.

Lemma div_eucl_div_mod a b : Z.div_eucl a b = (a / b, a mod b).
Proof. unfold Z.div, Z.modulo. now destruct (Z.div_eucl a b). Qed.

Lemma SFdiv_core_by_100 mn en :
  2 ^ 52 <= Zpos mn < 2 ^ 53 -> -1000 <= en ->
  SFdiv_core_binary F64.prec F64.emax (Zpos mn) en (Zpos M100) (-46)
  = ((Zpos mn * 2 ^ 53) / Zpos M100, en - 7,
     new_location (Zpos M100) ((Zpos mn * 2 ^ 53) mod Zpos M100)).
Proof.
  intros Hmn Hen. unfold SFdiv_core_binary.
  assert (Zdigits2 (Zpos mn) = 53) as -> by (apply digits2_pos_unique; lia).
  assert (Zdigits2 (Zpos M100) = 53) as -> by reflexivity.
  assert (Z.min (fexp F64.prec F64.emax (53 + en - (53 + -46))) (en - -46) = en - 7) as ->
    by (unfold fexp, emin, F64.prec, F64.emax; lia).
  replace (en - -46 - (en - 7)) with 53 by lia.
  rewrite Z.shiftl_mul_pow2 by lia.
  rewrite div_eucl_div_mod. reflexivity.
Qed.

(** The division by [100.0]: a normal [double] within half a unit in the
    last place of the quotient. *)
Lemma quotient_spec s mn en :
  2 ^ 52 <= Zpos mn < 2 ^ 53 -> -60 <= en <= 90 ->
  exists md ed n1 j,
    SFdiv F64.prec F64.emax (S754_finite s mn en) d100 = S754_finite s md ed
    /\ 2 ^ 52 <= Zpos md < 2 ^ 53
    /\ (n1 = 0 \/ n1 = 1) /\ (j = n1 \/ j = n1 + 1)
    /\ ed = en - 7 + j
    /\ 2 * Z.abs (Zpos md * 2 ^ j * Zpos M100 - Zpos mn * 2 ^ 53)
       <= Zpos M100 * 2 ^ n1.
Proof.
  intros Hmn Hen. rewrite d100_eq. cbn [SFdiv].
  rewrite SFdiv_core_by_100 by lia. rewrite xorb_false_r.
  set (A := Zpos mn * 2 ^ 53). set (q := A / Zpos M100).
  assert (2 ^ 52 <= q < 2 ^ 54) as Hq.
  { subst q A. unfold M100. split.
    - apply Z.div_le_lower_bound; lia.
    - apply Z.div_lt_upper_bound; lia. }
  assert (exists n1, (n1 = 0 \/ n1 = 1) /\ Zdigits2 q = 53 + n1) as (n1 & Hn1 & Hdq).
  { destruct q as [|pq|pq] eqn:Eq; try lia.
    destruct (Z_lt_le_dec (Zpos pq) (2 ^ 53)).
    - exists 0. split; [now left|]. apply digits2_pos_unique.
      change (53 + 0 - 1) with 52. change (53 + 0) with 53. lia.
    - exists 1. split; [now right|]. apply digits2_pos_unique.
      change (53 + 1 - 1) with 53. change (53 + 1) with 54. lia. }
  destruct (binary_round_aux_normal F64.prec F64.emax ltac:(unfold F64.prec; lia)
              s q (en - 7) (new_location (Zpos M100) (A mod Zpos M100)) A (Zpos M100))
    as (md & ed & E & Hmd & Hed & Herr);
    rewrite ?Hdq; unfold F64.prec, F64.emax, emin in *; try lia.
  { subst q. apply new_location_Loc; lia. }
  rewrite Hdq in Hed, Herr.
  exists md, ed, n1, (ed - (en - 7)).
  split; [exact E|]. split; [exact Hmd|]. split; [exact Hn1|].
  split; [lia|]. split; [lia|].
  replace (53 + n1 - 53) with n1 in Herr by lia. exact Herr.
Qed.

Lemma withinEps_scaled mf n mn en k :
  en <= 0 -> 0 <= k -> Zpos mn = n * 2 ^ (- en) ->
  2 ^ 23 * Z.abs (100 * Zpos mf * 2 ^ k - Zpos mn) <= Zpos mn ->
  Spec.withinEps mf (en + k) n.
Proof.
  intros Hen Hk Hmn H. unfold Spec.withinEps.
  destruct (Z_le_gt_dec (en + k) 0) as [Hle|Hgt].
  - rewrite (Z.max_r (en + k) 0), (Z.max_l (- (en + k)) 0) by lia.
    rewrite Z.pow_0_r, Z.mul_1_r.
    assert (2 ^ (- en) = 2 ^ (- (en + k)) * 2 ^ k) as E
      by (rewrite <- Z.pow_add_r by lia; f_equal; lia).
    assert (0 < 2 ^ k) as HT by (apply Z.pow_pos_nonneg; lia).
    set (T := 2 ^ k) in *. set (G := n * 2 ^ (- (en + k))).
    assert (Zpos mn = G * T) as EG by (subst G; rewrite Hmn, E; lia).
    rewrite EG in H.
    replace (100 * Zpos mf * T - G * T) with ((100 * Zpos mf - G) * T) in H by lia.
    rewrite Z.abs_mul, (Z.abs_eq T) in H by lia.
    apply (Z.mul_le_mono_pos_r _ _ T HT). lia.
  - rewrite (Z.max_l (en + k) 0), (Z.max_r (- (en + k)) 0) by lia.
    rewrite Z.pow_0_r, !Z.mul_1_r.
    assert (2 ^ k = 2 ^ (en + k) * 2 ^ (- en)) as E
      by (rewrite <- Z.pow_add_r by lia; f_equal; lia).
    assert (0 < 2 ^ (- en)) as HR by (apply Z.pow_pos_nonneg; lia).
    set (R := 2 ^ (- en)) in *.
    rewrite E, Hmn in H.
    replace (100 * Zpos mf * (2 ^ (en + k) * R) - n * R)
      with ((100 * Zpos mf * 2 ^ (en + k) - n) * R) in H by lia.
    rewrite Z.abs_mul, (Z.abs_eq R) in H by lia.
    apply (Z.mul_le_mono_pos_r _ _ R HR). lia.
Qed.

Lemma pow2_ge_1 k : 0 <= k -> 1 <= 2 ^ k.
Proof. intros. assert (0 < 2 ^ k) by (apply Z.pow_pos_nonneg; lia). lia. Qed.

(** A mantissa of 53 digits that is [25 * m] times a power of two, for a
    [m] of at most 24 digits, has at least 24 further binary zeros. *)
Lemma mantissa_shift mn m t :
  2 ^ 52 <= mn -> 0 < m < 2 ^ 24 -> 0 <= t -> mn = 25 * m * 2 ^ t -> 24 <= t.
Proof.
  intros Hmn Hm Ht E. destruct (Z_le_gt_dec 24 t); [assumption|exfalso].
  assert (2 ^ t <= 2 ^ 23) by (apply Z.pow_le_mono_r; lia).
  assert (0 < 2 ^ t) by (apply Z.pow_pos_nonneg; lia). nia.
Qed.

(** The value after the product and [std::round], against the nearest
    integer of the specification. *)
Lemma rounded_is_round100 m e m2 c :
  let d := Zpos (digits2_pos m) in
  Zpos m < 2 ^ 24 -> -149 <= e <= 104 -> (c = 0 \/ c = 1) ->
  Zpos m2 * 2 ^ c = 25 * (Zpos m * 2 ^ (24 - d)) * 2 ^ 25 ->
  let e2 := d + e - 53 + 6 + c in
  (2 * (Zpos m2 * 2 ^ Z.max e2 0) + 2 ^ Z.max (- e2) 0) / (2 * 2 ^ Z.max (- e2) 0)
  = Spec.round100 m e.
Proof.
  intros d Hm He Hc Hm2 e2. unfold Spec.round100.
  pose proof (digits2_pos_le m 24 ltac:(lia) Hm) as Hd. fold d in Hd.
  assert (0 < d) as Hd0 by (subst d; lia).
  apply nearest_ratio; try (apply Z.pow_pos_nonneg; lia).
  assert (Zpos m2 = 25 * Zpos m * 2 ^ (49 - d - c)) as ->.
  { assert (2 ^ (49 - d - c) * 2 ^ c = 2 ^ (24 - d) * 2 ^ 25) as E
      by (rewrite <- !Z.pow_add_r by lia; f_equal; lia).
    assert (0 < 2 ^ c) by (apply Z.pow_pos_nonneg; lia).
    apply (Z.mul_cancel_r _ _ (2 ^ c)); [lia|]. rewrite Hm2.
    rewrite <- !Z.mul_assoc. rewrite E. lia. }
  replace (100 * Zpos m) with (25 * Zpos m * 2 ^ 2) by lia.
  rewrite <- !Z.mul_assoc. do 2 f_equal.
  rewrite <- !Z.pow_add_r by lia. f_equal. subst e2. lia.
Qed.

Lemma round2_finite s m e :
  Zpos m < 2 ^ 24 -> -149 <= e <= 104 -> (-149 < e -> 2 ^ 23 <= Zpos m) ->
  Spec.roundedToCents (S754_finite s m e) (round2 (S754_finite s m e)).
Proof.
  intros Hm He Hnorm. unfold round2. cbn [Spec.roundedToCents]. cbv zeta.
  pose proof (digits2_pos_le m 24 ltac:(lia) Hm) as Hd.
  pose proof (digits2_pos_bounds m) as Hdig.
  destruct (to_double_finite s m e Hm He) as (m1 & -> & Hm1 & Hm1b).
  set (d := Zpos (digits2_pos m)) in *.
  assert (0 < d) as Hd0 by (subst d; lia).
  set (mm := Zpos m * 2 ^ (24 - d)) in *.
  assert (2 ^ 23 <= mm < 2 ^ 24) as Hmm.
  { subst mm.
    assert (2 ^ 23 = 2 ^ (d - 1) * 2 ^ (24 - d)) as ->
      by (rewrite <- Z.pow_add_r by lia; f_equal; lia).
    assert (2 ^ 24 = 2 ^ d * 2 ^ (24 - d)) as ->
      by (rewrite <- Z.pow_add_r by lia; f_equal; lia).
    assert (0 < 2 ^ (24 - d)) by (apply Z.pow_pos_nonneg; lia). nia. }
  destruct (product_exact s m1 (d + e - 53) mm Hm1 Hmm ltac:(lia))
    as (m2 & c & Hc & -> & Hm2 & Hm2b).
  pose proof (rounded_is_round100 m e m2 c Hm He Hc Hm2) as Hn. cbv zeta in Hn.
  fold d in Hn.
  destruct (SFround_spec s m2 (d + e - 53 + 6 + c) Hm2b ltac:(lia))
    as [(Hn0 & ->) | (Hnpos & mn & en & -> & Hmnb & Hen & Hval)];
    cbv zeta in *; rewrite Hn in *.
  - rewrite Hn0. cbn [Z.eqb]. rewrite d100_eq. cbn [SFdiv to_float].
    now rewrite xorb_false_r.
  - set (n := Spec.round100 m e) in *.
    destruct (Z.eqb_spec n 0) as [|_]; [lia|].
    destruct (quotient_spec s mn en Hmnb ltac:(lia))
      as (md & ed & n1 & j & -> & Hmdb & Hn1 & Hj & Hed & Herr).
    cbn [to_float].
    assert (Zpos (digits2_pos md) = 53) as Hdmd by (apply digits2_pos_unique; lia).
    unfold M100 in Herr.
    destruct (Z_lt_le_dec e 0) as [Hneg|Hpos].
    + (* the value has fractional bits: rounding errors of the division
         and of the conversion *)
      assert (-52 <= en <= 0) as Hen0 by (clear - Hen Hd Hd0 Hneg Hc; lia).
      clear Hn Hm2 Hm1 Hm1b Hmm Hdig Hnorm Hm2b Hen Hd Hd0 Hc Hm He Hneg.
      clear mm d m1 m2 c.
      rewrite (Z.max_r en 0), (Z.max_l (- en) 0), Z.pow_0_r, Z.mul_1_r in Hval by lia.
      destruct (binary_round_large F32.prec F32.emax ltac:(unfold F32.prec; lia) s md ed)
        as (mf & ef & -> & Hmfb & Hef & Herr2);
        rewrite ?Hdmd; unfold F32.prec, F32.emax, emin in *; try lia.
      rewrite Hdmd in Hef, Herr2.
      (exists mf, ef; split; [reflexivity|]; split; [lia|]; split; [lia|]).
      replace ef with (en + (ef - en)) by lia.
      apply (withinEps_scaled mf n mn en (ef - en)); try lia.
      change (53 - 24) with 29 in Herr2.
      assert (n1 = 0 /\ j = 0 \/ n1 = 0 /\ j = 1 \/ n1 = 1 /\ j = 1 \/ n1 = 1 /\ j = 2)
        as Hcases by lia.
      assert (ef - ed = 29 \/ ef - ed = 30) as Hcases2 by lia.
      clear Hn1 Hj Hef Hdmd Hval Hnpos.
      (destruct Hcases as [(-> & ->)|[(-> & ->)|[(-> & ->)|(-> & ->)]]];
        destruct Hcases2 as [E|E]; rewrite E in Herr2;
        first [ replace (ef - en) with 22 by lia
              | replace (ef - en) with 23 by lia
              | replace (ef - en) with 24 by lia
              | replace (ef - en) with 25 by lia ];
        clear E Hed Hen0; lia).
    + (* the value is an integer multiple of 1/100 already: every step
         is exact and the float comes back *)
      assert (2 ^ 23 <= Zpos m) as Hm23 by (apply Hnorm; lia).
      assert (n = 100 * Zpos m * 2 ^ e) as En.
      { subst n. unfold Spec.round100.
        rewrite (Z.max_l e 0), (Z.max_r (- e) 0) by lia. rewrite Z.pow_0_r.
        symmetry. apply (Z.div_unique _ _ _ 1); lia. }
      assert (0 < 2 ^ e) as Hpe by (apply Z.pow_pos_nonneg; lia).
      assert (-52 <= en <= 82) as Hen' by (clear - Hen Hd Hd0 Hc He; lia).
      clear Hn Hm2 Hm1 Hm1b Hmm Hdig Hnorm Hm2b Hd Hd0 Hc Hen.
      clear mm d m1 m2 c.
      (* the mantissa of the rounded product *)
      assert (exists t, 24 <= t /\ t = e + 2 - en /\ Zpos mn = 25 * Zpos m * 2 ^ t)
        as (t & Ht & Et & Emn).
      { assert (exists t, 0 <= t /\ t = e + 2 - en /\ Zpos mn = 25 * Zpos m * 2 ^ t)
          as (t & Ht & Et & Emn).
        { destruct (Z_lt_le_dec en 0) as [Hen1|Hen1].
          - exists (e + 2 - en). split; [lia|]. split; [reflexivity|].
            rewrite (Z.max_r en 0), (Z.max_l (- en) 0), Z.pow_0_r, Z.mul_1_r in Hval by lia.
            rewrite Hval, En.
            replace (e + 2 - en) with (2 + e + - en) by lia.
            rewrite !Z.pow_add_r by lia. lia.
          - rewrite (Z.max_l en 0), (Z.max_r (- en) 0), Z.pow_0_r, Z.mul_1_r in Hval by lia.
            assert (0 < 2 ^ en) as Hpen by (apply Z.pow_pos_nonneg; lia).
            destruct (Z_le_gt_dec en (e + 2)) as [Hle|Hgt].
            + exists (e + 2 - en). split; [lia|]. split; [reflexivity|].
              apply (Z.mul_cancel_r _ _ (2 ^ en)); [lia|].
              assert (2 ^ (e + 2 - en) * 2 ^ en = 4 * 2 ^ e) as E
                by (change 4 with (2 ^ 2);
                    rewrite <- !Z.pow_add_r by lia; f_equal; lia).
              replace (25 * Zpos m * 2 ^ (e + 2 - en) * 2 ^ en)
                with (25 * Zpos m * (2 ^ (e + 2 - en) * 2 ^ en)) by ring.
              rewrite E, Hval, En. ring.
            + exfalso.
              assert (2 ^ en = 2 ^ (en - e - 2) * (4 * 2 ^ e)) as E
                by (change 4 with (2 ^ 2);
                    rewrite <- !Z.pow_add_r by lia; f_equal; lia).
              pose proof (pow2_ge_1 (en - e - 2) ltac:(lia)) as H1.
              rewrite E, En in Hval.
              assert (Zpos mn * 2 ^ (en - e - 2) = 25 * Zpos m) as E2.
              { apply (Z.mul_cancel_r _ _ (4 * 2 ^ e)); [lia|]. lia. }
              nia. }
        exists t. split; [|split; assumption].
        eapply (mantissa_shift (Zpos mn) (Zpos m)); try eassumption; lia. }
      clear Hval En Hnpos.
      pose proof (pow2_ge_1 (t - 24) ltac:(lia)) as HU.
      assert (2 ^ t = 2 ^ 24 * 2 ^ (t - 24)) as EU
        by (rewrite <- Z.pow_add_r by lia; f_equal; lia).
      (* the quotient is exact *)
      assert (Zpos md * 2 ^ j = 2 ^ 29 * (Zpos m * 2 ^ (t - 24))) as Emd.
      { rewrite Emn, EU in Herr. set (w := Zpos m * 2 ^ (t - 24)).
        replace (25 * Zpos m * (2 ^ 24 * 2 ^ (t - 24)) * 2 ^ 53)
          with (25 * 2 ^ 24 * 2 ^ 53 * w) in Herr by (subst w; lia).
        clearbody w.
        assert (n1 = 0 /\ j = 0 \/ n1 = 0 /\ j = 1 \/ n1 = 1 /\ j = 1 \/ n1 = 1 /\ j = 2)
          as Hcases by lia.
        clear - Herr Hcases.
        destruct Hcases as [(-> & ->)|[(-> & ->)|[(-> & ->)|(-> & ->)]]]; lia. }
      assert (0 <= j <= 2) as Hj2 by lia.
      assert (0 < 2 ^ j) as Hpj by (apply Z.pow_pos_nonneg; lia).
      assert (Zpos md = Zpos m * 2 ^ (t + 5 - j)) as Emd2.
      { apply (Z.mul_cancel_r _ _ (2 ^ j)); [lia|]. rewrite Emd.
        assert (2 ^ (t + 5 - j) * 2 ^ j = 2 ^ 29 * 2 ^ (t - 24)) as E
          by (rewrite <- !Z.pow_add_r by lia; f_equal; lia).
        replace (Zpos m * 2 ^ (t + 5 - j) * 2 ^ j)
          with (Zpos m * (2 ^ (t + 5 - j) * 2 ^ j)) by ring.
        rewrite E. ring. }
      assert (t + 5 - j = 29) as Ei.
      { destruct (Z.lt_trichotomy (t + 5 - j) 29) as [Hlt|[Heq|Hgt]]; [exfalso|exact Heq|exfalso].
        - assert (2 ^ (t + 5 - j) <= 2 ^ 28) by (apply Z.pow_le_mono_r; lia).
          assert (0 < 2 ^ (t + 5 - j)) by (apply Z.pow_pos_nonneg; lia). nia.
        - assert (2 ^ 30 <= 2 ^ (t + 5 - j)) by (apply Z.pow_le_mono_r; lia). nia. }
      rewrite Ei in Emd2.
      assert (ed = e - 29) as Eed by lia.
      clear Emd Herr Hn1 Hj Hed Hj2 Hpj Ei EU HU Emn Hmnb Hen' Et Ht Hpe.
      destruct (binary_round_large F32.prec F32.emax ltac:(unfold F32.prec; lia) s md ed)
        as (mf & ef & -> & Hmfb & Hef & Herr2);
        rewrite ?Hdmd; unfold F32.prec, F32.emax, emin in *; try lia.
      rewrite Hdmd in Hef, Herr2. change (53 - 24) with 29 in Herr2.
      assert (ef - ed = 29 \/ ef - ed = 30) as Hcases2 by lia.
      assert (Zpos mf = Zpos m /\ ef = e) as (Emf & Eef).
      { destruct Hcases2 as [E|E]; rewrite E in Herr2; lia. }
      apply Pos2Z.inj in Emf. subst mf ef.
      exists m, e. split; [reflexivity|]. split; [lia|]. split; [lia|].
      unfold Spec.withinEps. rewrite (Z.max_l e 0), (Z.max_r (- e) 0) by lia.
      rewrite Z.pow_0_r, Z.mul_1_r.
      assert (n = 100 * Zpos m * 2 ^ e) as ->.
      { subst n. unfold Spec.round100.
        rewrite (Z.max_l e 0), (Z.max_r (- e) 0) by lia. rewrite Z.pow_0_r.
        symmetry. apply (Z.div_unique _ _ _ 1); lia. }
      rewrite Z.sub_diag. cbn [Z.abs]. 
      assert (0 < 2 ^ e) by (apply Z.pow_pos_nonneg; lia). nia.
Qed.

Lemma round2_spec w : Spec.roundedToCents (float_of_bits w) (round2 (float_of_bits w)).
Proof.
  destruct (float_of_bits w) as [s|s| |s m e] eqn:E.
  - unfold round2. cbn [to_double]. rewrite d100_eq.
    cbn [SFmul SFround SFdiv to_float Spec.roundedToCents]. now rewrite !xorb_false_r.
  - unfold round2. cbn [to_double]. rewrite d100_eq.
    cbn [SFmul SFround SFdiv to_float Spec.roundedToCents]. now rewrite !xorb_false_r.
  - unfold round2. cbn [to_double]. rewrite d100_eq. reflexivity.
  - apply float_of_bits_finite in E as (Hm & He & Hnorm).
    now apply round2_finite.
Qed.

(** C6.  For every 8-character hex string the float decoder accepts, the
    stored value is the float of the byte-swapped word rounded to two
    decimal places: with [n] the integer nearest to 100 times the
    magnitude (a half away from zero), the stored float has the sign of
    the original and is a normal float within the float epsilon [2 ^ -23]
    (relative) of [n / 100], not a truncation; it is a signed zero when [n]
    is 0, and NaN, infinities and zeros are stored as they are. *)
Theorem stored_float_is_rounded_to_two_decimals (H : string) (stored : spec_float) :
  String.length H = 8%nat ->
  parseHexAsFloatLittleEndian H = Ok stored ->
  exists w,
    parseHexWord H = Ok w
    /\ Spec.roundedToCents (float_of_bits (swapBigEndianToHost w)) stored.
Proof.
  intros _ Hp. unfold parseHexAsFloatLittleEndian in Hp.
  destruct (parseHexWord H) as [w|] eqn:Ew; cbn [bind] in Hp; [|discriminate].
  injection Hp as <-. exists w. split; [reflexivity|]. apply round2_spec.
Qed.

Lemma stored_float_is_rounded_to_two_decimals_witness :
  exists w,
    parseHexWord "D00F4940" = Ok w
    /\ Spec.roundedToCents (float_of_bits (swapBigEndianToHost w))
                           (S754_finite false 13170115 (-22)).
Proof.
  apply (stored_float_is_rounded_to_two_decimals "D00F4940").
  - reflexivity.
  - vm_compute. reflexivity.
Defined.

(** * Further properties of the code *)

(** ** The byte swap and the hex texts *)

Lemma mask_bits s k :
  0 <= s -> 0 <= k ->
  Z.testbit (Z.shiftl (Z.ones 8) s) k = (s <=? k) && (k <? s + 8).
Proof.
  intros Hs Hk. rewrite Z.shiftl_spec by lia.
  destruct (Z.leb_spec s k).
  - destruct (Z.ltb_spec k (s + 8)).
    + rewrite Z.ones_spec_low by lia. reflexivity.
    + rewrite Z.ones_spec_high by lia. reflexivity.
  - rewrite Z.testbit_neg_r by lia. reflexivity.
Qed.

(** The byte of a word selected by a mask [0xFF << s]. *)
Lemma land_mask v s :
  0 <= s -> Z.land v (Z.shiftl (Z.ones 8) s) = (v / 2 ^ s) mod 2 ^ 8 * 2 ^ s.
Proof.
  intros Hs. rewrite <- Z.shiftl_mul_pow2 by exact Hs.
  rewrite <- (Z.land_ones _ 8) by lia. rewrite <- Z.shiftr_div_pow2 by exact Hs.
  apply Z.bits_inj'. intros n Hn.
  rewrite Z.land_spec, mask_bits, Z.shiftl_spec by lia.
  destruct (Z.leb_spec s n).
  - rewrite Z.land_spec, Z.shiftr_spec by lia.
    replace (n - s + s) with n by lia.
    destruct (Z.ltb_spec n (s + 8)).
    + rewrite Z.ones_spec_low by lia. reflexivity.
    + rewrite Z.ones_spec_high by lia. reflexivity.
  - rewrite (Z.testbit_neg_r _ (n - s)) by lia. apply andb_false_r.
Qed.

(** [swapBigEndianToHost] in arithmetic: the four bytes in reverse order. *)
Lemma swap_bytes v :
  swapBigEndianToHost v
  = (v / 2 ^ 24) mod 2 ^ 8 + (v / 2 ^ 16) mod 2 ^ 8 * 2 ^ 8
    + (v / 2 ^ 8) mod 2 ^ 8 * 2 ^ 16 + v mod 2 ^ 8 * 2 ^ 24.
Proof.
  unfold swapBigEndianToHost.
  change 0xFF000000 with (Z.shiftl (Z.ones 8) 24).
  change 0x00FF0000 with (Z.shiftl (Z.ones 8) 16).
  change 0x0000FF00 with (Z.shiftl (Z.ones 8) 8).
  change 0x000000FF with (Z.shiftl (Z.ones 8) 0).
  rewrite !land_mask by lia.
  pose proof (Z.mod_pos_bound (v / 2 ^ 24) (2 ^ 8) ltac:(lia)) as Ha.
  pose proof (Z.mod_pos_bound (v / 2 ^ 16) (2 ^ 8) ltac:(lia)) as Hb.
  pose proof (Z.mod_pos_bound (v / 2 ^ 8) (2 ^ 8) ltac:(lia)) as Hc.
  pose proof (Z.mod_pos_bound (v / 2 ^ 0) (2 ^ 8) ltac:(lia)) as Hd.
  replace (v mod 2 ^ 8) with ((v / 2 ^ 0) mod 2 ^ 8)
    by (rewrite Z.pow_0_r, Z.div_1_r; reflexivity).
  set (a := (v / 2 ^ 24) mod 2 ^ 8) in *. set (b := (v / 2 ^ 16) mod 2 ^ 8) in *.
  set (c := (v / 2 ^ 8) mod 2 ^ 8) in *. set (d := (v / 2 ^ 0) mod 2 ^ 8) in *.
  clearbody a b c d. clear v.
  rewrite !Z.shiftr_div_pow2, !Z.shiftl_mul_pow2 by lia. unfold wrap32.
  replace (a * 2 ^ 24 / 2 ^ 24) with a by (Z.div_mod_to_equations; lia).
  replace (b * 2 ^ 16 / 2 ^ 8) with (b * 2 ^ 8) by (Z.div_mod_to_equations; lia).
  replace ((c * 2 ^ 8 * 2 ^ 8) mod 2 ^ 32) with (c * 2 ^ 16)
    by (Z.div_mod_to_equations; lia).
  replace ((d * 2 ^ 0 * 2 ^ 24) mod 2 ^ 32) with (d * 2 ^ 24)
    by (Z.div_mod_to_equations; lia).
  rewrite (Z.lor_comm a), (lor_shift_add b a 8) by lia.
  rewrite (Z.lor_comm _ (c * 2 ^ 16)), (lor_shift_add c _ 16) by lia.
  rewrite (Z.lor_comm _ (d * 2 ^ 24)), (lor_shift_add d _ 24) by lia.
  lia.
Qed.

Lemma swap_beWord b0 b1 b2 b3 :
  swapBigEndianToHost (Spec.beWord b0 b1 b2 b3) = Spec.beWord b3 b2 b1 b0.
Proof.
  rewrite swap_bytes. unfold Spec.beWord.
  pose proof (Byte.to_N_bounded b0). pose proof (Byte.to_N_bounded b1).
  pose proof (Byte.to_N_bounded b2). pose proof (Byte.to_N_bounded b3).
  Z.div_mod_to_equations; lia.
Qed.

(** X1.  [swapBigEndianToHost] reverses the four bytes of a word: the word
    of the bytes [b0 b1 b2 b3] becomes the word of [b3 b2 b1 b0]; on any
    argument the result is a 32-bit word, and swapping twice gives the
    argument back (reduced to 32 bits). *)
Theorem swapBigEndianToHost_reverses_bytes :
  (forall b0 b1 b2 b3,
      swapBigEndianToHost (Spec.beWord b0 b1 b2 b3) = Spec.beWord b3 b2 b1 b0)
  /\ (forall v, 0 <= swapBigEndianToHost v < 2 ^ 32)
  /\ (forall v, swapBigEndianToHost (swapBigEndianToHost v) = wrap32 v).
Proof.
  split; [|split].
  - exact swap_beWord.
  - intros v. rewrite swap_bytes. Z.div_mod_to_equations; lia.
  - intros v. rewrite !swap_bytes. unfold wrap32.
    set (w := (v / 2 ^ 24) mod 2 ^ 8 + (v / 2 ^ 16) mod 2 ^ 8 * 2 ^ 8
              + (v / 2 ^ 8) mod 2 ^ 8 * 2 ^ 16 + v mod 2 ^ 8 * 2 ^ 24).
    assert (w / 2 ^ 24 mod 2 ^ 8 = v mod 2 ^ 8) as ->
        by (subst w; Z.div_mod_to_equations; lia).
    assert (w / 2 ^ 16 mod 2 ^ 8 = (v / 2 ^ 8) mod 2 ^ 8) as ->
        by (subst w; Z.div_mod_to_equations; lia).
    assert (w / 2 ^ 8 mod 2 ^ 8 = (v / 2 ^ 16) mod 2 ^ 8) as ->
        by (subst w; Z.div_mod_to_equations; lia).
    assert (w mod 2 ^ 8 = (v / 2 ^ 24) mod 2 ^ 8) as ->
        by (subst w; Z.div_mod_to_equations; lia).
    Z.div_mod_to_equations; lia.
Qed.

(** X2.  The value decoded from the four bytes [b0 b1 b2 b3] of the file
    (read as a big-endian word, rendered with [%08X], parsed back and
    swapped) is the two-decimal rounding of the binary32 value whose bit
    pattern has [b0] as its least significant byte: the file stores the
    values in little-endian order. *)
Theorem value_bytes_are_little_endian (b0 b1 b2 b3 : byte) (rest : list byte) :
  parseHexAsFloatLittleEndian (hex8 (wordAt (b0 :: b1 :: b2 :: b3 :: rest) 0))
  = Ok (round2 (float_of_bits (Spec.beWord b3 b2 b1 b0))).
Proof.
  rewrite wordAt_beWord, parseHexAsFloat_hex8 by apply beWord_range.
  now rewrite swap_beWord.
Qed.

Lemma hexAcc_range v d : 0 <= d < 16 -> 0 <= hexAcc v d < 2 ^ 32 /\ hexAcc v d = 16 * (v mod 2 ^ 28) + d.
Proof.
  intros Hd. unfold hexAcc, wrap32. rewrite Z.shiftl_mul_pow2 by lia.
  assert ((v * 2 ^ 4) mod 2 ^ 32 = (v mod 2 ^ 28) * 2 ^ 4) as ->.
  { change (2 ^ 32) with (2 ^ 28 * 2 ^ 4).
    rewrite Z.mul_mod_distr_r by lia. reflexivity. }
  rewrite (lor_shift_add (v mod 2 ^ 28) d 4) by lia.
  pose proof (Z.mod_pos_bound v (2 ^ 28) ltac:(lia)). lia.
Qed.

Lemma hexLoop_allHex s : forall v,
  hexLoop s v = if allHex s then hexLoop s v else Throw HexBadChar.
Proof.
  induction s as [|c s IH]; intros v; cbn [hexLoop allHex]; [reflexivity|].
  unfold isHexChar. destruct (hexDigitValue c) as [d|]; cbn [andb]; [apply IH|reflexivity].
Qed.

Lemma hexLoop_allHex_ok s : forall v,
  allHex s = true -> 0 <= v < 2 ^ 32 -> exists w, hexLoop s v = Ok w /\ 0 <= w < 2 ^ 32.
Proof.
  induction s as [|c s IH]; intros v Hs Hv; cbn [hexLoop allHex] in *.
  - eauto.
  - unfold isHexChar in Hs. destruct (hexDigitValue c) as [d|] eqn:Ed; [|discriminate].
    apply IH; [exact Hs|]. apply hexAcc_range. eapply hexDigitValue_range; eassumption.
Qed.

Lemma hexLoop_app s t : forall v,
  hexLoop (s ++ t) v = (w <- hexLoop s v ;; hexLoop t w).
Proof.
  induction s as [|c s IH]; intros v; cbn [hexLoop String.append bind]; [reflexivity|].
  destruct (hexDigitValue c); [apply IH|reflexivity].
Qed.

Lemma hexAcc8_any v d7 d6 d5 d4 d3 d2 d1 d0 :
  0 <= d7 < 16 -> 0 <= d6 < 16 -> 0 <= d5 < 16 -> 0 <= d4 < 16 ->
  0 <= d3 < 16 -> 0 <= d2 < 16 -> 0 <= d1 < 16 -> 0 <= d0 < 16 ->
  fold_left hexAcc [d7; d6; d5; d4; d3; d2; d1; d0] v
  = Spec.ofDigits d7 d6 d5 d4 d3 d2 d1 d0.
Proof.
  intros. cbn [fold_left]. unfold Spec.ofDigits.
  destruct (hexAcc_range v d7 ltac:(lia)) as [_ E7].
  set (v7 := hexAcc v d7) in *.
  destruct (hexAcc_range v7 d6 ltac:(lia)) as [_ E6].
  set (v6 := hexAcc v7 d6) in *.
  destruct (hexAcc_range v6 d5 ltac:(lia)) as [_ E5].
  set (v5 := hexAcc v6 d5) in *.
  destruct (hexAcc_range v5 d4 ltac:(lia)) as [_ E4].
  set (v4 := hexAcc v5 d4) in *.
  destruct (hexAcc_range v4 d3 ltac:(lia)) as [_ E3].
  set (v3 := hexAcc v4 d3) in *.
  destruct (hexAcc_range v3 d2 ltac:(lia)) as [_ E2].
  set (v2 := hexAcc v3 d2) in *.
  destruct (hexAcc_range v2 d1 ltac:(lia)) as [_ E1].
  set (v1 := hexAcc v2 d1) in *.
  destruct (hexAcc_range v1 d0 ltac:(lia)) as [_ E0].
  clearbody v7 v6 v5 v4 v3 v2 v1.
  rewrite E0. clear E0.
  Z.div_mod_to_equations. lia.
Qed.

Lemma string_length_app (s t : string) :
  String.length (s ++ t) = (String.length s + String.length t)%nat.
Proof. induction s as [|c s IH]; cbn; [reflexivity|now rewrite IH]. Qed.

Lemma allHex_app s t : allHex (s ++ t) = allHex s && allHex t.
Proof.
  induction s as [|c s IH]; cbn [allHex String.append]; [reflexivity|].
  now rewrite IH, andb_assoc.
Qed.

Lemma parseHexWord_cases s :
  parseHexWord s
  = if (String.length s <? 8)%nat then Throw HexTooShort
    else if allHex s then parseHexWord s else Throw HexBadChar.
Proof.
  unfold parseHexWord.
  destruct (Nat.ltb_spec (String.length s) 8) as [Hl|Hl].
  - destruct (Z.ltb_spec (Z.of_nat (String.length s)) 8); [reflexivity|lia].
  - destruct (Z.ltb_spec (Z.of_nat (String.length s)) 8); [lia|].
    apply hexLoop_allHex.
Qed.


(** X4.  A text of more than 8 hex digits is not refused: the digits
    before the last eight are shifted out of the 32-bit accumulator, so the
    word is that of the last eight characters. *)
Theorem long_hex_keeps_last_eight_digits (s t : string) :
  allHex s = true -> String.length t = 8%nat ->
  parseHexWord (s ++ t) = parseHexWord t
  /\ parseHexAsFloatLittleEndian (s ++ t) = parseHexAsFloatLittleEndian t.
Proof.
  intros Hs Ht.
  assert (parseHexWord (s ++ t) = parseHexWord t) as E.
  { rewrite (parseHexWord_cases (s ++ t)), (parseHexWord_cases t).
    rewrite allHex_app, Hs, string_length_app, Ht. cbn [andb].
    destruct (Nat.ltb_spec (String.length s + 8) 8); [lia|].
    change (8 <? 8)%nat with false. cbv iota.
    destruct (allHex t) eqn:Eat; [|reflexivity].
    unfold parseHexWord. rewrite string_length_app, Ht.
    destruct (Z.ltb_spec (Z.of_nat (String.length s + 8)) 8); [lia|].
    change (Z.of_nat 8 <? 8) with false. cbv iota.
    rewrite hexLoop_app.
    destruct (hexLoop_allHex_ok s 0 Hs ltac:(lia)) as (v & -> & Hv). cbn [bind].
    destruct (hexLoop_allHex_ok t 0 Eat ltac:(lia)) as (w & Hw & _).
    destruct (hexLoop_digits t 0 w Hw) as (ds & Hds & Ew).
    rewrite (hexLoop_of_digits ds t v Hds), Hw, Ew. f_equal.
    assert (List.length ds = 8%nat) as Hlen.
    { apply (f_equal (@List.length _)) in Hds. rewrite !length_map in Hds.
      rewrite <- Hds. clear - Ht. revert Ht. generalize 8%nat.
      induction t as [|c t IH]; intros n Hn; cbn in *; [exact Hn|].
      destruct n; [discriminate|]. f_equal. apply IH. now injection Hn. }
    assert (Forall (fun d => 0 <= d < 16) ds) as Hr.
    { apply Forall_forall. intros d Hd.
      assert (In (Some d) (map hexDigitValue (list_ascii_of_string t))) as Hin
          by (rewrite Hds; now apply in_map).
      apply in_map_iff in Hin. destruct Hin as (c & Hc & _).
      eapply hexDigitValue_range; eassumption. }
    destruct ds as [|d7 [|d6 [|d5 [|d4 [|d3 [|d2 [|d1 [|d0 [|]]]]]]]]]; try discriminate.
    repeat match goal with H : Forall _ (_ :: _) |- _ => inversion H; clear H; subst end.
    rewrite (hexAcc8_any v), (hexAcc8_any 0) by assumption. reflexivity. }
  split; [exact E|]. unfold parseHexAsFloatLittleEndian. now rewrite E.
Qed.

Lemma long_hex_keeps_last_eight_digits_witness :
  parseHexWord ("FFFF" ++ "0000803F") = parseHexWord "0000803F"
  /\ parseHexAsFloatLittleEndian ("FFFF" ++ "0000803F")
     = parseHexAsFloatLittleEndian "0000803F".
Proof.
  apply (long_hex_keeps_last_eight_digits "FFFF" "0000803F"); reflexivity.
Defined.

Lemma hex8_length v : String.length (hex8 v) = 8%nat.
Proof. reflexivity. Qed.

Lemma hexChar_isUpper d : 0 <= d < 16 -> Spec.upper (hexChar d) = hexChar d.
Proof.
  intros Hd.
  pose proof (range_all (fun d => Ascii.eqb (Spec.upper (hexChar d)) (hexChar d))
                        0 16 ltac:(vm_compute; reflexivity) d ltac:(lia)) as H.
  now apply Ascii.eqb_eq.
Qed.

(** X5.  Rendering a 32-bit word with [%08X] and reading it back with the
    loop of the float parser gives the word again; the rendering has
    exactly 8 characters, all of them hex digits, none in lower case, and
    different words have different renderings. *)
Theorem render_then_parse_word (v : Z) :
  0 <= v < 2 ^ 32 ->
  parseHexWord (hex8 v) = Ok v
  /\ String.length (hex8 v) = 8%nat
  /\ allHex (hex8 v) = true
  /\ Spec.upperString (hex8 v) = hex8 v
  /\ (forall w, 0 <= w < 2 ^ 32 -> hex8 w = hex8 v -> w = v).
Proof.
  intros Hv. pose proof (parseHexWord_hex8 v Hv) as Hp.
  split; [exact Hp|]. split; [reflexivity|]. split; [|split].
  - rewrite parseHexWord_cases in Hp. change (String.length (hex8 v)) with 8%nat in Hp.
    change (8 <? 8)%nat with false in Hp. cbv iota in Hp.
    destruct (allHex (hex8 v)); [reflexivity|discriminate].
  - unfold hex8. cbn [map string_of_list_ascii Spec.upperString].
    rewrite !hexChar_isUpper by (apply nibble_range; lia). reflexivity.
  - intros w Hw E. pose proof (parseHexWord_hex8 w Hw) as Hq.
    rewrite E, Hp in Hq. now injection Hq.
Qed.

Lemma render_then_parse_word_witness :
  parseHexWord (hex8 0x0000803F) = Ok 0x0000803F
  /\ String.length (hex8 0x0000803F) = 8%nat
  /\ allHex (hex8 0x0000803F) = true
  /\ Spec.upperString (hex8 0x0000803F) = hex8 0x0000803F
  /\ (forall w, 0 <= w < 2 ^ 32 -> hex8 w = hex8 0x0000803F -> w = 0x0000803F).
Proof.
  apply (render_then_parse_word 0x0000803F). lia.
Defined.

(** ** The timestamp decoder *)

(** X6.  The year test of [parseDateTimeFromTwoHex] can never fail: two
    decimal digits give a year between 2000 and 2099, so the error
    "year out of range" is never raised and the year 2100 the test allows
    is never produced; every error the function raises is one of its other
    seven. *)
Theorem year_check_never_fails (hex1 hex2 : string) :
  match parseDateTimeFromTwoHex hex1 hex2 with
  | Ok r => 2000 <= year r <= 2099
  | Throw e => e <> YearOutOfRange /\ isTimestampError e = true
  end.
Proof.
  unfold parseDateTimeFromTwoHex.
  destruct (_ || _); [split; [discriminate|reflexivity]|].
  destruct (decToInt hex1 0) as [YY|e0] eqn:EYY; cbn [bind];
    [|unfold decToInt in EYY; destruct (_ || _) in EYY; [|discriminate];
      injection EYY as <-; split; [discriminate|reflexivity]].
  destruct (decToInt hex1 2) as [MM|e1] eqn:EMM; cbn [bind];
    [|unfold decToInt in EMM; destruct (_ || _) in EMM; [|discriminate];
      injection EMM as <-; split; [discriminate|reflexivity]].
  destruct (decToInt hex1 4) as [DD|e2] eqn:EDD; cbn [bind];
    [|unfold decToInt in EDD; destruct (_ || _) in EDD; [|discriminate];
      injection EDD as <-; split; [discriminate|reflexivity]].
  destruct (decToInt hex1 6) as [hh|e3] eqn:Ehh; cbn [bind];
    [|unfold decToInt in Ehh; destruct (_ || _) in Ehh; [|discriminate];
      injection Ehh as <-; split; [discriminate|reflexivity]].
  destruct (decToInt hex2 0) as [mm|e4] eqn:Emm; cbn [bind];
    [|unfold decToInt in Emm; destruct (_ || _) in Emm; [|discriminate];
      injection Emm as <-; split; [discriminate|reflexivity]].
  destruct (decToInt hex2 2) as [ss|e5] eqn:Ess; cbn [bind];
    [|unfold decToInt in Ess; destruct (_ || _) in Ess; [|discriminate];
      injection Ess as <-; split; [discriminate|reflexivity]].
  apply decToInt_range in EYY.
  remember (2000 + YY) as y eqn:Ey.
  assert (negb ((y <? 2000) || (2100 <? y)) = true) as -> by lia.
  cbn [check bind].
  repeat match goal with
         | |- context [check ?b ?e] =>
             destruct b; cbn [check bind]; [|split; [discriminate|reflexivity]]
         end.
  cbn [year]. lia.
Qed.

Lemma digitChar_digit d :
  0 <= d <= 9 ->
  inRange "0" "9" (Spec.digitChar d) = true
  /\ code (Spec.digitChar d) - code "0"%char = d.
Proof.
  intros Hd.
  pose proof (range_all
    (fun d => inRange "0" "9" (Spec.digitChar d)
              && (code (Spec.digitChar d) - code "0"%char =? d))
    0 10 ltac:(vm_compute; reflexivity) d ltac:(lia)) as H.
  cbv beta in H. apply andb_true_iff in H. destruct H as [H1 H2].
  split; [exact H1|lia].
Qed.

Lemma decToInt_two s pos n :
  0 <= n <= 99 ->
  charAt s pos = Spec.digitChar (n / 10 mod 10) ->
  charAt s (pos + 1) = Spec.digitChar (n mod 10) ->
  decToInt s pos = Ok n.
Proof.
  intros Hn E1 E2. unfold decToInt. rewrite E1, E2.
  destruct (digitChar_digit (n / 10 mod 10)) as [-> ->];
    [Z.div_mod_to_equations; lia|].
  destruct (digitChar_digit (n mod 10)) as [-> ->];
    [Z.div_mod_to_equations; lia|].
  cbn [negb orb]. f_equal. Z.div_mod_to_equations; lia.
Qed.

(** X7.  The timestamp decoder accepts every combination of fields that
    passes the six range tests, and there is no calendar test: two digits
    of year, a month in 1..12, a day in 1..31 (also 31 February), an hour
    in 0..23, minute and second in 0..59 give the record with the year
    2000 + YY and the zero-padded texts, whatever follows the four digits
    of minute and second in the second text. *)
Theorem timestamp_accepts_every_field_in_range
        (YY MM DD hh mm ss : Z) (tail : string) :
  0 <= YY <= 99 -> 1 <= MM <= 12 -> 1 <= DD <= 31 ->
  0 <= hh <= 23 -> 0 <= mm <= 59 -> 0 <= ss <= 59 ->
  (4 <= String.length tail)%nat ->
  parseDateTimeFromTwoHex
    (Spec.two YY ++ Spec.two MM ++ Spec.two DD ++ Spec.two hh)
    (Spec.two mm ++ Spec.two ss ++ tail)
  = Ok (mkRec (2000 + YY) MM DD hh mm ss
              (Spec.date (2000 + YY) MM DD) (Spec.time hh mm ss) []).
Proof.
  intros HYY HMM HDD Hhh Hmm Hss Htail.
  unfold parseDateTimeFromTwoHex.
  assert ((String.length (Spec.two YY ++ Spec.two MM ++ Spec.two DD ++ Spec.two hh) <? 8)%nat
          = false) as -> by reflexivity.
  assert ((String.length (Spec.two mm ++ Spec.two ss ++ tail) <? 8)%nat = false) as ->.
  { unfold Spec.two. cbn [String.append String.length].
    apply Nat.ltb_ge. lia. }
  cbn [orb].
  rewrite (decToInt_two _ 0 YY), (decToInt_two _ 2 MM), (decToInt_two _ 4 DD),
    (decToInt_two _ 6 hh) by (reflexivity || lia). cbn [bind].
  rewrite (decToInt_two _ 0 mm), (decToInt_two _ 2 ss) by (reflexivity || lia).
  cbn [bind].
  remember (2000 + YY) as y eqn:Ey.
  assert (negb ((y <? 2000) || (2100 <? y)) = true) as -> by lia.
  assert (negb ((MM <? 1) || (12 <? MM)) = true) as -> by lia.
  assert (negb ((DD <? 1) || (31 <? DD)) = true) as -> by lia.
  assert (negb ((hh <? 0) || (23 <? hh)) = true) as -> by lia.
  assert (negb ((mm <? 0) || (59 <? mm)) = true) as -> by lia.
  assert (negb ((ss <? 0) || (59 <? ss)) = true) as -> by lia.
  cbn [check bind]. unfold formatDate, formatTime, Spec.date, Spec.time.
  rewrite showInt_four, !showIntW_two by lia. reflexivity.
Qed.

Lemma timestamp_accepts_every_field_in_range_witness :
  parseDateTimeFromTwoHex
    (Spec.two 25 ++ Spec.two 2 ++ Spec.two 31 ++ Spec.two 23)
    (Spec.two 59 ++ Spec.two 0 ++ "FFFF")
  = Ok (mkRec (2000 + 25) 2 31 23 59 0
              (Spec.date (2000 + 25) 2 31) (Spec.time 23 59 0) []).
Proof.
  apply (timestamp_accepts_every_field_in_range 25 2 31 23 59 0 "FFFF");
    cbn; lia.
Defined.

Lemma charAt_app_l (s t : string) (n : nat) :
  (n < String.length s)%nat -> charAt (s ++ t) n = charAt s n.
Proof.
  intros H. unfold charAt. now rewrite <- (append_correct1 s t n H).
Qed.

Lemma decToInt_app_l (s t : string) (pos : nat) :
  (pos + 1 < String.length s)%nat -> decToInt (s ++ t) pos = decToInt s pos.
Proof.
  intros H. unfold decToInt. now rewrite !charAt_app_l by lia.
Qed.

(** X8.  [parseDateTimeFromTwoHex] reads the first eight characters of
    its first text and the first four of its second and nothing else:
    what follows them (the low 16 bits of the second timestamp word of a
    frame) has no influence on the outcome, as long as both texts have 8
    characters or more. *)
Theorem timestamp_reads_twelve_characters (h1 h2 x y y' : string) :
  String.length h1 = 8%nat -> String.length h2 = 4%nat ->
  (4 <= String.length y)%nat -> (4 <= String.length y')%nat ->
  parseDateTimeFromTwoHex (h1 ++ x) (h2 ++ y)
  = parseDateTimeFromTwoHex h1 (h2 ++ y').
Proof.
  intros H1 H2 Hy Hy'. unfold parseDateTimeFromTwoHex.
  rewrite !string_length_app, H1, H2.
  assert ((8 + String.length x <? 8)%nat = false) as -> by (apply Nat.ltb_ge; lia).
  assert ((4 + String.length y <? 8)%nat = false) as -> by (apply Nat.ltb_ge; lia).
  assert ((4 + String.length y' <? 8)%nat = false) as -> by (apply Nat.ltb_ge; lia).
  change (8 <? 8)%nat with false. cbn [orb].
  rewrite !(decToInt_app_l h1 x) by (rewrite H1; cbn; lia).
  rewrite !(decToInt_app_l h2 y), !(decToInt_app_l h2 y') by (rewrite H2; cbn; lia).
  reflexivity.
Qed.

Lemma timestamp_reads_twelve_characters_witness :
  parseDateTimeFromTwoHex ("25011013" ++ "99") ("3045" ++ "0000")
  = parseDateTimeFromTwoHex "25011013" ("3045" ++ "BEEF").
Proof.
  apply (timestamp_reads_twelve_characters "25011013" "3045" "99" "0000" "BEEF");
    cbn; lia.
Defined.

(** ** The layout of a file *)

Lemma beWords_firstn k : forall l,
  Spec.beWords (firstn (4 * k) l) = firstn k (Spec.beWords l).
Proof.
  induction k as [|k IH]; intros l; [reflexivity|].
  replace (4 * S k)%nat with (S (S (S (S (4 * k))))) by lia.
  destruct l as [|b0 [|b1 [|b2 [|b3 l]]]]; try reflexivity.
  cbn [firstn Spec.beWords]. now rewrite IH.
Qed.

Lemma beWords_skipn k : forall l,
  Spec.beWords (skipn (4 * k) l) = skipn k (Spec.beWords l).
Proof.
  induction k as [|k IH]; intros l; [reflexivity|].
  replace (4 * S k)%nat with (S (S (S (S (4 * k))))) by lia.
  destruct l as [|b0 [|b1 [|b2 [|b3 l]]]];
    cbn [skipn Spec.beWords]; rewrite ?skipn_nil; try reflexivity.
  all: apply IH.
Qed.

(** The kept words are the words of the full 128-byte blocks after the
    first 196 bytes. *)
Lemma keptWords_payload data :
  Spec.keptWords data
  = List.concat (map Spec.beWords (Spec.fullChunks 128 (skipn 196 data))).
Proof.
  unfold Spec.keptWords, Spec.blocks.
  replace (skipn 196 data) with (skipn 4 (skipn 192 data))
    by (rewrite skipn_skipn; reflexivity).
  set (payload := skipn 192 data).
  rewrite (fullChunks_unfold 128 ltac:(lia) (skipn 4 payload)).
  rewrite length_skipn.
  destruct (Nat.leb_spec 132 (List.length payload)) as [H|H].
  - destruct (Nat.leb_spec 128 (List.length payload - 4)) as [_|H']; [|lia].
    cbn [map List.concat].
    rewrite skipn_skipn. change (128 + 4)%nat with 132%nat.
    replace (firstn 128 (skipn 4 payload)) with (skipn 4 (firstn 132 payload))
      by (rewrite skipn_firstn_comm; reflexivity).
    pose proof (beWords_skipn 1 (firstn 132 payload)) as E.
    change (4 * 1)%nat with 4%nat in E. rewrite E. clear E.
    assert (List.length (Spec.beWords (firstn 132 payload)) = 33%nat) as Hl.
    { apply beWords_length. rewrite length_firstn. lia. }
    destruct (Spec.beWords (firstn 132 payload)) as [|w ws]; [discriminate|].
    reflexivity.
  - destruct (Nat.leb_spec 128 (List.length payload - 4)) as [H'|_]; [lia|].
    reflexivity.
Qed.

Lemma fullChunks_map {A B} (f : A -> B) (n : nat) (l : list A) :
  (0 < n)%nat ->
  Spec.fullChunks n (map f l) = map (map f) (Spec.fullChunks n l).
Proof.
  intros Hn. unfold Spec.fullChunks. rewrite length_map.
  generalize (List.length l) as fuel. intros fuel. revert l.
  induction fuel as [|fuel IH]; intros l; cbn [Spec.chunksFuel]; [reflexivity|].
  rewrite length_map. destruct (n <=? List.length l)%nat; [|reflexivity].
  cbn [map]. now rewrite firstn_map, skipn_map, IH.
Qed.

Lemma block_groups (b : list byte) :
  List.length b = 128%nat ->
  Spec.fullChunks 16 (map hex8 (Spec.beWords b))
  = map (fun f => map hex8 (Spec.beWords f)) (Spec.fullChunks 64 b).
Proof.
  intros Hb.
  rewrite (fullChunks_map hex8 16) by lia.
  assert (List.length (Spec.beWords b) = 32%nat) as Hw
      by (apply beWords_length; lia).
  rewrite (fullChunks_unfold 16 ltac:(lia) (Spec.beWords b)), Hw.
  rewrite (fullChunks_unfold 16 ltac:(lia) (skipn 16 (Spec.beWords b))).
  rewrite length_skipn, Hw.
  rewrite (fullChunks_short 16 ltac:(lia) (skipn 16 (skipn 16 (Spec.beWords b))))
    by (rewrite !length_skipn, Hw; cbn; lia).
  rewrite (fullChunks_unfold 64 ltac:(lia) b), Hb.
  rewrite (fullChunks_unfold 64 ltac:(lia) (skipn 64 b)).
  rewrite length_skipn, Hb.
  rewrite (fullChunks_short 64 ltac:(lia) (skipn 64 (skipn 64 b)))
    by (rewrite !length_skipn, Hb; cbn; lia).
  cbn [Nat.leb Nat.sub map].
  change 64%nat with (4 * 16)%nat.
  now rewrite !beWords_firstn, !beWords_skipn.
Qed.

Lemma blocks_groups (bs : list (list byte)) :
  Forall (fun b => List.length b = 128%nat) bs ->
  Spec.fullChunks 16 (map hex8 (List.concat (map Spec.beWords bs)))
  = map (fun f => map hex8 (Spec.beWords f)) (flat_map (Spec.fullChunks 64) bs).
Proof.
  induction 1 as [|b bs Hb _ IH]; [reflexivity|].
  cbn [map List.concat flat_map]. rewrite map_app, (map_app (fun f => _)).
  rewrite (fullChunks_app 16 ltac:(lia) 2)
    by (rewrite length_map; apply beWords_length; lia).
  now rewrite IH, block_groups.
Qed.

Lemma fullChunks_Forall_length {A} (n : nat) (l : list A) :
  (0 < n)%nat -> Forall (fun g => List.length g = n) (Spec.fullChunks n l).
Proof.
  intros Hn. apply Forall_forall. intros g Hg.
  eapply (fullChunks_length n Hn); eassumption.
Qed.

(** The groups of the decoder are the renderings of the frames. *)
Lemma groups_frames data :
  Spec.groups data = map (fun f => map hex8 (Spec.beWords f)) (Layout.frames data).
Proof.
  unfold Spec.groups, Layout.frames. rewrite keptWords_payload.
  apply blocks_groups. apply fullChunks_Forall_length. lia.
Qed.

Lemma frames_length data f : In f (Layout.frames data) -> List.length f = 64%nat.
Proof.
  unfold Layout.frames. rewrite in_flat_map. intros (b & _ & Hf).
  eapply (fullChunks_length 64 ltac:(lia)); eassumption.
Qed.

Lemma hexChar_decimal d :
  0 <= d < 16 ->
  inRange "0" "9" (hexChar d) = (d <=? 9)
  /\ (d <= 9 -> code (hexChar d) - code "0"%char = d).
Proof.
  intros Hd.
  pose proof (range_all
    (fun d => Bool.eqb (inRange "0" "9" (hexChar d)) (d <=? 9)
              && ((9 <? d) || (code (hexChar d) - code "0"%char =? d)))
    0 16 ltac:(vm_compute; reflexivity) d ltac:(lia)) as H.
  cbv beta in H. apply andb_true_iff in H. destruct H as [H1 H2].
  apply Bool.eqb_prop in H1. split; [exact H1|lia].
Qed.

Lemma decToInt_nibbles (s : string) (pos : nat) (hi lo : Z) :
  0 <= hi < 16 -> 0 <= lo < 16 ->
  charAt s pos = hexChar hi -> charAt s (pos + 1) = hexChar lo ->
  decToInt s pos
  = if (hi <=? 9) && (lo <=? 9) then Ok (hi * 10 + lo) else Throw NotDecimalDigit.
Proof.
  intros Hhi Hlo E1 E2. unfold decToInt. rewrite E1, E2.
  destruct (hexChar_decimal hi Hhi) as [-> V1].
  destruct (hexChar_decimal lo Hlo) as [-> V2].
  destruct (Z.leb_spec hi 9); cbn [negb orb andb]; [|reflexivity].
  destruct (Z.leb_spec lo 9); cbn [negb orb andb]; [|reflexivity].
  now rewrite V1, V2 by assumption.
Qed.

Lemma nibble_beWord b0 b1 b2 b3 :
  let w := Spec.beWord b0 b1 b2 b3 in
  let B (b : byte) := Z.of_N (Byte.to_N b) in
  nibble w 7 = B b0 / 16 /\ nibble w 6 = B b0 mod 16
  /\ nibble w 5 = B b1 / 16 /\ nibble w 4 = B b1 mod 16
  /\ nibble w 3 = B b2 / 16 /\ nibble w 2 = B b2 mod 16
  /\ nibble w 1 = B b3 / 16 /\ nibble w 0 = B b3 mod 16.
Proof.
  cbv zeta. rewrite !nibble_spec by lia. unfold Spec.beWord.
  pose proof (Byte.to_N_bounded b0). pose proof (Byte.to_N_bounded b1).
  pose proof (Byte.to_N_bounded b2). pose proof (Byte.to_N_bounded b3).
  set (B0 := Z.of_N (Byte.to_N b0)). set (B1 := Z.of_N (Byte.to_N b1)).
  set (B2 := Z.of_N (Byte.to_N b2)). set (B3 := Z.of_N (Byte.to_N b3)).
  assert (0 <= B0 < 256 /\ 0 <= B1 < 256 /\ 0 <= B2 < 256 /\ 0 <= B3 < 256)
    as HB by (subst B0 B1 B2 B3; lia).
  clearbody B0 B1 B2 B3.
  change (16 ^ 7) with 268435456. change (16 ^ 6) with 16777216.
  change (16 ^ 5) with 1048576. change (16 ^ 4) with 65536.
  change (16 ^ 3) with 4096. change (16 ^ 2) with 256.
  change (16 ^ 1) with 16. change (16 ^ 0) with 1.
  change (2 ^ 24) with 16777216. change (2 ^ 16) with 65536. change (2 ^ 8) with 256.
  repeat split; Z.div_mod_to_equations; lia.
Qed.

(** The two characters of a rendered word at an even position are read
    as the packed decimal of the byte they come from. *)
Lemma decToInt_bcd b0 b1 b2 b3 :
  let s := hex8 (Spec.beWord b0 b1 b2 b3) in
  let ofBcd b := match Layout.bcdValue b with
                 | Some n => Ok n
                 | None => Throw NotDecimalDigit
                 end in
  decToInt s 0 = ofBcd b0 /\ decToInt s 2 = ofBcd b1
  /\ decToInt s 4 = ofBcd b2 /\ decToInt s 6 = ofBcd b3.
Proof.
  cbv zeta. unfold Layout.bcdValue.
  destruct (nibble_beWord b0 b1 b2 b3) as (N7 & N6 & N5 & N4 & N3 & N2 & N1 & N0).
  cbv zeta in *.
  set (w := Spec.beWord b0 b1 b2 b3) in *.
  rewrite <- N7, <- N6, <- N5, <- N4, <- N3, <- N2, <- N1, <- N0.
  rewrite (decToInt_nibbles (hex8 w) 0 (nibble w 7) (nibble w 6)),
          (decToInt_nibbles (hex8 w) 2 (nibble w 5) (nibble w 4)),
          (decToInt_nibbles (hex8 w) 4 (nibble w 3) (nibble w 2)),
          (decToInt_nibbles (hex8 w) 6 (nibble w 1) (nibble w 0))
    by (reflexivity || (apply nibble_range; lia)).
  repeat split;
    match goal with |- context [if ?c then _ else _] => destruct c; reflexivity end.
Qed.

Lemma bcdValue_range b n : Layout.bcdValue b = Some n -> 0 <= n <= 99.
Proof.
  unfold Layout.bcdValue. pose proof (Byte.to_N_bounded b).
  destruct (Z.leb_spec (Z.of_N (Byte.to_N b) / 16) 9); cbn [andb]; [|discriminate].
  destruct (Z.leb_spec (Z.of_N (Byte.to_N b) mod 16) 9); [|discriminate].
  intros [= <-]. Z.div_mod_to_equations; lia.
Qed.

Lemma parseFloats_beWords_fuel n : forall l,
  (List.length l <= n)%nat ->
  parseFloats (map hex8 (Spec.beWords l)) = Ok (Layout.leFloats l).
Proof.
  induction n as [|n IH]; intros l Hl.
  - destruct l; [reflexivity|cbn in Hl; lia].
  - destruct l as [|b0 [|b1 [|b2 [|b3 l]]]]; try reflexivity.
    cbn [Spec.beWords map parseFloats Layout.leFloats].
    rewrite parseHexAsFloat_hex8 by apply beWord_range. cbn [bind].
    rewrite IH by (cbn in Hl; lia). cbn [bind]. unfold Layout.leFloat.
    now rewrite swap_beWord.
Qed.

Lemma parseFloats_beWords l :
  parseFloats (map hex8 (Spec.beWords l)) = Ok (Layout.leFloats l).
Proof. apply (parseFloats_beWords_fuel (List.length l)). lia. Qed.

(** The body of the group loop on the rendering of a frame: the record of
    the frame is appended, or nothing. *)
Lemma groupBody_frame (f : list byte) (rows : list Rec) :
  List.length f = 64%nat ->
  groupBody (map hex8 (Spec.beWords f)) rows = Ok (rows ++ Layout.frameRecords f).
Proof.
  intros Hlen.
  destruct f as [|m0 [|m1 [|m2 [|m3 [|bY [|bM [|bD [|bh [|bm [|bs [|p0 [|p1 vals]]]]]]]]]]]];
    try discriminate.
  assert (List.length vals = 52%nat) as Hvals by (cbn in Hlen; lia).
  clear Hlen.
  unfold groupBody, Layout.frameRecords, Layout.frameRecord.
  cbn [Spec.beWords map tl skipn nth].
  assert (List.length (map hex8 (Spec.beWords vals)) = 13%nat) as H13
      by (rewrite length_map; apply beWords_length; lia).
  cbn [List.length]. rewrite H13. cbn [Nat.ltb Nat.leb].
  rewrite parseFloats_beWords.
  unfold parseDateTimeFromTwoHex.
  change (String.length (hex8 ?w)) with 8%nat. cbn [Nat.ltb Nat.leb orb].
  destruct (decToInt_bcd bY bM bD bh) as (-> & -> & -> & ->).
  destruct (decToInt_bcd bm bs p0 p1) as (-> & -> & _ & _).
  destruct (Layout.bcdValue bY) as [YY|] eqn:EY; cbn [bind];
    [|now rewrite app_nil_r].
  destruct (Layout.bcdValue bM) as [MM|] eqn:EM; cbn [bind];
    [|now rewrite app_nil_r].
  destruct (Layout.bcdValue bD) as [DD|] eqn:ED; cbn [bind];
    [|now rewrite app_nil_r].
  destruct (Layout.bcdValue bh) as [hh|] eqn:Eh; cbn [bind];
    [|now rewrite app_nil_r].
  destruct (Layout.bcdValue bm) as [mm|] eqn:Em; cbn [bind];
    [|now rewrite app_nil_r].
  destruct (Layout.bcdValue bs) as [ss|] eqn:Es; cbn [bind];
    [|now rewrite app_nil_r].
  apply bcdValue_range in EY, EM, ED, Eh, Em, Es.
  remember (2000 + YY) as y eqn:Ey.
  assert (negb ((y <? 2000) || (2100 <? y)) = true) as -> by lia.
  cbn [check bind].
  destruct (Z.leb_spec 1 MM), (Z.leb_spec MM 12); cbn [andb];
    try (assert (negb ((MM <? 1) || (12 <? MM)) = false) as -> by lia;
         cbn [check bind]; now rewrite app_nil_r).
  assert (negb ((MM <? 1) || (12 <? MM)) = true) as -> by lia. cbn [check bind].
  destruct (Z.leb_spec 1 DD), (Z.leb_spec DD 31); cbn [andb];
    try (assert (negb ((DD <? 1) || (31 <? DD)) = false) as -> by lia;
         cbn [check bind]; now rewrite app_nil_r).
  assert (negb ((DD <? 1) || (31 <? DD)) = true) as -> by lia. cbn [check bind].
  destruct (Z.leb_spec hh 23); cbn [andb];
    [|assert (negb ((hh <? 0) || (23 <? hh)) = false) as -> by lia;
      cbn [check bind]; now rewrite app_nil_r].
  assert (negb ((hh <? 0) || (23 <? hh)) = true) as -> by lia. cbn [check bind].
  destruct (Z.leb_spec mm 59); cbn [andb];
    [|assert (negb ((mm <? 0) || (59 <? mm)) = false) as -> by lia;
      cbn [check bind]; now rewrite app_nil_r].
  assert (negb ((mm <? 0) || (59 <? mm)) = true) as -> by lia. cbn [check bind].
  destruct (Z.leb_spec ss 59); cbn [andb];
    [|assert (negb ((ss <? 0) || (59 <? ss)) = false) as -> by lia;
      cbn [check bind]; now rewrite app_nil_r].
  assert (negb ((ss <? 0) || (59 <? ss)) = true) as -> by lia. cbn [check bind].
  unfold setFloatValues, formatDate, formatTime, Spec.date, Spec.time.
  cbn [year month day hour minute second dateStr timeStr].
  now rewrite showInt_four, !showIntW_two by lia.
Qed.

Lemma foldGroups_frames (fs : list (list byte)) : forall rows,
  Forall (fun f => List.length f = 64%nat) fs ->
  Spec.foldGroups groupBody (map (fun f => map hex8 (Spec.beWords f)) fs) rows
  = Ok (rows ++ flat_map Layout.frameRecords fs).
Proof.
  induction fs as [|f fs IH]; intros rows Hfs; cbn [map Spec.foldGroups flat_map].
  - now rewrite app_nil_r.
  - inversion Hfs as [|? ? Hf Hrest]; subst.
    rewrite groupBody_frame by assumption. cbn [bind].
    rewrite IH by assumption. now rewrite app_assoc.
Qed.

(** [parseBinFile] on a file that can be opened. *)
Lemma parseBinFile_records fs name data :
  fs name = Some data -> parseBinFile fs name = Ok (Layout.records data).
Proof.
  intros Hfs. unfold parseBinFile.
  rewrite (parseWith_open groupBody fs name data [] Hfs), groups_frames.
  rewrite foldGroups_frames; [reflexivity|].
  apply Forall_forall. intros f. apply frames_length.
Qed.

(** X9.  [parseBinFile] computes the layout: a file that cannot be opened
    is the only failure; on every other file the result is the list of
    the records of its frames, frame after frame in the order of the file,
    where the frames are the 64-byte halves of the full 128-byte blocks
    after byte 196 and a frame gives a record exactly when its bytes 4..9
    are packed decimals with month, day, hour, minute and second in
    range; the values are the 13 little-endian floats of bytes 12..63,
    rounded to two decimals. *)
Theorem parseBinFile_computes_the_layout (fs : filesystem) (name : string) :
  parseBinFile fs name
  = match fs name with
    | Some data => Ok (Layout.records data)
    | None => Throw CannotOpen
    end.
Proof.
  destruct (fs name) as [data|] eqn:Hfs.
  - now apply parseBinFile_records.
  - now apply parseWith_closed.
Qed.

Lemma fullChunks_count {A} (n : nat) (l : list A) :
  (0 < n)%nat -> List.length (Spec.fullChunks n l) = (List.length l / n)%nat.
Proof.
  intros Hn. unfold Spec.fullChunks.
  assert (forall fuel (l : list A), (List.length l <= fuel)%nat ->
            List.length (Spec.chunksFuel fuel n l) = (List.length l / n)%nat) as H.
  { induction fuel as [|fuel IH]; intros l0 Hl; cbn [Spec.chunksFuel].
    - destruct l0; [|cbn in Hl; lia]. cbn [List.length].
      symmetry. apply Nat.Div0.div_0_l.
    - destruct (Nat.leb_spec n (List.length l0)) as [Hle|Hlt].
      + cbn [List.length]. rewrite IH by (rewrite length_skipn; lia).
        rewrite length_skipn.
        replace (List.length l0) with (List.length l0 - n + 1 * n)%nat at 2 by lia.
        rewrite Nat.div_add by lia. lia.
      + cbn [List.length]. symmetry. now apply Nat.div_small. }
  apply H. lia.
Qed.

Lemma frames_count data :
  List.length (Layout.frames data) = (2 * ((List.length data - 196) / 128))%nat.
Proof.
  unfold Layout.frames.
  rewrite <- (length_skipn 196 data), <- (fullChunks_count 128) by lia.
  pose proof (fullChunks_Forall_length 128 (skipn 196 data) ltac:(lia)) as H.
  induction H as [|b bs Hb _ IH]; [reflexivity|].
  cbn [flat_map List.length]. rewrite length_app, IH.
  rewrite (fullChunks_count 64) by lia. rewrite Hb. cbn. lia.
Qed.

Lemma records_count data :
  (List.length (Layout.records data) <= List.length (Layout.frames data))%nat.
Proof.
  unfold Layout.records. induction (Layout.frames data) as [|f fs IH]; [cbn; lia|].
  cbn [flat_map List.length]. rewrite length_app.
  unfold Layout.frameRecords at 1. destruct (Layout.frameRecord f); cbn [List.length]; lia.
Qed.

(** X10.  The decoder works block by block: a file of [n] bytes gives at
    most two records for each full block of 128 bytes after its first 196
    bytes, so none at all below 324 bytes, and a frame of 64 bytes that
    does not complete a block gives none. *)
Theorem records_bounded_by_full_blocks
        (fs : filesystem) (name : string) (data : list byte) (rows : list Rec) :
  fs name = Some data -> parseBinFile fs name = Ok rows ->
  (List.length rows <= 2 * ((List.length data - 196) / 128))%nat.
Proof.
  intros Hfs. rewrite (parseBinFile_records fs name data Hfs). intros [= <-].
  rewrite <- frames_count. apply records_count.
Qed.

Lemma records_bounded_by_full_blocks_witness :
  (List.length sampleRows <= 2 * ((List.length sampleFile - 196) / 128))%nat.
Proof.
  apply (records_bounded_by_full_blocks (fileOf sampleFile) "a.bin" sampleFile sampleRows).
  - reflexivity.
  - vm_compute. reflexivity.
Defined.

(** X11.  The first 196 bytes of a file (the preamble and the first word
    of the first block) have no influence on the result: two files that
    agree from byte 196 on decode to the same records. *)
Theorem first_196_bytes_are_ignored
        (fs1 fs2 : filesystem) (n1 n2 : string) (d1 d2 : list byte) :
  fs1 n1 = Some d1 -> fs2 n2 = Some d2 ->
  skipn 196 d1 = skipn 196 d2 ->
  parseBinFile fs1 n1 = parseBinFile fs2 n2.
Proof.
  intros H1 H2 E.
  rewrite (parseBinFile_records fs1 n1 d1 H1), (parseBinFile_records fs2 n2 d2 H2).
  unfold Layout.records, Layout.frames. now rewrite E.
Qed.

Lemma first_196_bytes_are_ignored_witness :
  parseBinFile (fileOf sampleFile) "a.bin"
  = parseBinFile (fileOf (repeat xff 196 ++ skipn 196 sampleFile)) "b.bin".
Proof.
  apply (first_196_bytes_are_ignored _ _ _ _ sampleFile
           (repeat xff 196 ++ skipn 196 sampleFile)); reflexivity.
Defined.

Lemma frameRecord_ignores (m m' stamp p p' vals : list byte) :
  List.length m = 4%nat -> List.length m' = 4%nat ->
  List.length stamp = 6%nat ->
  List.length p = 2%nat -> List.length p' = 2%nat ->
  Layout.frameRecords (m ++ stamp ++ p ++ vals)
  = Layout.frameRecords (m' ++ stamp ++ p' ++ vals).
Proof.
  intros Hm Hm' Hs Hp Hp'.
  destruct m as [|? [|? [|? [|? [|]]]]]; try discriminate.
  destruct m' as [|? [|? [|? [|? [|]]]]]; try discriminate.
  destruct stamp as [|? [|? [|? [|? [|? [|? [|]]]]]]]; try discriminate.
  destruct p as [|? [|? [|]]]; try discriminate.
  destruct p' as [|? [|? [|]]]; try discriminate.
  reflexivity.
Qed.

(** X12.  Of the 64 bytes of a frame the first four (the marker) and the
    bytes 10 and 11 (the low half of the second timestamp word) are not
    looked at: the body of the group loop gives the same outcome when
    they are changed. *)
Theorem marker_and_padding_are_ignored
        (m m' stamp p p' vals : list byte) (rows : list Rec) :
  List.length m = 4%nat -> List.length m' = 4%nat ->
  List.length stamp = 6%nat ->
  List.length p = 2%nat -> List.length p' = 2%nat ->
  List.length vals = 52%nat ->
  groupBody (map hex8 (Spec.beWords (m ++ stamp ++ p ++ vals))) rows
  = groupBody (map hex8 (Spec.beWords (m' ++ stamp ++ p' ++ vals))) rows.
Proof.
  intros Hm Hm' Hs Hp Hp' Hv.
  rewrite !groupBody_frame by (rewrite !length_app; lia).
  now rewrite (frameRecord_ignores m m' stamp p p' vals).
Qed.

Lemma marker_and_padding_are_ignored_witness :
  groupBody (map hex8 (Spec.beWords
     (wordBytes 0xAAAAAAAA ++ [x25; x01; x10; x13; x30; x45] ++ [x00; x00]
      ++ zeros 52))) []
  = groupBody (map hex8 (Spec.beWords
     (wordBytes 0x12345678 ++ [x25; x01; x10; x13; x30; x45] ++ [xbe; xef]
      ++ zeros 52))) [].
Proof.
  apply (marker_and_padding_are_ignored
           (wordBytes 0xAAAAAAAA) (wordBytes 0x12345678)
           [x25; x01; x10; x13; x30; x45] [x00; x00] [xbe; xef] (zeros 52) []);
    reflexivity.
Defined.

Lemma records_app (d e : list byte) :
  (196 <= List.length d)%nat -> ((List.length d - 196) mod 128 = 0)%nat ->
  Layout.records (d ++ e) = Layout.records d ++ Layout.records (firstn 196 d ++ e).
Proof.
  intros Hd Hmod. unfold Layout.records, Layout.frames.
  assert (skipn 196 (firstn 196 d ++ e) = e) as ->.
  { rewrite skipn_app, length_firstn.
    replace (196 - Nat.min 196 (List.length d))%nat with 0%nat by lia.
    rewrite skipn_firstn_comm. replace (196 - 196)%nat with 0%nat by lia.
    reflexivity. }
  rewrite skipn_app. replace (196 - List.length d)%nat with 0%nat by lia.
  change (skipn 0 e) with e.
  rewrite (fullChunks_app 128 ltac:(lia) ((List.length d - 196) / 128)).
  - now rewrite !flat_map_app.
  - rewrite length_skipn.
    pose proof (Nat.div_mod_eq (List.length d - 196) 128). lia.
Qed.

(** X13.  A log that has grown by whole blocks: when the bytes of a file
    after its first 196 fill whole blocks of 128, decoding the file with
    more bytes appended gives the records of the file followed by the
    records of the appended bytes (decoded behind the same 196 bytes). *)
Theorem appended_bytes_append_records (d e : list byte) (name : string) :
  (196 <= List.length d)%nat -> ((List.length d - 196) mod 128 = 0)%nat ->
  exists rows_d rows_e,
    parseBinFile (fileOf d) name = Ok rows_d
    /\ parseBinFile (fileOf (firstn 196 d ++ e)) name = Ok rows_e
    /\ parseBinFile (fileOf (d ++ e)) name = Ok (rows_d ++ rows_e).
Proof.
  intros Hd Hmod.
  exists (Layout.records d), (Layout.records (firstn 196 d ++ e)).
  rewrite (parseBinFile_records (fileOf d) name d eq_refl).
  rewrite (parseBinFile_records (fileOf (firstn 196 d ++ e)) name _ eq_refl).
  rewrite (parseBinFile_records (fileOf (d ++ e)) name _ eq_refl).
  rewrite (records_app d e) by assumption. repeat split; reflexivity.
Qed.

(** X14.  Bytes at the end of a file that do not fill a block of 128 are
    dropped, also when they hold a complete frame of 64 bytes. *)
Theorem trailing_partial_block_is_dropped (d tail : list byte) (name : string) :
  (196 <= List.length d)%nat -> ((List.length d - 196) mod 128 = 0)%nat ->
  (List.length tail < 128)%nat ->
  parseBinFile (fileOf (d ++ tail)) name = parseBinFile (fileOf d) name.
Proof.
  intros Hd Hmod Ht.
  rewrite (parseBinFile_records (fileOf d) name d eq_refl).
  rewrite (parseBinFile_records (fileOf (d ++ tail)) name _ eq_refl).
  rewrite (records_app d tail) by assumption.
  assert (Layout.records (firstn 196 d ++ tail) = []) as ->.
  { unfold Layout.records, Layout.frames.
    rewrite (fullChunks_short 128 ltac:(lia)); [reflexivity|].
    rewrite length_skipn, length_app, length_firstn. lia. }
  now rewrite app_nil_r.
Qed.

Lemma appended_bytes_append_records_witness :
  exists rows_d rows_e,
    parseBinFile (fileOf (firstn 324 sampleFile)) "a.bin" = Ok rows_d
    /\ parseBinFile (fileOf (firstn 196 (firstn 324 sampleFile)
                             ++ skipn 324 sampleFile)) "a.bin" = Ok rows_e
    /\ parseBinFile (fileOf (firstn 324 sampleFile ++ skipn 324 sampleFile)) "a.bin"
       = Ok (rows_d ++ rows_e).
Proof.
  apply (appended_bytes_append_records
           (firstn 324 sampleFile) (skipn 324 sampleFile) "a.bin");
    vm_compute; lia.
Defined.

Lemma trailing_partial_block_is_dropped_witness :
  parseBinFile (fileOf (firstn 324 sampleFile
                        ++ firstn 64 (skipn 196 sampleFile))) "a.bin"
  = parseBinFile (fileOf (firstn 324 sampleFile)) "a.bin".
Proof.
  apply (trailing_partial_block_is_dropped
           (firstn 324 sampleFile) (firstn 64 (skipn 196 sampleFile)) "a.bin");
    vm_compute; lia.
Defined.

(** ** More on the serializer *)

(** Two lists in strictly increasing order with the same elements are
    the same list. *)
Lemma sorted_unique {A} (R : A -> A -> Prop) :
  (forall a, ~ R a a) -> (forall a b c, R a b -> R b c -> R a c) ->
  forall l1 l2,
    StronglySorted R l1 -> StronglySorted R l2 ->
    (forall x, In x l1 <-> In x l2) -> l1 = l2.
Proof.
  intros Hirr Htr. induction l1 as [|a l1 IH]; intros l2 S1 S2 Hin.
  - destruct l2 as [|b l2]; [reflexivity|].
    destruct (proj2 (Hin b) (or_introl eq_refl)).
  - destruct l2 as [|b l2]; [destruct (proj1 (Hin a) (or_introl eq_refl))|].
    apply StronglySorted_inv in S1, S2.
    destruct S1 as [S1 F1], S2 as [S2 F2].
    rewrite Forall_forall in F1, F2.
    assert (a = b) as ->.
    { destruct (proj1 (Hin a) (or_introl eq_refl)) as [E|Ha]; [now symmetry|].
      destruct (proj2 (Hin b) (or_introl eq_refl)) as [E|Hb]; [exact E|].
      exfalso. apply (Hirr a). eapply Htr; [apply F1|apply F2]; eassumption. }
    f_equal. apply IH; [exact S1|exact S2|].
    intros x. split; intros Hx.
    + destruct (proj1 (Hin x) (or_intror Hx)) as [E|Hx']; [|exact Hx'].
      subst x. exfalso. apply (Hirr b). now apply F1.
    + destruct (proj2 (Hin x) (or_intror Hx)) as [E|Hx']; [|exact Hx'].
      subst x. exfalso. apply (Hirr b). now apply F2.
Qed.


(** A list in strictly increasing order passes the dedup loop
    unchanged. *)
Lemma dedupLoop_id_some l : forall last,
  Spec.increasing l ->
  Forall (fun x => Spec.lexLt (Spec.stamp last) (Spec.stamp x)) l ->
  dedupLoop l [] (Some last) = l.
Proof.
  induction l as [|r rest IH]; intros last Hinc Hlast; [reflexivity|].
  rewrite dedupLoop_cons_some.
  apply StronglySorted_inv in Hinc. destruct Hinc as [Hinc Hr].
  inversion Hlast as [|? ? Hlr Hrest]; subst.
  destruct (differs r last) eqn:E.
  - f_equal. now apply IH.
  - apply differs_false in E. rewrite E in Hlr. now apply lexLt_irrefl in Hlr.
Qed.

Lemma dedupLoop_id l : Spec.increasing l -> dedupLoop l [] None = l.
Proof.
  destruct l as [|r rest]; [reflexivity|]. intros Hinc.
  rewrite dedupLoop_cons_none. f_equal.
  apply StronglySorted_inv in Hinc. destruct Hinc as [Hinc Hr].
  now apply dedupLoop_id_some.
Qed.

Lemma dedupLoop_length rows : forall last,
  (List.length (dedupLoop rows [] last) <= List.length rows)%nat.
Proof.
  induction rows as [|r rest IH]; intros last; [cbn; lia|].
  destruct last as [l|].
  - rewrite dedupLoop_cons_some. destruct (differs r l); cbn [List.length].
    + specialize (IH (Some r)). lia.
    + specialize (IH (Some l)). lia.
  - rewrite dedupLoop_cons_none. cbn [List.length]. specialize (IH (Some r)). lia.
Qed.

(** Rows without repeated timestamps, in non-decreasing order, are in
    strictly increasing order. *)
Lemma nondecreasing_NoDup_increasing l :
  Spec.nondecreasing l -> NoDup (map Spec.stamp l) -> Spec.increasing l.
Proof.
  induction 1 as [|a l Hs IH Ha]; intros Hnd; [constructor|].
  cbn [map] in Hnd. apply NoDup_cons_iff in Hnd. destruct Hnd as [Hnotin Hnd].
  constructor; [now apply IH|].
  rewrite Forall_forall in *. intros x Hx.
  destruct (Ha x Hx) as [Hlt|Heq]; [exact Hlt|].
  exfalso. apply Hnotin. rewrite Heq. now apply in_map.
Qed.

Lemma increasing_NoDup l : Spec.increasing l -> NoDup (map Spec.stamp l).
Proof.
  induction 1 as [|a l Hs IH Ha]; cbn [map]; constructor; [|exact IH].
  intros Hin. apply in_map_iff in Hin. destruct Hin as (x & E & Hx).
  rewrite Forall_forall in Ha. specialize (Ha x Hx). rewrite E in Ha.
  now apply lexLt_irrefl in Ha.
Qed.

Section SerializerMore.
Variable showFloat : spec_float -> string.
Variable sort : list Rec -> list Rec.
Hypothesis sort_permutation : forall l, Permutation (sort l) l.
Hypothesis sort_sorted :
  forall l, StronglySorted (fun a b => comp b a = false) (sort l).

Lemma uniqueRowsOf_increasing rowsIn : Spec.increasing (uniqueRowsOf sort rowsIn).
Proof.
  unfold uniqueRowsOf.
  apply dedupLoop_sorted, sorted_nondecreasing, sort_sorted.
Qed.



(** A list in strictly increasing order is left as it is by the sort. *)
Lemma sort_increasing l : Spec.increasing l -> sort l = l.
Proof.
  intros Hinc.
  apply (sorted_unique (fun a b => Spec.lexLt (Spec.stamp a) (Spec.stamp b))).
  - intros a. apply lexLt_irrefl.
  - intros a b c. apply lexLt_trans.
  - apply nondecreasing_NoDup_increasing.
    + apply sorted_nondecreasing, sort_sorted.
    + eapply Permutation_NoDup.
      * apply Permutation_map. symmetry. apply sort_permutation.
      * now apply increasing_NoDup.
  - exact Hinc.
  - intros x. split; apply Permutation_in;
      [apply sort_permutation|symmetry; apply sort_permutation].
Qed.


(** X16.  Removing the repeated timestamps beforehand changes nothing:
    [writeCsv] on its own unique rows writes the same text (and fails in
    the same way) as on the input they come from. *)
Theorem writeCsv_of_unique_rows (canCreate : bool) (rowsIn : list Rec) :
  writeCsv showFloat sort canCreate (uniqueRowsOf sort rowsIn)
  = writeCsv showFloat sort canCreate rowsIn.
Proof.
  unfold writeCsv, dataRows.
  assert (uniqueRowsOf sort (uniqueRowsOf sort rowsIn) = uniqueRowsOf sort rowsIn) as ->;
    [|reflexivity].
  pose proof (uniqueRowsOf_increasing rowsIn) as Hinc.
  unfold uniqueRowsOf at 1. rewrite (sort_increasing _ Hinc).
  now apply dedupLoop_id.
Qed.

(** X17.  The serializer never writes more rows than it is given, and
    when no timestamp occurs twice in the input it drops none: the rows
    written are then the input records, each after the swap of its last
    two values, in sorted order. *)
Theorem rows_written_and_rows_given (rowsIn : list Rec) :
  (List.length (dataRows sort rowsIn) <= List.length rowsIn)%nat
  /\ (NoDup (map Spec.stamp rowsIn) ->
      dataRows sort rowsIn = map swapLastTwo (sort rowsIn)
      /\ Permutation (dataRows sort rowsIn) (map swapLastTwo rowsIn)).
Proof.
  split.
  - unfold dataRows, uniqueRowsOf. rewrite length_map.
    etransitivity; [apply dedupLoop_length|].
    now rewrite (Permutation_length (sort_permutation rowsIn)).
  - intros Hnd.
    assert (dataRows sort rowsIn = map swapLastTwo (sort rowsIn)) as E.
    { unfold dataRows, uniqueRowsOf. f_equal. apply dedupLoop_id.
      apply nondecreasing_NoDup_increasing.
      - apply sorted_nondecreasing, sort_sorted.
      - eapply Permutation_NoDup; [|exact Hnd].
        apply Permutation_map. symmetry. apply sort_permutation. }
    split; [exact E|]. rewrite E. apply Permutation_map, sort_permutation.
Qed.
End SerializerMore.


Lemma writeCsv_of_unique_rows_witness :
  writeCsv (fun _ => "x") insertionSort true (uniqueRowsOf insertionSort sampleRows)
  = writeCsv (fun _ => "x") insertionSort true sampleRows.
Proof.
  apply (writeCsv_of_unique_rows (fun _ => "x") insertionSort
           insertionSort_perm insertionSort_sorted).
Defined.

Lemma rows_written_and_rows_given_witness :
  (List.length (dataRows insertionSort sampleRows) <= List.length sampleRows)%nat
  /\ Permutation (dataRows insertionSort (firstn 2 sampleRows))
                 (map swapLastTwo (firstn 2 sampleRows)).
Proof.
  split.
  - apply (rows_written_and_rows_given insertionSort
             insertionSort_perm insertionSort_sorted sampleRows).
  - apply (rows_written_and_rows_given insertionSort
             insertionSort_perm insertionSort_sorted (firstn 2 sampleRows)).
    vm_compute. repeat constructor; cbn; intuition discriminate.
Defined.

(** ** The window *)

Lemma lastIndexOf_absent c s : MainWindow.hasChar c s = false -> MainWindow.lastIndexOf c s = -1.
Proof.
  induction s as [|a s IH]; cbn [MainWindow.hasChar MainWindow.lastIndexOf]; [reflexivity|].
  intros H. apply orb_false_iff in H. destruct H as [Ha Hs].
  rewrite (IH Hs), Ha. reflexivity.
Qed.

Lemma lastIndexOf_last c stem ext :
  MainWindow.hasChar c ext = false ->
  MainWindow.lastIndexOf c (stem ++ String c ext) = Z.of_nat (String.length stem).
Proof.
  intros Hext. induction stem as [|a stem IH].
  - cbn [String.append MainWindow.lastIndexOf String.length].
    rewrite (lastIndexOf_absent c ext Hext), Ascii.eqb_refl. reflexivity.
  - cbn [String.append MainWindow.lastIndexOf String.length]. rewrite IH.
    destruct (Z.leb_spec 0 (Z.of_nat (String.length stem))); lia.
Qed.

Lemma substring_prefix stem rest :
  substring 0 (String.length stem) (stem ++ rest) = stem.
Proof.
  induction stem as [|a stem IH]; cbn [String.append String.length substring].
  - destruct rest; reflexivity.
  - now rewrite IH.
Qed.

Lemma substring_split n : forall s,
  s = (substring 0 n s ++ substring n (String.length s - n) s)%string.
Proof.
  induction n as [|n IH]; intros s.
  - cbn [String.append]. rewrite Nat.sub_0_r.
    assert (forall t, substring 0 (String.length t) t = t) as H
        by (induction t as [|a t IHt]; cbn; [reflexivity|now rewrite IHt]).
    destruct s; cbn [substring String.append]; [reflexivity|].
    cbn [String.length]. now rewrite H.
  - destruct s as [|a s]; [reflexivity|].
    cbn [substring String.append String.length Nat.sub]. f_equal. apply IH.
Qed.

(** X18.  The CSV beside a [.bin] file in the separate mode: the text
    after the last dot of the whole path is replaced by [csv], a dot
    inside a directory name counting like any other; a path without a dot,
    and a path whose only dot is its first character, get [.csv] appended.
    In every case the result is a prefix of the path followed by [.csv]. *)
Theorem csv_path_replaces_what_follows_the_last_dot :
  (forall stem ext, stem <> "" -> MainWindow.hasChar "." ext = false ->
     MainWindow.csvPathOf (stem ++ "." ++ ext) = (stem ++ ".csv")%string)
  /\ (forall p, MainWindow.hasChar "." p = false -> MainWindow.csvPathOf p = (p ++ ".csv")%string)
  /\ (forall ext, MainWindow.hasChar "." ext = false ->
        MainWindow.csvPathOf ("." ++ ext) = ("." ++ ext ++ ".csv")%string)
  /\ (forall p, exists stem rest,
        p = (stem ++ rest)%string /\ MainWindow.csvPathOf p = (stem ++ ".csv")%string).
Proof.
  split; [|split; [|split]].
  - intros stem ext Hstem Hext. unfold MainWindow.csvPathOf.
    change (stem ++ "." ++ ext)%string with (stem ++ String "." ext)%string.
    rewrite (lastIndexOf_last "." stem ext Hext).
    destruct stem as [|a stem]; [congruence|].
    cbn [String.length].
    destruct (Z.ltb_spec 0 (Z.of_nat (S (String.length stem)))); [|lia].
    unfold MainWindow.left.
    destruct (Z.ltb_spec (Z.of_nat (S (String.length stem))) 0); [lia|].
    rewrite Nat2Z.id.
    change (S (String.length stem)) with (String.length (String a stem)).
    now rewrite substring_prefix.
  - intros p Hp. unfold MainWindow.csvPathOf. now rewrite (lastIndexOf_absent "." p Hp).
  - intros ext Hext. unfold MainWindow.csvPathOf.
    change ("." ++ ext)%string with ("" ++ String "." ext)%string.
    rewrite (lastIndexOf_last "." "" ext Hext). reflexivity.
  - intros p. unfold MainWindow.csvPathOf.
    destruct (0 <? MainWindow.lastIndexOf "." p).
    + unfold MainWindow.left. destruct (MainWindow.lastIndexOf "." p <? 0).
      * exists p, "". split; [|reflexivity].
        clear. induction p as [|a p IH]; cbn; [reflexivity|now rewrite <- IH].
      * eexists _, _. split; [apply (substring_split (Z.to_nat (MainWindow.lastIndexOf "." p)))|].
        reflexivity.
    + exists p, "". split; [|reflexivity].
      clear. induction p as [|a p IH]; cbn; [reflexivity|now rewrite <- IH].
Qed.

Lemma csv_path_replaces_what_follows_the_last_dot_witness :
  MainWindow.csvPathOf ("run.v2/log" ++ "." ++ "bin") = ("run.v2/log" ++ ".csv")%string
  /\ MainWindow.csvPathOf ("run" ++ "." ++ "v2/log") = ("run" ++ ".csv")%string
  /\ MainWindow.csvPathOf "log" = ("log" ++ ".csv")%string
  /\ MainWindow.csvPathOf ("." ++ "bin") = ("." ++ "bin" ++ ".csv")%string.
Proof.
  destruct csv_path_replaces_what_follows_the_last_dot as (H1 & H2 & H3 & _).
  split; [|split; [|split]].
  - apply H1; [discriminate|reflexivity].
  - apply H1; [discriminate|reflexivity].
  - apply H2. reflexivity.
  - apply H3. reflexivity.
Defined.

(** [parseBinFile] looks at the file system at the path it is given and
    nowhere else. *)
Lemma parseBinFile_ext (fs1 fs2 : filesystem) (name : string) :
  fs1 name = fs2 name -> parseBinFile fs1 name = parseBinFile fs2 name.
Proof.
  intros E. destruct (fs2 name) as [data|] eqn:H2.
  - now rewrite (parseBinFile_records fs1 name data E),
                (parseBinFile_records fs2 name data H2).
  - unfold parseBinFile. now rewrite !parseWith_closed.
Qed.

Section WindowFacts.
Variable showFloat : spec_float -> string.
Variable sort : list Rec -> list Rec.
Variable canCreate : string -> bool.

Lemma mergeLoop_spec (fs : filesystem) (binPaths : list string) : forall merged,
  MainWindow.mergeLoop fs binPaths merged
  = match find (fun p => match fs p with None => true | Some _ => false end) binPaths with
    | Some p => inr (MainWindow.ParseFailed p CannotOpen)
    | None =>
        inl (merged ++ flat_map (fun p => match fs p with
                                          | Some data => Layout.records data
                                          | None => []
                                          end) binPaths)
    end.
Proof.
  induction binPaths as [|p rest IH]; intros merged;
    cbn [MainWindow.mergeLoop find flat_map].
  - now rewrite app_nil_r.
  - destruct (fs p) as [data|] eqn:Hp.
    + rewrite (parseBinFile_records fs p data Hp), IH. 
      destruct (find _ rest); [reflexivity|]. now rewrite app_assoc.
    + unfold parseBinFile. now rewrite parseWith_closed.
Qed.

(** X19.  The merge mode is all or nothing.  With files selected and a
    name chosen for the output: when one of the files cannot be opened,
    the first such file is reported and nothing is written, whatever the
    other files hold; otherwise the one CSV written is the serialization of
    the records of all files, in the order of the list, and when it cannot
    be created that is reported and nothing is written. *)
Theorem merge_mode_is_all_or_nothing
        (binPaths : list string) (outFilename : string) (fs : filesystem) :
  binPaths <> [] -> outFilename <> "" ->
  MainWindow.onParse showFloat sort canCreate binPaths true outFilename fs
  = match find (fun p => match fs p with None => true | Some _ => false end) binPaths with
    | Some p => (fs, [MainWindow.ParseFailed p CannotOpen])
    | None =>
        let merged := flat_map (fun p => match fs p with
                                         | Some data => Layout.records data
                                         | None => []
                                         end) binPaths in
        if canCreate outFilename
        then (MainWindow.writeFile fs outFilename
                (header ++ String.concat ""
                   (map (renderRow showFloat) (dataRows sort merged))),
              [MainWindow.MergedWritten outFilename])
        else (fs, [MainWindow.WriteFailed CannotCreate])
    end.
Proof.
  intros Hpaths Hout. unfold MainWindow.onParse.
  destruct binPaths as [|p0 rest]; [congruence|].
  change (List.length (p0 :: rest) =? 0)%nat with false. cbv iota.
  destruct outFilename as [|c out]; [congruence|].
  change (String.length (String c out) =? 0)%nat with false. cbv iota.
  rewrite mergeLoop_spec.
  destruct (find _ (p0 :: rest)); [reflexivity|].
  cbn [app]. cbv zeta.
  unfold MainWindow.writeCsvFile, writeCsv.
  destruct (canCreate (String c out)); reflexivity.
Qed.

Lemma separateLoop_spec (F : filesystem) (binPaths : list string) :
  forall (fs : filesystem) (successList : list string) (shown : list MainWindow.message),
  (forall p, In p binPaths -> fs p = F p) ->
  (forall p q, In p binPaths -> In q binPaths -> MainWindow.csvPathOf p <> q) ->
  MainWindow.separateLoop showFloat sort canCreate fs binPaths successList shown
  = (fold_left (fun fs p =>
                  match MainWindow.csvTextOf showFloat sort canCreate F p with
                  | Ok text => MainWindow.writeFile fs (MainWindow.csvPathOf p) text
                  | Throw _ => fs
                  end) binPaths fs,
     successList ++ flat_map (fun p =>
                  match MainWindow.csvTextOf showFloat sort canCreate F p with
                  | Ok _ => [MainWindow.csvPathOf p]
                  | Throw _ => []
                  end) binPaths,
     shown ++ flat_map (fun p =>
                  match MainWindow.csvTextOf showFloat sort canCreate F p with
                  | Ok _ => []
                  | Throw e => [MainWindow.ParseFailed p e]
                  end) binPaths).
Proof.
  induction binPaths as [|p rest IH]; intros fs successList shown Hfs Hsep;
    cbn [MainWindow.separateLoop fold_left flat_map].
  - now rewrite !app_nil_r.
  - rewrite (parseBinFile_ext fs F p (Hfs p (or_introl eq_refl))).
    assert (forall p', In p' rest -> fs p' = F p') as Hfs' by (intros; apply Hfs; now right).
    assert (forall p' q, In p' rest -> In q rest -> MainWindow.csvPathOf p' <> q) as Hsep'
        by (intros; apply Hsep; now right).
    remember (MainWindow.csvTextOf showFloat sort canCreate F p) as out eqn:Eout.
    unfold MainWindow.csvTextOf in Eout.
    destruct (parseBinFile F p) as [recs|e]; cbn [bind] in Eout.
    + unfold MainWindow.writeCsvFile. rewrite <- Eout.
      destruct out as [text|e]; cbn [bind].
      * rewrite IH; [now rewrite <- !app_assoc| |exact Hsep'].
        intros q Hq. unfold MainWindow.writeFile.
        destruct (String.eqb_spec q (MainWindow.csvPathOf p)) as [E|_]; [|now apply Hfs'].
        exfalso. apply (Hsep p q); [now left|now right|now symmetry].
      * rewrite (IH fs successList _ Hfs' Hsep'). now rewrite <- !app_assoc.
    + subst out. rewrite (IH fs successList _ Hfs' Hsep'). now rewrite <- !app_assoc.
Qed.

Lemma fold_writes (F : filesystem) (binPaths : list string) : forall fs : filesystem,
  NoDup (map MainWindow.csvPathOf binPaths) ->
  let step := fun (fs : filesystem) p =>
                match MainWindow.csvTextOf showFloat sort canCreate F p with
                | Ok text => MainWindow.writeFile fs (MainWindow.csvPathOf p) text
                | Throw _ => fs
                end in
  (forall q, ~ In q (map MainWindow.csvPathOf binPaths) ->
             fold_left step binPaths fs q = fs q)
  /\ (forall p text, In p binPaths ->
        MainWindow.csvTextOf showFloat sort canCreate F p = Ok text ->
        fold_left step binPaths fs (MainWindow.csvPathOf p)
        = Some (list_byte_of_string text))
  /\ (forall p e, In p binPaths ->
        MainWindow.csvTextOf showFloat sort canCreate F p = Throw e ->
        fold_left step binPaths fs (MainWindow.csvPathOf p)
        = fs (MainWindow.csvPathOf p)).
Proof.
  cbv zeta. induction binPaths as [|p0 rest IH]; intros fs Hnd.
  - cbn [fold_left]. repeat split; intros; try reflexivity; contradiction.
  - cbn [map] in Hnd. apply NoDup_cons_iff in Hnd. destruct Hnd as [Hnotin Hnd].
    cbn [fold_left map].
    set (fs1 := match MainWindow.csvTextOf showFloat sort canCreate F p0 with
                | Ok text => MainWindow.writeFile fs (MainWindow.csvPathOf p0) text
                | Throw _ => fs
                end).
    destruct (IH fs1 Hnd) as (IH1 & IH2 & IH3).
    assert (forall q, q <> MainWindow.csvPathOf p0 -> fs1 q = fs q) as Hother.
    { intros q Hq. subst fs1.
      destruct (MainWindow.csvTextOf showFloat sort canCreate F p0); [|reflexivity].
      unfold MainWindow.writeFile.
      destruct (String.eqb_spec q (MainWindow.csvPathOf p0)); [contradiction|reflexivity]. }
    split; [|split].
    + intros q Hq.
      rewrite IH1 by (intros Hin; apply Hq; now right).
      apply Hother. intros E. apply Hq. now left.
    + intros p text [<-|Hp] Ht.
      * rewrite IH1 by exact Hnotin. subst fs1. rewrite Ht.
        unfold MainWindow.writeFile. now rewrite String.eqb_refl.
      * now apply IH2.
    + intros p e [<-|Hp] Ht.
      * rewrite IH1 by exact Hnotin. subst fs1. now rewrite Ht.
      * rewrite (IH3 p e Hp Ht). apply Hother.
        intros E. apply Hnotin. rewrite <- E. now apply in_map.
Qed.

(** X20.  The separate mode handles each file on its own.  When no two
    files of the list share their CSV path and no CSV path is itself a
    file of the list: every file that decodes and whose CSV can be created
    has its CSV written beside it, whatever happens to the others; a file
    that fails, in decoding or in writing, is reported as a failed parse
    of that file and writes nothing; nothing else in the file system is
    touched; and the box at the end lists the CSVs written, in the order
    of the list, when there is one. *)
Theorem separate_mode_handles_each_file_on_its_own
        (binPaths : list string) (outFilename : string) (fs : filesystem) :
  binPaths <> [] ->
  NoDup (map MainWindow.csvPathOf binPaths) ->
  (forall p q, In p binPaths -> In q binPaths -> MainWindow.csvPathOf p <> q) ->
  let after := MainWindow.onParse showFloat sort canCreate binPaths false outFilename fs in
  let outcome := MainWindow.csvTextOf showFloat sort canCreate fs in
  let written := flat_map (fun p => match outcome p with
                                    | Ok _ => [MainWindow.csvPathOf p]
                                    | Throw _ => []
                                    end) binPaths in
  let failed := flat_map (fun p => match outcome p with
                                   | Ok _ => []
                                   | Throw e => [MainWindow.ParseFailed p e]
                                   end) binPaths in
  (forall p text, In p binPaths -> outcome p = Ok text ->
     fst after (MainWindow.csvPathOf p) = Some (list_byte_of_string text))
  /\ (forall p e, In p binPaths -> outcome p = Throw e ->
        fst after (MainWindow.csvPathOf p) = fs (MainWindow.csvPathOf p))
  /\ (forall q, ~ In q (map MainWindow.csvPathOf binPaths) -> fst after q = fs q)
  /\ snd after = match written with
                 | [] => failed
                 | _ :: _ => failed ++ [MainWindow.SeparateWritten written]
                 end.
Proof.
  intros Hpaths Hnd Hsep. cbv zeta. unfold MainWindow.onParse.
  destruct binPaths as [|p0 rest] eqn:Epaths; [congruence|].
  change (List.length (p0 :: rest) =? 0)%nat with false. cbv iota.
  rewrite <- Epaths in *.
  rewrite (separateLoop_spec fs binPaths fs [] [] (fun _ _ => eq_refl) Hsep).
  cbn [app fst snd].
  destruct (fold_writes fs binPaths fs Hnd) as (W1 & W2 & W3).
  split; [exact W2|]. split; [exact W3|]. split; [exact W1|].
  destruct (flat_map _ binPaths) as [|w ws]; reflexivity.
Qed.
End WindowFacts.

Lemma merge_mode_is_all_or_nothing_witness :
  MainWindow.onParse (fun _ => "x") insertionSort (fun _ => true)
    ["a.bin"; "b.bin"] true "out.csv"
    (fun p => if String.eqb p "a.bin" then Some sampleFile else None)
  = (fun p => if String.eqb p "a.bin" then Some sampleFile else None,
     [MainWindow.ParseFailed "b.bin" CannotOpen]).
Proof.
  apply (merge_mode_is_all_or_nothing (fun _ => "x") insertionSort (fun _ => true)
           ["a.bin"; "b.bin"] "out.csv"
           (fun p => if String.eqb p "a.bin" then Some sampleFile else None));
    discriminate.
Defined.

Lemma separate_mode_handles_each_file_on_its_own_witness :
  fst (MainWindow.onParse (fun _ => "x") insertionSort (fun _ => true)
         ["b.bin"; "a.bin"] false ""
         (fun p => if String.eqb p "a.bin" then Some sampleFile else None))
      (MainWindow.csvPathOf "b.bin")
  = (fun p => if String.eqb p "a.bin" then Some sampleFile else None)
      (MainWindow.csvPathOf "b.bin").
Proof.
  apply (separate_mode_handles_each_file_on_its_own
           (fun _ => "x") insertionSort (fun _ => true)
           ["b.bin"; "a.bin"] ""
           (fun p => if String.eqb p "a.bin" then Some sampleFile else None)) with
      (e := CannotOpen).
  - discriminate.
  - vm_compute. repeat constructor; cbn; intuition discriminate.
  - intros p q [<-|[<-|[]]] [<-|[<-|[]]]; vm_compute; discriminate.
  - left. reflexivity.
  - vm_compute. reflexivity.
Defined.

(** ** The comparison passed to [std::sort] *)

(** X21.  The comparison [writeCsv] passes to [std::sort] is a strict weak
    ordering, as [std::sort] requires: it is irreflexive and transitive,
    two records are unordered by it exactly when the dedup loop takes
    them for the same timestamp, and being unordered is transitive. *)
Theorem comp_is_a_strict_weak_ordering :
  (forall a, comp a a = false)
  /\ (forall a b c, comp a b = true -> comp b c = true -> comp a c = true)
  /\ (forall a b, comp a b = false /\ comp b a = false <-> differs a b = false)
  /\ (forall a b c,
        comp a b = false /\ comp b a = false ->
        comp b c = false /\ comp c b = false ->
        comp a c = false /\ comp c a = false).
Proof.
  assert (forall a b, comp a b = false /\ comp b a = false
                      <-> Spec.stamp a = Spec.stamp b) as Heq.
  { intros a b. rewrite !comp_false. split.
    - intros [[Hba|Hba] [Hab|Hab]]; try congruence.
      exfalso. apply (lexLt_irrefl (Spec.stamp a)).
      eapply lexLt_trans; eassumption.
    - intros E. rewrite E. split; right; reflexivity. }
  split; [|split; [|split]].
  - intros a. apply comp_false. right. reflexivity.
  - intros a b c Hab Hbc. apply comp_true in Hab, Hbc. apply comp_true.
    eapply lexLt_trans; eassumption.
  - intros a b. rewrite differs_false. apply Heq.
  - intros a b c Hab Hbc. apply Heq in Hab, Hbc. apply Heq. congruence.
Qed.
